(** * Memory simulation engine and tutorial step verification

    A shallow embedding of [memory_manager.py] (class [MemoryManager]) and of
    [TutorialManager.verify_step_completed] from [tutorial_manager.py],
    followed by the properties the specification states about them; then the
    navigation methods of [TutorialManager], the tail of the log shown by
    [get_current_state], the frame count of [get_results] and the parameter
    checks of [start_simulation] from [app.py], with further properties of
    the engine and of the navigation.

    Conventions of the embedding:
    - Python integers that come from the caller (sizes, addresses, the
      configuration) are [Z]; [//] is [Z.div] (both round towards minus
      infinity), and a division by zero raises [ZeroDivisionError];
    - list indices, owner ids and the counters are [nat]: they only ever come
      from [enumerate], from [next_id] (which starts at 1) and from counters
      that start at 0 and are incremented;
    - a frame is the dictionary [{'status': ..., 'id': ...}]; only the two
      status strings ['free'] and ['allocated'] are ever written;
    - [page_table] is a finite map from owner id to its list of frame indices;
      [page_queue] (a deque) is a list with the oldest entry first;
      [page_access_time] (a dict, which iterates in insertion order) is an
      association list in insertion order;
    - a method returns the engine it leaves behind together with its result:
      a Python exception does not undo the assignments made before it;
    - addresses and sizes reach the engine as integers, so the [None] and
      [int(...)] guards at the head of [deallocate_memory] and
      [access_memory] never fire and are left out;
    - the operation log holds each record's frame list by value. In Python
      the list of an allocate record is the very list stored in the page
      table; the only in-place update of such a list is the [append] of
      [_handle_page_fault], in a branch that needs [next_id] to be a key of
      the page table already, which [table_fresh] excludes. *)

From stdpp Require Import base option list gmap strings numbers sorting.


(** ** Exceptions and results *)

(** The [ValueError]s, told apart by their message: the four the engine
    raises and the two of [int(...)]. *)
Inductive value_error :=
  | RequestedSizeExceeds   (* "Requested size ... exceeds total memory size ..." *)
  | InvalidAddress         (* "Invalid address: ... (frame ... out of bounds)" *)
  | NoAllocatedMemory      (* "No allocated memory to deallocate" *)
  | NoProcessId            (* "No process ID associated with frame ..." *)
  | InvalidLiteral         (* "invalid literal for int() with base 10: ..." *)
  | FloatNaNToInteger.     (* "cannot convert float NaN to integer" *)

Inductive exn :=
  | ValueError (msg : value_error)
  | IndexError
  | KeyError
  | ZeroDivisionError
  | TypeError
  | OverflowError.

Inductive result (A : Type) :=
  | Ok (a : A)
  | Raise (x : exn).
Arguments Ok {A} a.
Arguments Raise {A} x.

Definition is_ok {A} (r : result A) : bool :=
  match r with Ok _ => true | Raise _ => false end.

(** ** Python list helpers *)

(** [enumerate(l)], counting from [k]. *)
Fixpoint enumerate_from {A} (k : nat) (l : list A) : list (nat * A) :=
  match l with
  | [] => []
  | x :: l' => (k, x) :: enumerate_from (S k) l'
  end.

Definition enumerate {A} (l : list A) : list (nat * A) := enumerate_from 0 l.

(** [l[i]] for a Python integer [i]: a negative index counts from the end, and
    an index outside the list raises [IndexError] ([None] here). *)
Definition py_index {A} (l : list A) (i : Z) : option A :=
  if decide (0 ≤ i)%Z then l !! Z.to_nat i
  else if decide (0 ≤ Z.of_nat (length l) + i)%Z
       then l !! Z.to_nat (Z.of_nat (length l) + i)
       else None.

(** [l[:n]] for a Python integer [n]: a negative [n] drops the last [-n]
    elements. *)
Definition py_slice_to {A} (l : list A) (n : Z) : list A :=
  if decide (0 ≤ n)%Z then take (Z.to_nat n) l
  else take (length l - Z.to_nat (- n)) l.

(** ** Insertion-ordered dictionaries with [nat] values *)

Section dict.
Context {K : Type} `{EqDecision K}.

(** [d[k] = v]: an existing key keeps its place, a new key goes last. *)
Fixpoint dict_set (k : K) (v : nat) (d : list (K * nat)) : list (K * nat) :=
  match d with
  | [] => [(k, v)]
  | kv :: d' => if decide (kv.1 = k) then (k, v) :: d' else kv :: dict_set k v d'
  end.

(** [del d[k]]. *)
Definition dict_del (k : K) (d : list (K * nat)) : list (K * nat) :=
  filter (λ kv, kv.1 ≠ k) d.

(** [min(best :: d, key=lambda x: x[1])]: the first item of least value. *)
Fixpoint min_by_value (best : K * nat) (d : list (K * nat)) : K * nat :=
  match d with
  | [] => best
  | kv :: d' => min_by_value (if decide (kv.2 < best.2) then kv else best) d'
  end.
End dict.

(** ** Data model *)

Inductive frame_status := free | allocated.

Global Instance frame_status_eq_dec : EqDecision frame_status.
Proof. solve_decision. Defined.

(** [{'status': frame_status, 'id': frame_id}] *)
Record frame := Frame {
  status : frame_status;
  frame_id : option nat;
}.

Global Instance frame_eq_dec : EqDecision frame.
Proof. solve_decision. Defined.

Definition free_frame : frame := Frame free None.
Definition allocated_frame (process_id : nat) : frame := Frame allocated (Some process_id).

Inductive access_result := hit | fault.

(** The records appended to [self.operations]. *)
Inductive operation :=
  | OpAllocate (process_id : nat) (size : Z) (frames : list nat)
  | OpDeallocate (process_id : nat) (address : Z) (frames : list nat)
  | OpAccess (address : Z) (res : access_result).

Record engine := Engine {
  technique : string;
  memory_size : Z;
  page_size : Z;
  algorithm : string;
  total_frames : Z;
  memory : list frame;
  page_table : gmap nat (list nat);
  page_queue : list (nat * nat);
  page_access_time : list ((option nat * nat) * nat);
  page_faults : nat;
  memory_accesses : nat;
  page_hits : nat;
  operations : list operation;
  next_id : nat;
}.

Definition set_memory (v : list frame) (e : engine) : engine :=
  Engine (technique e) (memory_size e) (page_size e) (algorithm e) (total_frames e)
    v (page_table e) (page_queue e) (page_access_time e)
    (page_faults e) (memory_accesses e) (page_hits e) (operations e) (next_id e).

Definition set_page_table (v : gmap nat (list nat)) (e : engine) : engine :=
  Engine (technique e) (memory_size e) (page_size e) (algorithm e) (total_frames e)
    (memory e) v (page_queue e) (page_access_time e)
    (page_faults e) (memory_accesses e) (page_hits e) (operations e) (next_id e).

Definition set_page_queue (v : list (nat * nat)) (e : engine) : engine :=
  Engine (technique e) (memory_size e) (page_size e) (algorithm e) (total_frames e)
    (memory e) (page_table e) v (page_access_time e)
    (page_faults e) (memory_accesses e) (page_hits e) (operations e) (next_id e).

Definition set_page_access_time (v : list ((option nat * nat) * nat)) (e : engine) : engine :=
  Engine (technique e) (memory_size e) (page_size e) (algorithm e) (total_frames e)
    (memory e) (page_table e) (page_queue e) v
    (page_faults e) (memory_accesses e) (page_hits e) (operations e) (next_id e).

Definition set_page_faults (v : nat) (e : engine) : engine :=
  Engine (technique e) (memory_size e) (page_size e) (algorithm e) (total_frames e)
    (memory e) (page_table e) (page_queue e) (page_access_time e)
    v (memory_accesses e) (page_hits e) (operations e) (next_id e).

Definition set_memory_accesses (v : nat) (e : engine) : engine :=
  Engine (technique e) (memory_size e) (page_size e) (algorithm e) (total_frames e)
    (memory e) (page_table e) (page_queue e) (page_access_time e)
    (page_faults e) v (page_hits e) (operations e) (next_id e).

Definition set_page_hits (v : nat) (e : engine) : engine :=
  Engine (technique e) (memory_size e) (page_size e) (algorithm e) (total_frames e)
    (memory e) (page_table e) (page_queue e) (page_access_time e)
    (page_faults e) (memory_accesses e) v (operations e) (next_id e).

Definition set_operations (v : list operation) (e : engine) : engine :=
  Engine (technique e) (memory_size e) (page_size e) (algorithm e) (total_frames e)
    (memory e) (page_table e) (page_queue e) (page_access_time e)
    (page_faults e) (memory_accesses e) (page_hits e) v (next_id e).

Definition set_next_id (v : nat) (e : engine) : engine :=
  Engine (technique e) (memory_size e) (page_size e) (algorithm e) (total_frames e)
    (memory e) (page_table e) (page_queue e) (page_access_time e)
    (page_faults e) (memory_accesses e) (page_hits e) (operations e) v.

(** ** [MemoryManager.__init__] *)

Definition init (technique : string) (memory_size page_size : Z) (algorithm : string)
    : result engine :=
  if decide (page_size = 0%Z) then Raise ZeroDivisionError
  else
    let total_frames := (memory_size / page_size)%Z in
    Ok {| technique := technique;
          memory_size := memory_size;
          page_size := page_size;
          algorithm := algorithm;
          total_frames := total_frames;
          memory := replicate (Z.to_nat total_frames) free_frame;
          page_table := ∅;
          page_queue := [];
          page_access_time := [];
          page_faults := 0;
          memory_accesses := 0;
          page_hits := 0;
          operations := [];
          next_id := 1 |}.

(** ** Scans of the frame array *)

(** [[i for i, frame in enumerate(self.memory) if frame['status'] == 'free']] *)
Definition free_frames (mem : list frame) : list nat :=
  (filter (λ p, status p.2 = free) (enumerate mem)).*1.

(** [[(i, f) for i, f in enumerate(self.memory) if f['status'] == 'allocated']] *)
Definition allocated_frames (mem : list frame) : list (nat * frame) :=
  filter (λ p, status p.2 = allocated) (enumerate mem).

(** ** [MemoryManager._replace_pages] *)

(** What one pass through the body of the [for] loop decides. *)
Inductive loop_ctl := LoopBreak | LoopNext.

(** The fallback shared by the three branches: the first allocated frame, as
    [(frame_idx, process_id)], or [None] when the loop must [break]. *)
Definition first_allocated (mem : list frame) : option (nat * option nat) :=
  match allocated_frames mem with
  | [] => None
  | (i, f) :: _ => Some (i, frame_id f)
  end.

(** Selection of the victim: the engine with its replacement metadata
    updated, the victim's [process_id] and its [frame_idx]; [None] is
    [break]. *)
Definition select_victim (e : engine) : option (engine * option nat * nat) :=
  if decide (algorithm e = "FIFO") then
    match page_queue e with
    | [] =>
        match first_allocated (memory e) with
        | None => None
        | Some (frame_idx, process_id) => Some (e, process_id, frame_idx)
        end
    | (process_id, frame_idx) :: q => Some (set_page_queue q e, Some process_id, frame_idx)
    end
  else if decide (algorithm e = "LRU") then
    match page_access_time e with
    | [] =>
        match first_allocated (memory e) with
        | None => None
        | Some (frame_idx, process_id) => Some (e, process_id, frame_idx)
        end
    | kv :: d =>
        let lru_key := (min_by_value kv d).1 in
        Some (set_page_access_time (dict_del lru_key (page_access_time e)) e,
              lru_key.1, lru_key.2)
    end
  else
    match first_allocated (memory e) with
    | None => None
    | Some (frame_idx, process_id) => Some (e, process_id, frame_idx)
    end.

(** The page-table update of an eviction. *)
Definition page_table_remove (process_id frame_idx : nat) (pt : gmap nat (list nat))
    : gmap nat (list nat) :=
  match pt !! process_id with
  | None => pt
  | Some fs =>
      match filter (λ f, f ≠ frame_idx) fs with
      | [] => delete process_id pt
      | fs' => <[process_id := fs']> pt
      end
  end.

(** The rest of the loop body: the safety checks, then the eviction. *)
Definition evict (e : engine) (process_id : option nat) (frame_idx : nat) : engine :=
  match process_id with
  | None => e
  | Some pid =>
      if decide (length (memory e) ≤ frame_idx) then e
      else
        let e := set_memory (<[frame_idx := free_frame]> (memory e)) e in
        let e := set_page_table (page_table_remove pid frame_idx (page_table e)) e in
        set_page_faults (page_faults e + 1) e
  end.

Definition replace_one (e : engine) : engine * loop_ctl :=
  match select_victim e with
  | None => (e, LoopBreak)
  | Some (e', process_id, frame_idx) => (evict e' process_id frame_idx, LoopNext)
  end.

(** [for _ in range(n)] *)
Fixpoint replace_loop (n : nat) (e : engine) : engine :=
  match n with
  | 0 => e
  | S n' =>
      match replace_one e with
      | (e', LoopBreak) => e'
      | (e', LoopNext) => replace_loop n' e'
      end
  end.

Definition _replace_pages (e : engine) (num_pages : Z) : engine :=
  if decide (num_pages ≤ 0)%Z then e else replace_loop (Z.to_nat num_pages) e.

(** ** [MemoryManager.allocate_memory] *)

(** One pass of [for frame_idx in allocated_frames]. *)
Definition allocate_frame (process_id : nat) (frames : list nat)
    (e : engine) (frame_idx : nat) : engine :=
  let e := set_memory (<[frame_idx := allocated_frame process_id]> (memory e)) e in
  let e := set_page_table (<[process_id := frames]> (page_table e)) e in
  if decide (algorithm e = "FIFO") then
    set_page_queue (page_queue e ++ [(process_id, frame_idx)]) e
  else if decide (algorithm e = "LRU") then
    set_page_access_time
      (dict_set (Some process_id, frame_idx) (memory_accesses e) (page_access_time e)) e
  else e.

(** Everything after the computation of [num_pages_needed]. *)
Definition allocate_pages (e : engine) (size num_pages_needed : Z) : engine * result Z :=
  if decide (num_pages_needed > total_frames e)%Z then
    (e, Raise (ValueError RequestedSizeExceeds))
  else
    let free := free_frames (memory e) in
    let e :=
      if decide (Z.of_nat (length free) < num_pages_needed)%Z
      then _replace_pages e (num_pages_needed - Z.of_nat (length free))
      else e in
    let free := free_frames (memory e) in
    let process_id := next_id e in
    let e := set_next_id (next_id e + 1) e in
    let frames := py_slice_to free num_pages_needed in
    let e := foldl (allocate_frame process_id frames) e frames in
    let e := set_operations (operations e ++ [OpAllocate process_id size frames]) e in
    match frames with
    | [] => (e, Raise IndexError)
    | f :: _ => (e, Ok (Z.of_nat f * page_size e)%Z)
    end.

Definition allocate_memory (e : engine) (size : Z) : engine * result Z :=
  if decide (page_size e = 0%Z) then (e, Raise ZeroDivisionError)
  else allocate_pages e size ((size + page_size e - 1) / page_size e)%Z.

(** ** [MemoryManager.deallocate_memory] *)

(** One pass of [for frame_idx in process_frames]. *)
Definition free_process_frame (process_id : nat) (e : engine) (frame_idx : nat) : engine :=
  if decide (frame_idx < length (memory e)) then
    let e := set_memory (<[frame_idx := free_frame]> (memory e)) e in
    if decide (algorithm e = "FIFO") then
      set_page_queue (filter (λ p, p.1 ≠ process_id) (page_queue e)) e
    else if decide (algorithm e = "LRU") then
      set_page_access_time
        (filter (λ kv, kv.1.1 ≠ Some process_id) (page_access_time e)) e
    else e
  else e.

(** Everything from [process_id = frame['id']] on, for the resolved frame. *)
Definition deallocate_frame (e : engine) (frame_num : nat) (fr : frame)
    : engine * result unit :=
  match frame_id fr with
  | None => (e, Raise (ValueError NoProcessId))
  | Some process_id =>
      let process_frames :=
        match default [] (page_table e !! process_id) with
        | [] => [frame_num]
        | fs => fs
        end in
      let e := foldl (free_process_frame process_id) e process_frames in
      let e := set_page_table (delete process_id (page_table e)) e in
      let actual_address := (Z.of_nat frame_num * page_size e)%Z in
      let e := set_operations
                 (operations e ++ [OpDeallocate process_id actual_address process_frames]) e in
      (e, Ok ())
  end.

Definition deallocate_memory (e : engine) (address : Z) : engine * result unit :=
  if decide (page_size e = 0%Z) then (e, Raise ZeroDivisionError)
  else
    let frame_num := (address / page_size e)%Z in
    if decide ((frame_num >= Z.of_nat (length (memory e)))%Z ∨ (frame_num < 0)%Z) then
      (e, Raise (ValueError InvalidAddress))
    else
      match memory e !! Z.to_nat frame_num with
      | None => (e, Raise IndexError)
      | Some fr =>
          if decide (status fr ≠ allocated) then
            match allocated_frames (memory e) with
            | [] => (e, Raise (ValueError NoAllocatedMemory))
            | (i, f) :: _ => deallocate_frame e i f
            end
          else deallocate_frame e (Z.to_nat frame_num) fr
      end.

(** ** [MemoryManager._handle_page_fault] and [MemoryManager.access_memory] *)

Definition _handle_page_fault (e : engine) (frame_num : nat) : engine :=
  match memory e !! frame_num with
  | None => e
  | Some fr =>
      match status fr with
      | allocated => e
      | free =>
          let process_id := next_id e in
          let e := set_next_id (next_id e + 1) e in
          let e := set_memory (<[frame_num := allocated_frame process_id]> (memory e)) e in
          let e :=
            set_page_table
              (match page_table e !! process_id with
               | Some fs => <[process_id := fs ++ [frame_num]]> (page_table e)
               | None => <[process_id := [frame_num]]> (page_table e)
               end) e in
          if decide (algorithm e = "FIFO") then
            set_page_queue (page_queue e ++ [(process_id, frame_num)]) e
          else if decide (algorithm e = "LRU") then
            set_page_access_time
              (dict_set (Some process_id, frame_num) (memory_accesses e) (page_access_time e)) e
          else e
      end
  end.

(** The frame number [access_memory] resolves an address to. *)
Definition access_frame_num (e : engine) (address : Z) : Z :=
  let frame_num := (address / page_size e)%Z in
  if decide ((frame_num >= Z.of_nat (length (memory e)))%Z ∨ (frame_num < 0)%Z)
  then Z.min (Z.max 0 frame_num) (Z.of_nat (length (memory e)) - 1)
  else frame_num.

(** Everything after the frame number has been resolved. A successful lookup
    means [0 <= frame_num] (lemma [access_frame_num_lookup]), so the frame
    index that is stored afterwards is [Z.to_nat frame_num]. *)
Definition access_frame (e : engine) (address frame_num : Z) : engine * result bool :=
  let e := set_memory_accesses (memory_accesses e + 1) e in
  match py_index (memory e) frame_num with
  | None => (e, Raise IndexError)
  | Some fr =>
      if decide (status fr ≠ allocated) then
        let e := set_page_faults (page_faults e + 1) e in
        let e := _handle_page_fault e (Z.to_nat frame_num) in
        let e := set_operations (operations e ++ [OpAccess address fault]) e in
        (e, Ok false)
      else
        let e := set_page_hits (page_hits e + 1) e in
        let process_id := frame_id fr in
        let e :=
          if decide (algorithm e = "LRU") then
            set_page_access_time
              (dict_set (process_id, Z.to_nat frame_num) (memory_accesses e)
                 (page_access_time e)) e
          else e in
        let e := set_operations (operations e ++ [OpAccess address hit]) e in
        (e, Ok true)
  end.

Definition access_memory (e : engine) (address : Z) : engine * result bool :=
  if decide (page_size e = 0%Z) then (e, Raise ZeroDivisionError)
  else access_frame e address (access_frame_num e address).

(** ** Sequences of operations *)

Inductive op :=
  | Allocate (size : Z)
  | Deallocate (address : Z)
  | Access (address : Z).

(** The engine after one call; an exception leaves the engine as the method
    left it. *)
Definition step (e : engine) (o : op) : engine :=
  match o with
  | Allocate size => (allocate_memory e size).1
  | Deallocate address => (deallocate_memory e address).1
  | Access address => (access_memory e address).1
  end.

Definition run (e : engine) (ops : list op) : engine := foldl step e ops.

(** ** The state invariant *)

(** The page table and the frame array describe the same ownership, and owner
    ids in use are below [next_id]. *)
Record table_ok (mem : list frame) (pt : gmap nat (list nat)) (nid : nat) : Prop := {
  table_frames : ∀ pid fs i,
    pt !! pid = Some fs → i ∈ fs → mem !! i = Some (allocated_frame pid);
  frames_table : ∀ i fr,
    mem !! i = Some fr → status fr = allocated →
    ∃ pid fs, fr = allocated_frame pid ∧ pt !! pid = Some fs ∧ i ∈ fs;
  table_fresh : ∀ pid, is_Some (pt !! pid) → pid < nid;
}.

(** Every entry of the FIFO queue names a frame allocated to that owner. *)
Record queue_ok (mem : list frame) (q : list (nat * nat)) : Prop := {
  queue_frames : ∀ pid i, (pid, i) ∈ q → mem !! i = Some (allocated_frame pid);
  queue_nodup : NoDup q;
}.

(** Every key of the LRU clock names a frame allocated to that owner. *)
Record times_ok (mem : list frame) (d : list ((option nat * nat) * nat)) : Prop := {
  times_frames : ∀ k, k ∈ d.*1 →
    ∃ pid, k.1 = Some pid ∧ mem !! k.2 = Some (allocated_frame pid);
  times_nodup : NoDup d.*1;
}.

Record engine_inv (e : engine) : Prop := {
  inv_table : table_ok (memory e) (page_table e) (next_id e);
  inv_queue : queue_ok (memory e) (page_queue e);
  inv_times : times_ok (memory e) (page_access_time e);
  inv_queue_alg : algorithm e ≠ "FIFO" → page_queue e = [];
  inv_times_alg : algorithm e ≠ "LRU" → page_access_time e = [];
}.

(** The engines that exist: built by [init] from a configuration the caller
    has validated (positive sizes, [memory_size] a multiple of [page_size]),
    then driven by any sequence of operations. *)
Definition valid_config (memory_size page_size : Z) : Prop :=
  (0 < memory_size)%Z ∧ (0 < page_size)%Z ∧ (memory_size `mod` page_size = 0)%Z.

Definition reachable (e : engine) : Prop :=
  ∃ technique memory_size page_size algorithm e0 ops,
    valid_config memory_size page_size ∧
    init technique memory_size page_size algorithm = Ok e0 ∧
    e = run e0 ops.

(** ** Vocabulary of the properties *)

(** [fill x fs mem]: the frame array after [mem[j] = x] for every [j] in [fs]. *)
Definition fill (x : frame) (fs : list nat) (mem : list frame) : list frame :=
  foldl (λ m j, <[j := x]> m) mem fs.

(** A change of the frame array that keeps every allocated frame. *)
Definition keeps_allocated (mem mem' : list frame) : Prop :=
  ∀ i pid, mem !! i = Some (allocated_frame pid) → mem' !! i = Some (allocated_frame pid).

(** The configuration and the number of frames, which no operation touches. *)
Record same_shape (e e' : engine) : Prop := {
  shape_technique : technique e' = technique e;
  shape_memory_size : memory_size e' = memory_size e;
  shape_page_size : page_size e' = page_size e;
  shape_algorithm : algorithm e' = algorithm e;
  shape_total_frames : total_frames e' = total_frames e;
  shape_length : length (memory e') = length (memory e);
}.

(** Frame [i] has status ['allocated']. *)
Definition frame_allocated (e : engine) (i : nat) : Prop :=
  ∃ fr, memory e !! i = Some fr ∧ status fr = allocated.

(** Frame [i] occurs in the frame sequence of some owner of the page table. *)
Definition frame_in_page_table (e : engine) (i : nat) : Prop :=
  ∃ pid fs, page_table e !! pid = Some fs ∧ i ∈ fs.

(** [ceil(a / b)] as the specification writes it, for [0 < b]: the least [k]
    with [a <= k * b] (lemma [spec_ceil_div_least]). *)
Definition spec_ceil_div (a b : Z) : Z := (- ((- a) / b))%Z.

(** The clamp of the specification: [x] brought into [[0, n)]. *)
Definition spec_clamp (x n : Z) : Z := Z.max 0 (Z.min x (n - 1)).

(** ** [TutorialManager]

    Of a step only the title and the expected operation are kept; its texts
    and its engine configuration play no part in the verification. The
    expected sizes and addresses of the table are integer literals, for which
    [int(...)] is the identity; the operation record is the dictionary of the
    request, whose fields hold whatever value the JSON of the request gave
    them. *)

(** A Python float by its value: [(-1)^negative * mantissa * 2^exponent]
    when finite. Every binary64 number is of this form. *)
Inductive py_float :=
  | FloatNaN
  | FloatInfinity (negative : bool)
  | FloatFinite (negative : bool) (mantissa : N) (exponent : Z).

(** The values [request.json] produces. *)
#[warnings="-register-all"]
Inductive py_value :=
  | PyNone
  | PyBool (b : bool)
  | PyInt (n : Z)
  | PyFloat (x : py_float)
  | PyStr (s : string)
  | PyList (items : list py_value)
  | PyDict (items : list (string * py_value)).

(** [int(s)] for a string [s] is the decimal parse of the interpreter (white
    space, sign, underscores, the decimal digits of Unicode): it is not code
    of the program, and the properties hold whatever it answers. [None] stands
    for its [ValueError]. *)
Class Interpreter := { int_of_str : string → option Z }.

(** [int(x)] for a float: the value with its fraction cut off. *)
Definition int_of_float (x : py_float) : result Z :=
  match x with
  | FloatNaN => Raise (ValueError FloatNaNToInteger)
  | FloatInfinity _ => Raise OverflowError
  | FloatFinite negative mantissa exponent =>
      let magnitude := Z.shiftl (Z.of_N mantissa) exponent in
      Ok (if negative then - magnitude else magnitude)%Z
  end.

(** [int(v)] *)
Definition py_int `{!Interpreter} (v : py_value) : result Z :=
  match v with
  | PyNone => Raise TypeError
  | PyBool b => Ok (if b then 1 else 0)%Z
  | PyInt n => Ok n
  | PyFloat x => int_of_float x
  | PyStr s =>
      match int_of_str s with
      | Some n => Ok n
      | None => Raise (ValueError InvalidLiteral)
      end
  | PyList _ | PyDict _ => Raise TypeError
  end.

(** [step['expected_operation']] *)
Record expected_operation := ExpectedOperation {
  expected_type : option string;
  expected_size : option Z;
  expected_address : option Z;
}.

Record tutorial_step := TutorialStep {
  step_title : string;
  step_expected_operation : option expected_operation;
}.

(** [operation_data], the dictionary of the operation the user performed:
    its keys ['type'], ['size'] and ['address'], each absent or holding a
    value. No other key is read. *)
Record operation_data := OperationData {
  data_type : option py_value;
  data_size : option py_value;
  data_address : option py_value;
}.

Record tutorial_manager := TutorialManager {
  current_tutorial : option string;
  current_step : nat;
  tutorials : gmap string (list tutorial_step);
}.

Definition expect_allocate (size : Z) : option expected_operation :=
  Some (ExpectedOperation (Some "allocate") (Some size) None).
Definition expect_access (address : Z) : option expected_operation :=
  Some (ExpectedOperation (Some "access") None (Some address)).
Definition expect_only (type : string) : option expected_operation :=
  Some (ExpectedOperation (Some type) None None).

(** [self.tutorials], as [TutorialManager.__init__] builds it: the steps of
    the four tutorials. *)
Definition intro_steps : list tutorial_step := [
  TutorialStep "Welcome to Memory Management" None;
  TutorialStep "Memory Allocation" (expect_allocate 128);
  TutorialStep "Memory Access" (expect_access 64);
  TutorialStep "Memory Deallocation" (expect_only "deallocate");
  TutorialStep "Introduction Complete" None ].

Definition fragmentation_steps : list tutorial_step := [
  TutorialStep "Understanding Fragmentation" None;
  TutorialStep "External Fragmentation" (expect_allocate 256);
  TutorialStep "Creating Fragmentation" (expect_allocate 128);
  TutorialStep "Deallocating Memory" (expect_only "deallocate");
  TutorialStep "Observing Fragmentation" (expect_allocate 192);
  TutorialStep "Internal Fragmentation" (expect_allocate 60);
  TutorialStep "Fragmentation Complete" None ].

Definition page_replacement_steps : list tutorial_step := [
  TutorialStep "Page Replacement" None;
  TutorialStep "First-In-First-Out (FIFO)" (expect_allocate 512);
  TutorialStep "FIFO Page Fault" (expect_allocate 128);
  TutorialStep "Least Recently Used (LRU)" (expect_only "reset");
  TutorialStep "LRU Memory Access" (expect_allocate 256);
  TutorialStep "LRU Page Replacement" (expect_allocate 384);
  TutorialStep "Algorithm Comparison" None ].

Definition optimization_steps : list tutorial_step := [
  TutorialStep "Memory Optimization" None;
  TutorialStep "Right-Sizing Allocations" (expect_allocate 60);
  TutorialStep "Memory Pooling" (expect_allocate 64);
  TutorialStep "Locality of Reference" (expect_access 0);
  TutorialStep "Compaction" (expect_only "deallocate");
  TutorialStep "Optimization Challenge" (expect_only "allocate");
  TutorialStep "Optimization Complete" None ].

Definition tutorial_table : gmap string (list tutorial_step) :=
  list_to_map [
    ("intro", intro_steps);
    ("fragmentation", fragmentation_steps);
    ("page_replacement", page_replacement_steps);
    ("optimization", optimization_steps) ].

(** [expected.get('type') == operation_data.get('type')]: an absent key reads
    as [None], and a string equals no value of another type. *)
Definition get_eq (expected : option string) (given : option py_value) : bool :=
  match expected, given with
  | None, None | None, Some PyNone => true
  | Some s, Some (PyStr s') => bool_decide (s = s')
  | _, _ => false
  end.

(** The comparison of [verify_step_completed], from [expected = ...] on. *)
Definition verify_expected `{!Interpreter} (expected : expected_operation)
    (operation_data : operation_data) : result bool :=
  if decide (expected_type expected = Some "reset") then
    Ok (get_eq (Some "reset") (data_type operation_data))
  else if negb (get_eq (expected_type expected) (data_type operation_data)) then Ok false
  else if decide (expected_type expected = Some "allocate" ∧ is_Some (expected_size expected))
  then
    match py_int (default (PyInt 0) (data_size operation_data)) with
    | Raise x => Raise x
    | Ok size => Ok (bool_decide (Some size = expected_size expected))
    end
  else if decide (expected_type expected = Some "access" ∧ is_Some (expected_address expected))
  then
    match py_int (default (PyInt (-1)) (data_address operation_data)) with
    | Raise x => Raise x
    | Ok address => Ok (bool_decide (Some address = expected_address expected))
    end
  else if decide (expected_type expected = Some "deallocate") then Ok true
  else Ok false.

Definition verify_step `{!Interpreter} (step : tutorial_step)
    (operation_data : operation_data) : result bool :=
  match step_expected_operation step with
  | None => Ok true
  | Some expected => verify_expected expected operation_data
  end.

Definition verify_step_completed `{!Interpreter} (tm : tutorial_manager)
    (operation_data : operation_data) : result bool :=
  match current_tutorial tm with
  | None => Ok false
  | Some tutorial_id =>
      if decide (tutorial_id = EmptyString) then Ok false
      else
        match tutorials tm !! tutorial_id with
        | None => Raise KeyError
        | Some steps =>
            match steps !! current_step tm with
            | None => Raise IndexError
            | Some step => verify_step step operation_data
            end
        end
  end.

(** Equality of an expected operand and a performed one, as the
    specification compares sizes and addresses: both absent, or both the same
    integer. *)
Definition same_operand (expected : option Z) (given : option py_value) : bool :=
  match expected, given with
  | None, None => true
  | Some n, Some (PyInt m) => bool_decide (n = m)
  | _, _ => false
  end.

(** The comparison as the specification words it: the operation types are
    equal; for an expected allocate the sizes are equal; for an expected
    access the addresses are equal; nothing more for a deallocate or a reset;
    no expected operation satisfies the step. *)
Definition spec_step_satisfied (step : tutorial_step) (operation_data : operation_data)
    : bool :=
  match step_expected_operation step with
  | None => true
  | Some expected =>
      get_eq (expected_type expected) (data_type operation_data)
      && (if decide (expected_type expected = Some "allocate")
          then same_operand (expected_size expected) (data_size operation_data) else true)
      && (if decide (expected_type expected = Some "access")
          then same_operand (expected_address expected) (data_address operation_data)
          else true)
  end.

(** The operation records whose size and address, when given, are
    integers. *)
Definition integer_operands (operation_data : operation_data) : Prop :=
  (∀ v, data_size operation_data = Some v → ∃ n, v = PyInt n) ∧
  (∀ v, data_address operation_data = Some v → ∃ n, v = PyInt n).

(** ** Sample engines and records *)

(** The engine [MemoryManager('paging', 256, 64, algorithm)]: four frames. *)
Definition four_frames (algorithm : string) : engine :=
  Engine "paging" 256 64 algorithm 4 (replicate 4 free_frame) ∅ [] [] 0 0 0 [] 1.

(** One owner over three frames, the fourth frame free. *)
Definition three_of_four : engine := run (four_frames "FIFO") [Allocate 192].

(** Frame 0 free again, frame 1 still allocated. *)
Definition hole_at_zero : engine :=
  run (four_frames "LRU") [Allocate 64; Allocate 64; Deallocate 0].

(** An interpreter for the samples, whose [int] reads a string of ASCII
    digits and refuses every other string. *)
Fixpoint decimal_digits (acc : Z) (s : string) : option Z :=
  match s with
  | EmptyString => Some acc
  | String c s =>
      let d := Z.of_N (Ascii.N_of_ascii c) in
      if decide (48 ≤ d ≤ 57)%Z then decimal_digits (acc * 10 + (d - 48)) s else None
  end.

Definition digits_only : Interpreter :=
  {| int_of_str s := match s with EmptyString => None | _ => decimal_digits 0 s end |}.

(** The intro tutorial at its step "Memory Allocation". *)
Definition intro_at_allocation : tutorial_manager :=
  TutorialManager (Some "intro") 1 tutorial_table.

(** The optimization tutorial at its step "Optimization Challenge". *)
Definition optimization_at_challenge : tutorial_manager :=
  TutorialManager (Some "optimization") 5 tutorial_table.

(** ** Further vocabulary: counts, logs and replacement metadata *)

(** [sum(1 for frame in self.memory if frame['status'] == 'allocated')], the
    count [get_results] reports as ['allocated_frames']. *)
Definition allocated_frame_count (mem : list frame) : nat :=
  length (filter (λ f, status f = allocated) mem).

(** [e'] continues [e] with evictions only: the log, the ids and the access
    counters are those of [e], and [page_faults] has not gone down. *)
Record evicts_only (e e' : engine) : Prop := {
  evicts_operations : operations e' = operations e;
  evicts_next_id : next_id e' = next_id e;
  evicts_memory_accesses : memory_accesses e' = memory_accesses e;
  evicts_page_hits : page_hits e' = page_hits e;
  evicts_page_faults : page_faults e ≤ page_faults e';
}.

(** The owner ids of the allocate records of a log. *)
Definition allocate_ids (log : list operation) : list nat :=
  omap (λ o, match o with OpAllocate process_id _ _ => Some process_id | _ => None end) log.

(** [e'] continues [e]: no counter has gone down, the log of [e] has only
    been appended to, and the allocate records appended carry distinct owner
    ids, all taken from [next_id e] on and below [next_id e']. *)
Definition continues (e e' : engine) : Prop :=
  page_faults e ≤ page_faults e' ∧
  memory_accesses e ≤ memory_accesses e' ∧
  page_hits e ≤ page_hits e' ∧
  next_id e ≤ next_id e' ∧
  ∃ new,
    operations e' = operations e ++ new ∧
    NoDup (allocate_ids new) ∧
    ∀ pid, pid ∈ allocate_ids new → next_id e ≤ pid < next_id e'.


(** A frame as the engine writes it: [{'status': 'free', 'id': None}] or
    [{'status': 'allocated', 'id': process_id}]. *)
Definition clean_frame (fr : frame) : Prop :=
  fr = free_frame ∨ ∃ pid, fr = allocated_frame pid.

(** [l[n:]] for a Python integer [n]: a negative [n] keeps the last [-n]
    elements. *)
Definition py_slice_from {A} (l : list A) (n : Z) : list A :=
  if decide (0 ≤ n)%Z then drop (Z.to_nat n) l
  else drop (length l - Z.to_nat (- n)) l.

(** The ['operations'] entry of [get_current_state]:
    [self.operations[-10:] if self.operations else []]. Its other entries
    are the fields of the engine as they are. *)
Definition recent_operations (e : engine) : list operation :=
  match operations e with
  | [] => []
  | _ => py_slice_from (operations e) (-10)
  end.

(** Every allocated frame is known to the replacement metadata of the
    algorithm in use. *)
Record metadata_complete (e : engine) : Prop := {
  queue_complete : algorithm e = "FIFO" →
    ∀ pid i, memory e !! i = Some (allocated_frame pid) → (pid, i) ∈ page_queue e;
  times_complete : algorithm e = "LRU" →
    ∀ pid i, memory e !! i = Some (allocated_frame pid) →
             (Some pid, i) ∈ (page_access_time e).*1;
}.

(** ** [TutorialManager]: navigation

    The manager of the step verification, together with the set
    [completed_tutorials], which the verification does not read. *)
Record tutorial_session := TutorialSession {
  session_manager : tutorial_manager;
  completed_tutorials : gset string;
}.

(** [TutorialManager.__init__] *)
Definition tutorial_init : tutorial_session :=
  TutorialSession (TutorialManager None 0 tutorial_table) ∅.

(** The messages of the error and status dictionaries. *)
Inductive tutorial_message :=
  | TutorialNotFound      (* "Tutorial with ID ... not found" *)
  | NoActiveTutorial      (* "No tutorial is currently active" *)
  | AlreadyAtFirstStep.   (* "Already at the first step" *)

(** The dictionary [get_current_step] returns for a step, without the title
    of the tutorial (a text the model of [tutorials] does not keep). *)
Record step_info := StepInfo {
  info_tutorial_id : string;
  info_step_index : nat;
  info_total_steps : nat;
  info_step : tutorial_step;
  info_is_last_step : bool;
  info_is_first_step : bool;
}.

(** What the navigation methods return. *)
Inductive tutorial_reply :=
  | ReplyError (message : tutorial_message)   (* {'error': True, 'message': ...} *)
  | ReplyStep (info : step_info)              (* {'error': False, ..., 'step': ...} *)
  | ReplyCompleted (tutorial : string)        (* {'completed': True, ..., 'tutorial': ...} *)
  | ReplyEnded (tutorial_id : string).        (* {'error': False, ..., 'tutorial_id': ...} *)

(** [not self.current_tutorial], with the active tutorial when there is one. *)
Definition active_tutorial (tm : tutorial_manager) : option string :=
  match current_tutorial tm with
  | None => None
  | Some tutorial_id => if decide (tutorial_id = EmptyString) then None else Some tutorial_id
  end.

Definition get_current_step (tm : tutorial_manager) : result tutorial_reply :=
  match active_tutorial tm with
  | None => Ok (ReplyError NoActiveTutorial)
  | Some tutorial_id =>
      match tutorials tm !! tutorial_id with
      | None => Raise KeyError
      | Some steps =>
          match steps !! current_step tm with
          | None => Raise IndexError
          | Some step =>
              Ok (ReplyStep {|
                info_tutorial_id := tutorial_id;
                info_step_index := current_step tm;
                info_total_steps := length steps;
                info_step := step;
                info_is_last_step :=
                  bool_decide (Z.of_nat (current_step tm) = Z.of_nat (length steps) - 1)%Z;
                info_is_first_step := bool_decide (current_step tm = 0) |})
          end
      end
  end.

Definition start_tutorial (s : tutorial_session) (tutorial_id : string)
    : tutorial_session * result tutorial_reply :=
  let tm := session_manager s in
  match tutorials tm !! tutorial_id with
  | None => (s, Ok (ReplyError TutorialNotFound))
  | Some _ =>
      let tm := TutorialManager (Some tutorial_id) 0 (tutorials tm) in
      (TutorialSession tm (completed_tutorials s), get_current_step tm)
  end.

Definition next_step (s : tutorial_session) : tutorial_session * result tutorial_reply :=
  let tm := session_manager s in
  match active_tutorial tm with
  | None => (s, Ok (ReplyError NoActiveTutorial))
  | Some tutorial_id =>
      match tutorials tm !! tutorial_id with
      | None => (s, Raise KeyError)
      | Some steps =>
          if decide (Z.of_nat (current_step tm) >= Z.of_nat (length steps) - 1)%Z then
            (TutorialSession tm ({[tutorial_id]} ∪ completed_tutorials s),
             Ok (ReplyCompleted tutorial_id))
          else
            let tm := TutorialManager (current_tutorial tm) (current_step tm + 1)
                        (tutorials tm) in
            (TutorialSession tm (completed_tutorials s), get_current_step tm)
      end
  end.

Definition previous_step (s : tutorial_session) : tutorial_session * result tutorial_reply :=
  let tm := session_manager s in
  match active_tutorial tm with
  | None => (s, Ok (ReplyError NoActiveTutorial))
  | Some _ =>
      if decide (current_step tm ≤ 0) then (s, Ok (ReplyError AlreadyAtFirstStep))
      else
        let tm := TutorialManager (current_tutorial tm) (current_step tm - 1)
                    (tutorials tm) in
        (TutorialSession tm (completed_tutorials s), get_current_step tm)
  end.

Definition end_tutorial (s : tutorial_session) : tutorial_session * result tutorial_reply :=
  let tm := session_manager s in
  match active_tutorial tm with
  | None => (s, Ok (ReplyError NoActiveTutorial))
  | Some tutorial_id =>
      (TutorialSession (TutorialManager None 0 (tutorials tm)) (completed_tutorials s),
       Ok (ReplyEnded tutorial_id))
  end.

(** Sequences of navigation calls. *)
Inductive tutorial_command :=
  | StartTutorial (tutorial_id : string)
  | NextStep
  | PreviousStep
  | EndTutorial.

Definition run_command (s : tutorial_session) (c : tutorial_command)
    : tutorial_session * result tutorial_reply :=
  match c with
  | StartTutorial tutorial_id => start_tutorial s tutorial_id
  | NextStep => next_step s
  | PreviousStep => previous_step s
  | EndTutorial => end_tutorial s
  end.

Definition navigate (s : tutorial_session) (c : tutorial_command) : tutorial_session :=
  (run_command s c).1.

Definition navigate_all (s : tutorial_session) (cs : list tutorial_command)
    : tutorial_session :=
  foldl navigate s cs.

(** Every tutorial of the table has a name and at least one step. *)
Definition tutorials_ok (table : gmap string (list tutorial_step)) : Prop :=
  ∀ tutorial_id steps, table !! tutorial_id = Some steps →
    tutorial_id ≠ EmptyString ∧ steps ≠ [].

(** The current step, when a tutorial is active, is a step of that tutorial. *)
Definition positioned (tm : tutorial_manager) : Prop :=
  ∀ tutorial_id, current_tutorial tm = Some tutorial_id →
    tutorial_id ≠ EmptyString ∧
    ∃ steps, tutorials tm !! tutorial_id = Some steps ∧ current_step tm < length steps.

(** ** [start_simulation] (src/app.py): the parameter checks

    The checks the route applies to [technique], [memory_size], [page_size]
    and [algorithm] before it calls [MemoryManager(...)], on the values after
    [data.get] and [int(...)]; each failed check raises the [ValueError] the
    route answers with status 400. *)
Inductive parameter_error :=
  | InvalidTechnique        (* "Invalid technique: ..." *)
  | InvalidMemorySize       (* "Invalid memory size: ..." *)
  | InvalidPageSize         (* "Invalid page size: ..." *)
  | InvalidAlgorithm        (* "Invalid algorithm: ..." *)
  | NotMultipleOfPageSize.  (* "Memory size must be a multiple of page size" *)

Definition check_parameters (technique : string) (memory_size page_size : Z)
    (algorithm : string) : option parameter_error :=
  if decide (technique ∉ ["paging"; "segmentation"]) then Some InvalidTechnique
  else if decide (memory_size ≤ 0 ∨ memory_size > 4096)%Z then Some InvalidMemorySize
  else if decide (page_size ≤ 0 ∨ page_size > 512)%Z then Some InvalidPageSize
  else if decide (algorithm ∉ ["FIFO"; "LRU"]) then Some InvalidAlgorithm
  else if decide (memory_size `mod` page_size ≠ 0)%Z then Some NotMultipleOfPageSize
  else None.

(** The route after the checks: the engine it installs, when it installs
    one. *)
Definition start_simulation (technique : string) (memory_size page_size : Z)
    (algorithm : string) : parameter_error + result engine :=
  match check_parameters technique memory_size page_size algorithm with
  | Some err => inl err
  | None => inr (init technique memory_size page_size algorithm)
  end.

(** * Properties of the helpers *)

Section list_helpers.
Context {A : Type}.
Implicit Types (l : list A) (x : A) (i k : nat).

Lemma elem_of_enumerate_from k l i x :
  (i, x) ∈ enumerate_from k l ↔ k ≤ i ∧ l !! (i - k) = Some x.
Proof.
  revert k. induction l as [|y l IH]; intros k; simpl.
  - rewrite elem_of_nil. split; [done|]. by intros [_ ?].
  - rewrite elem_of_cons, IH. split.
    + intros [[= -> ->]|[Hk Hl]].
      * split; [lia|]. by rewrite Nat.sub_diag.
      * split; [lia|]. replace (i - k) with (S (i - S k)) by lia. done.
    + intros [Hk Hl]. destruct (decide (i = k)) as [->|Hne].
      * left. rewrite Nat.sub_diag in Hl. simpl in Hl. congruence.
      * right. split; [lia|].
        replace (i - k) with (S (i - S k)) in Hl by lia. done.
Qed.

Lemma elem_of_enumerate l i x : (i, x) ∈ enumerate l ↔ l !! i = Some x.
Proof.
  unfold enumerate. rewrite elem_of_enumerate_from, Nat.sub_0_r.
  split; [by intros [_ ?]|]. intros; split; [lia|done].
Qed.

Lemma enumerate_from_fst_lt k l :
  ∀ p, p ∈ enumerate_from (S k) l → k < p.1.
Proof. intros [i x] Hin. apply elem_of_enumerate_from in Hin as [? _]. simpl. lia. Qed.

Lemma NoDup_enumerate_from_fst k l : NoDup (enumerate_from k l).*1.
Proof.
  revert k. induction l as [|y l IH]; intros k; simpl; constructor; [|done].
  intros ([i x]&Hi&Hin)%list_elem_of_fmap. simpl in Hi. subst i.
  apply enumerate_from_fst_lt in Hin. simpl in Hin. lia.
Qed.

Lemma py_slice_to_take l (n : Z) : ∃ k, py_slice_to l n = take k l.
Proof. unfold py_slice_to. case_decide; eauto. Qed.

Lemma py_index_Some l (z : Z) x :
  py_index l z = Some x → (0 ≤ z)%Z → l !! Z.to_nat z = Some x.
Proof. unfold py_index. intros H Hz. by rewrite decide_True in H. Qed.
End list_helpers.

Lemma length_fill x fs mem : length (fill x fs mem) = length mem.
Proof.
  unfold fill. revert mem. induction fs as [|j fs IH]; intros mem; simpl; [done|].
  by rewrite IH, length_insert.
Qed.

Lemma lookup_fill_ne x fs mem i : i ∉ fs → fill x fs mem !! i = mem !! i.
Proof.
  unfold fill. revert mem. induction fs as [|j fs IH]; intros mem Hi; simpl; [done|].
  apply not_elem_of_cons in Hi as [Hne Hi].
  rewrite IH by done. by rewrite list_lookup_insert_ne.
Qed.

Lemma lookup_fill_eq x fs mem i :
  i ∈ fs → i < length mem → fill x fs mem !! i = Some x.
Proof.
  unfold fill. revert mem. induction fs as [|j fs IH]; intros mem Hi Hlen; simpl.
  - by apply elem_of_nil in Hi.
  - destruct (decide (i ∈ fs)) as [Hin|Hnin].
    + apply IH; [done|]. by rewrite length_insert.
    + apply elem_of_cons in Hi as [->|?]; [|done].
      change (fill x fs (<[j:=x]> mem) !! j = Some x).
      rewrite lookup_fill_ne by done. by apply list_lookup_insert_eq.
Qed.

Lemma lookup_fill x fs mem i fr :
  fill x fs mem !! i = Some fr → (i ∈ fs ∧ fr = x) ∨ ((i ∉ fs) ∧ mem !! i = Some fr).
Proof.
  intros H. destruct (decide (i ∈ fs)) as [Hin|Hnin].
  - left. split; [done|].
    assert (i < length mem) as Hlt.
    { rewrite <- (length_fill x fs). by eapply lookup_lt_Some. }
    rewrite lookup_fill_eq in H by done. congruence.
  - right. by rewrite lookup_fill_ne in H.
Qed.

Lemma elem_of_free_frames mem i :
  i ∈ free_frames mem ↔ ∃ fr, mem !! i = Some fr ∧ status fr = free.
Proof.
  unfold free_frames. rewrite list_elem_of_fmap. split.
  - intros ([j fr]&->&[Hs Hin%elem_of_enumerate]%list_elem_of_filter). eauto.
  - intros (fr&Hl&Hs). exists (i, fr). split; [done|].
    apply list_elem_of_filter. split; [done|]. by apply elem_of_enumerate.
Qed.

Lemma NoDup_free_frames mem : NoDup (free_frames mem).
Proof.
  unfold free_frames. eapply sublist_NoDup; [apply (NoDup_enumerate_from_fst 0 mem)|].
  apply fmap_sublist, sublist_filter.
Qed.

Lemma elem_of_allocated_frames mem i fr :
  (i, fr) ∈ allocated_frames mem ↔ mem !! i = Some fr ∧ status fr = allocated.
Proof.
  unfold allocated_frames. rewrite list_elem_of_filter, elem_of_enumerate. simpl. tauto.
Qed.

(** * Preservation of the page-table invariant *)

Lemma allocated_frame_inj pid pid' : allocated_frame pid = allocated_frame pid' → pid = pid'.
Proof. by intros [= ->]. Qed.

Lemma lookup_page_table_remove pid i pt pid' fs' :
  page_table_remove pid i pt !! pid' = Some fs' ↔
    (pid' ≠ pid ∧ pt !! pid' = Some fs') ∨
    (pid' = pid ∧ fs' ≠ [] ∧ ∃ fs, pt !! pid = Some fs ∧ fs' = filter (λ f, f ≠ i) fs).
Proof.
  unfold page_table_remove.
  destruct (pt !! pid) as [fs|] eqn:Hpid.
  - destruct (filter (λ f, f ≠ i) fs) as [|f fs1] eqn:Hf.
    + rewrite lookup_delete. case_decide as Hd; subst.
      * split; [done|]. intros [[? _]|(_&Hne&fs0&[= <-]&->)]; congruence.
      * split; [by left|]. intros [[_ ?]|[? _]]; congruence.
    + rewrite lookup_insert. case_decide as Hd; subst.
      * split.
        -- intros [= <-]. right. split; [done|]. split; [done|]. exists fs. by rewrite Hf.
        -- intros [[? _]|(_&_&fs0&[= <-]&->)]; [done|]. by rewrite Hf.
      * split; [by left|]. intros [[_ ?]|[? _]]; congruence.
  - split; [intros ?; left; split; [congruence|done]|].
    intros [[_ ?]|(_&_&fs0&?&_)]; [done|]. subst; congruence.
Qed.

Lemma table_ok_init n : table_ok (replicate n free_frame) ∅ 1.
Proof.
  constructor.
  - intros pid fs i. by rewrite lookup_empty.
  - intros i fr [-> _]%lookup_replicate. done.
  - intros pid [? H]. by rewrite lookup_empty in H.
Qed.

Lemma table_ok_next mem pt nid : table_ok mem pt nid → table_ok mem pt (nid + 1).
Proof.
  intros [Ha Hb Hc]. constructor; [done|done|].
  intros pid Hpid. apply Hc in Hpid. lia.
Qed.

(** Eviction of frame [i], owned by [pid]. *)
Lemma table_ok_evict mem pt nid pid i :
  table_ok mem pt nid →
  mem !! i = Some (allocated_frame pid) →
  table_ok (<[i := free_frame]> mem) (page_table_remove pid i pt) nid.
Proof.
  intros [Ha Hb Hc] Hi. constructor.
  - intros pid' fs' j Hpt Hj.
    apply lookup_page_table_remove in Hpt as [[Hne Hpt]|(->&_&fs&Hpt&->)].
    + assert (j ≠ i) as Hji.
      { intros ->. specialize (Ha _ _ _ Hpt Hj).
        rewrite Hi in Ha. by injection Ha. }
      rewrite list_lookup_insert_ne by done. eauto.
    + apply list_elem_of_filter in Hj as [Hji Hj].
      rewrite list_lookup_insert_ne by done. eauto.
  - intros j fr Hj Hst. destruct (decide (j = i)) as [->|Hji].
    + rewrite list_lookup_insert_eq in Hj by (by eapply lookup_lt_Some).
      injection Hj as <-. done.
    + rewrite list_lookup_insert_ne in Hj by done.
      destruct (Hb _ _ Hj Hst) as (pid'&fs&->&Hpt&Hin).
      destruct (decide (pid' = pid)) as [->|Hne].
      * exists pid, (filter (λ f, f ≠ i) fs). split; [done|].
        assert (j ∈ filter (λ f, f ≠ i) fs) as Hjf by (by apply list_elem_of_filter).
        split; [|done]. apply lookup_page_table_remove. right.
        split; [done|]. split; [|by eauto].
        intros Hnil. rewrite Hnil in Hjf. by apply elem_of_nil in Hjf.
      * exists pid', fs. split; [done|]. split; [|done].
        apply lookup_page_table_remove. by left.
  - intros pid' [fs' Hpt]. apply Hc.
    apply lookup_page_table_remove in Hpt as [[_ Hpt]|(->&_&fs&Hpt&_)]; eauto.
Qed.

(** Allocation of the free frames [fs] to the fresh owner [nid]. *)
Lemma table_ok_allocate mem pt nid fs :
  table_ok mem pt nid →
  (∀ j, j ∈ fs → j ∈ free_frames mem) →
  table_ok (fill (allocated_frame nid) fs mem) (<[nid := fs]> pt) (nid + 1).
Proof.
  intros [Ha Hb Hc] Hfree.
  assert (pt !! nid = None) as Hnid.
  { destruct (pt !! nid) eqn:E; [|done].
    assert (nid < nid) by (apply Hc; eauto). lia. }
  constructor.
  - intros pid fs0 j Hpt Hj. rewrite lookup_insert in Hpt. case_decide as Hd.
    + injection Hpt as <-. subst pid.
      pose proof (Hfree _ Hj) as (fr&Hl&_)%elem_of_free_frames.
      apply lookup_fill_eq; [done|]. by eapply lookup_lt_Some.
    + rewrite lookup_fill_ne; [by eauto|].
      intros (fr&Hl&Hst)%Hfree%elem_of_free_frames.
      rewrite (Ha _ _ _ Hpt Hj) in Hl. injection Hl as <-. done.
  - intros j fr Hj Hst. apply lookup_fill in Hj as [[Hin ->]|[Hnin Hj]].
    + exists nid, fs. by rewrite lookup_insert_eq.
    + destruct (Hb _ _ Hj Hst) as (pid&fs0&->&Hpt&Hin).
      exists pid, fs0. split; [done|]. split; [|done].
      rewrite lookup_insert_ne; [done|]. intros ->. congruence.
  - intros pid [fs0 Hpt]. rewrite lookup_insert in Hpt. case_decide; [lia|].
    assert (pid < nid) by (apply Hc; eauto). lia.
Qed.

(** Release of every frame of owner [pid]. *)
Lemma table_ok_deallocate mem pt nid pid fs :
  table_ok mem pt nid →
  pt !! pid = Some fs →
  table_ok (fill free_frame fs mem) (delete pid pt) nid.
Proof.
  intros [Ha Hb Hc] Hpid. constructor.
  - intros pid' fs' j Hpt Hj. rewrite lookup_delete in Hpt. case_decide; [done|].
    rewrite lookup_fill_ne; [by eauto|].
    intros Hjfs. pose proof (Ha _ _ _ Hpt Hj) as H1.
    rewrite (Ha _ _ _ Hpid Hjfs) in H1. injection H1 as ->. done.
  - intros j fr Hj Hst. apply lookup_fill in Hj as [[Hin ->]|[Hnin Hj]]; [done|].
    destruct (Hb _ _ Hj Hst) as (pid'&fs'&->&Hpt&Hin).
    exists pid', fs'. split; [done|]. split; [|done].
    rewrite lookup_delete_ne; [done|]. intros ->.
    rewrite Hpid in Hpt. injection Hpt as <-. done.
  - intros pid' [fs' Hpt]. rewrite lookup_delete in Hpt. case_decide; [done|]. eauto.
Qed.

(** * Preservation of the replacement-metadata invariants *)

Lemma keeps_allocated_fill mem pid fs :
  (∀ j, j ∈ fs → j ∈ free_frames mem) →
  keeps_allocated mem (fill (allocated_frame pid) fs mem).
Proof.
  intros Hfree i pid' Hi. rewrite lookup_fill_ne; [done|].
  intros (fr&Hl&Hst)%Hfree%elem_of_free_frames.
  rewrite Hi in Hl. injection Hl as <-. done.
Qed.

Lemma queue_ok_nil mem : queue_ok mem [].
Proof. constructor; [by intros ?? ?%elem_of_nil|constructor]. Qed.

Lemma times_ok_nil mem : times_ok mem [].
Proof. constructor; [by intros ? ?%elem_of_nil|constructor]. Qed.

Lemma queue_ok_keep mem mem' q :
  queue_ok mem q → keeps_allocated mem mem' → queue_ok mem' q.
Proof. intros [Hf Hn] Hk. constructor; [|done]. intros pid i Hin. eauto. Qed.

Lemma times_ok_keep mem mem' d :
  times_ok mem d → keeps_allocated mem mem' → times_ok mem' d.
Proof.
  intros [Hf Hn] Hk. constructor; [|done].
  intros k Hin. destruct (Hf k Hin) as (pid&?&?). eauto.
Qed.

Lemma queue_ok_free mem q q' fs :
  queue_ok mem q →
  q' `sublist_of` q →
  (∀ pid j, (pid, j) ∈ q' → j ∉ fs) →
  queue_ok (fill free_frame fs mem) q'.
Proof.
  intros [Hf Hn] Hsub Hfs. constructor; [|by eapply sublist_NoDup].
  intros pid i Hin. rewrite lookup_fill_ne by eauto.
  apply Hf. by eapply elem_of_sublist.
Qed.

Lemma times_ok_free mem d d' fs :
  times_ok mem d →
  d' `sublist_of` d →
  (∀ k, k ∈ d'.*1 → k.2 ∉ fs) →
  times_ok (fill free_frame fs mem) d'.
Proof.
  intros [Hf Hn] Hsub Hfs.
  assert (d'.*1 `sublist_of` d.*1) as Hsub1 by (by apply fmap_sublist).
  constructor; [|by eapply sublist_NoDup].
  intros k Hin. destruct (Hf k) as (pid&Hk&Hl); [by eapply elem_of_sublist|].
  exists pid. split; [done|]. rewrite lookup_fill_ne by eauto. done.
Qed.

Lemma queue_ok_allocate mem pt nid q fs :
  table_ok mem pt nid →
  queue_ok mem q →
  NoDup fs →
  (∀ j, j ∈ fs → j ∈ free_frames mem) →
  queue_ok (fill (allocated_frame nid) fs mem) (q ++ ((λ j, (nid, j)) <$> fs)).
Proof.
  intros Ht [Hf Hn] Hnd Hfree. constructor.
  - intros pid i [Hin|Hin]%elem_of_app.
    + by apply (keeps_allocated_fill mem nid fs Hfree), Hf.
    + apply list_elem_of_fmap in Hin as (j&[= -> ->]&Hj).
      pose proof (Hfree _ Hj) as (fr&Hl&_)%elem_of_free_frames.
      apply lookup_fill_eq; [done|]. by eapply lookup_lt_Some.
  - apply list.NoDup_app. split; [done|]. split.
    + intros [pid i] Hin (j&[= -> ->]&Hj)%list_elem_of_fmap.
      apply Hf in Hin.
      destruct (frames_table _ _ _ Ht j _ Hin eq_refl) as (pid&fs0&Heq&Hpt&_).
      apply allocated_frame_inj in Heq as <-.
      assert (nid < nid) by (eapply table_fresh; eauto). lia.
    + apply NoDup_fmap_2; [|done]. by intros ?? [= ->].
Qed.

Section dict_lemmas.
Context {K : Type} `{EqDecision K}.
Implicit Types (k : K) (d : list (K * nat)).

Lemma dict_set_keys k v d :
  (dict_set k v d).*1 = if decide (k ∈ d.*1) then d.*1 else d.*1 ++ [k].
Proof.
  induction d as [|kv d IH].
  - simpl. destruct (decide (k ∈ [])) as [Hin|_]; [|done].
    by apply elem_of_nil in Hin.
  - cbn [dict_set]. destruct (decide (kv.1 = k)) as [<-|Hne].
    + rewrite decide_True; [done|]. rewrite fmap_cons. apply elem_of_cons. by left.
    + rewrite !fmap_cons, IH. destruct (decide (k ∈ d.*1)) as [Hin|Hnin].
      * rewrite decide_True; [done|]. apply elem_of_cons. by right.
      * rewrite decide_False; [done|].
        intros [?|?]%elem_of_cons; congruence.
Qed.

Lemma elem_of_dict_set_keys k v d k' :
  k' ∈ (dict_set k v d).*1 ↔ k' = k ∨ k' ∈ d.*1.
Proof.
  rewrite dict_set_keys. case_decide as Hin.
  - split; [by right|]. by intros [->|?].
  - rewrite elem_of_app, list_elem_of_singleton. tauto.
Qed.

Lemma NoDup_dict_set_keys k v d : NoDup d.*1 → NoDup (dict_set k v d).*1.
Proof.
  intros Hn. rewrite dict_set_keys. case_decide as Hin; [done|].
  apply list.NoDup_app. split; [done|]. split; [|apply NoDup_singleton].
  intros k' Hk' ->%list_elem_of_singleton. done.
Qed.

Lemma dict_del_sublist k d : dict_del k d `sublist_of` d.
Proof. apply sublist_filter. Qed.

Lemma not_elem_of_dict_del_keys k d : k ∉ (dict_del k d).*1.
Proof.
  intros ([k' v]&->&[Hne _]%list_elem_of_filter)%list_elem_of_fmap. done.
Qed.

Lemma min_by_value_elem_of kv d : min_by_value kv d ∈ kv :: d.
Proof.
  revert kv. induction d as [|kv' d IH]; intros kv; simpl.
  - apply elem_of_cons. by left.
  - specialize (IH (if decide (kv'.2 < kv.2) then kv' else kv)).
    apply elem_of_cons in IH as [->|Hin].
    + case_decide; [right; left|left]; done.
    + do 2 right. done.
Qed.
End dict_lemmas.

Lemma times_ok_set mem d pid i t :
  times_ok mem d →
  mem !! i = Some (allocated_frame pid) →
  times_ok mem (dict_set (Some pid, i) t d).
Proof.
  intros [Hf Hn] Hi. constructor; [|by apply NoDup_dict_set_keys].
  intros k [->|Hin]%elem_of_dict_set_keys; [|by eauto].
  exists pid. done.
Qed.

Lemma times_ok_set_many mem d pid fs t :
  times_ok mem d →
  (∀ j, j ∈ fs → mem !! j = Some (allocated_frame pid)) →
  times_ok mem (foldl (λ d j, dict_set (Some pid, j) t d) d fs).
Proof.
  revert d. induction fs as [|j fs IH]; intros d Hd Hfs; simpl; [done|].
  apply IH.
  - apply times_ok_set; [done|]. apply Hfs, elem_of_cons. by left.
  - intros j' Hj'. apply Hfs, elem_of_cons. by right.
Qed.

Lemma times_ok_allocate mem d nid fs t :
  times_ok mem d →
  (∀ j, j ∈ fs → j ∈ free_frames mem) →
  times_ok (fill (allocated_frame nid) fs mem)
    (foldl (λ d j, dict_set (Some nid, j) t d) d fs).
Proof.
  intros Hd Hfree. apply times_ok_set_many.
  - eapply times_ok_keep; [done|]. by apply keeps_allocated_fill.
  - intros j Hj. pose proof (Hfree _ Hj) as (fr&Hl&_)%elem_of_free_frames.
    apply lookup_fill_eq; [done|]. by eapply lookup_lt_Some.
Qed.

(** * The engine keeps its invariant *)

Lemma init_inv technique memory_size page_size algorithm e :
  init technique memory_size page_size algorithm = Ok e → engine_inv e.
Proof.
  unfold init. case_decide; [done|]. intros [= <-].
  constructor; simpl; auto using table_ok_init, queue_ok_nil, times_ok_nil.
Qed.

Lemma first_allocated_Some mem i o :
  first_allocated mem = Some (i, o) →
  ∃ fr, mem !! i = Some fr ∧ status fr = allocated ∧ frame_id fr = o.
Proof.
  unfold first_allocated.
  destruct (allocated_frames mem) as [|[j f] l] eqn:Hal; [done|].
  intros [= -> <-]. exists f.
  assert ((i, f) ∈ allocated_frames mem) as Hin by (rewrite Hal; left).
  apply elem_of_allocated_frames in Hin as [? ?]. done.
Qed.

(** The eviction proper, for a victim that is allocated and that the
    replacement metadata no longer mentions. *)
Lemma evict_inv e pid i :
  engine_inv e →
  memory e !! i = Some (allocated_frame pid) →
  (∀ p j, (p, j) ∈ page_queue e → j ≠ i) →
  (∀ k, k ∈ (page_access_time e).*1 → k.2 ≠ i) →
  engine_inv (evict e (Some pid) i).
Proof.
  intros [Ht Hq Hd Hqa Hda] Hi Hnq Hnd. unfold evict.
  rewrite decide_False by (apply lookup_lt_Some in Hi; lia).
  constructor; simpl; [by apply table_ok_evict| | |done|done].
  - apply (queue_ok_free _ _ _ [i] Hq); [done|].
    intros p j Hin ->%list_elem_of_singleton. by eapply Hnq.
  - apply (times_ok_free _ _ _ [i] Hd); [done|].
    intros k Hin Hk%list_elem_of_singleton. by eapply Hnd.
Qed.

(** The fallback victim, taken when no metadata is left. *)
Lemma evict_first_allocated_inv e i o :
  engine_inv e →
  page_queue e = [] →
  page_access_time e = [] →
  first_allocated (memory e) = Some (i, o) →
  engine_inv (evict e o i).
Proof.
  intros He Hq Hd (fr&Hi&Hst&<-)%first_allocated_Some.
  destruct (frames_table _ _ _ (inv_table _ He) _ _ Hi Hst) as (pid&fs&->&_&_).
  apply evict_inv; [done|done| |].
  - rewrite Hq. by intros ?? ?%elem_of_nil.
  - rewrite Hd. by intros ? ?%elem_of_nil.
Qed.

Lemma replace_one_inv e : engine_inv e → engine_inv (replace_one e).1.
Proof.
  intros He. pose proof He as [Ht Hq Hd Hqa Hda].
  unfold replace_one, select_victim.
  destruct (decide (algorithm e = "FIFO")) as [Hfifo|Hnfifo].
  - assert (page_access_time e = []) as Hd0 by (apply Hda; by rewrite Hfifo).
    destruct (page_queue e) as [|[pid i] q] eqn:Hqe.
    + destruct (first_allocated (memory e)) as [[i o]|] eqn:Hfa; [|done].
      by eapply evict_first_allocated_inv.
    + cbn [fst]. apply evict_inv; simpl.
      * constructor; simpl; [done| |done|by rewrite Hfifo|done].
        destruct Hq as [Hqf Hqn]. apply list.NoDup_cons in Hqn as [_ Hqn].
        constructor; [|done]. intros p j Hin. apply Hqf. by right.
      * apply (queue_frames _ _ Hq). by left.
      * intros p j Hin ->. destruct Hq as [Hqf Hqn].
        assert (memory e !! i = Some (allocated_frame p)) as H1 by (apply Hqf; by right).
        rewrite (Hqf pid i) in H1 by (by left). injection H1 as <-.
        apply list.NoDup_cons in Hqn as [Hnin _]. done.
      * rewrite Hd0. by intros ? ?%elem_of_nil.
  - pose proof (Hqa Hnfifo) as Hq0.
    destruct (decide (algorithm e = "LRU")) as [Hlru|Hnlru].
    + destruct (page_access_time e) as [|kv d] eqn:Hde.
      * destruct (first_allocated (memory e)) as [[i o]|] eqn:Hfa; [|done].
        by eapply evict_first_allocated_inv.
      * cbn [fst]. set (key := (min_by_value kv d).1).
        assert (key ∈ (kv :: d).*1) as Hkey.
        { apply list_elem_of_fmap. exists (min_by_value kv d).
          split; [done|]. apply min_by_value_elem_of. }
        destruct (times_frames _ _ Hd key Hkey) as (pid&Hk1&Hk2).
        rewrite Hk1. apply evict_inv; simpl.
        -- constructor; simpl; [done|done| |done|done].
           destruct Hd as [Hdf Hdn]. constructor.
           ++ intros k Hin. apply Hdf.
              eapply elem_of_sublist; [done|]. apply fmap_sublist, dict_del_sublist.
           ++ eapply sublist_NoDup; [done|]. apply fmap_sublist, dict_del_sublist.
        -- done.
        -- rewrite Hq0. by intros ?? ?%elem_of_nil.
        -- intros k Hin Hk.
           assert (k ∈ (kv :: d).*1) as Hin'.
           { eapply elem_of_sublist; [done|]. apply fmap_sublist, dict_del_sublist. }
           destruct (times_frames _ _ Hd k Hin') as (pid'&Hk1'&Hk2').
           rewrite Hk in Hk2'. rewrite Hk2 in Hk2'. injection Hk2' as <-.
           assert (k = key) as ->.
           { destruct k, key; simpl in *; congruence. }
           by apply not_elem_of_dict_del_keys in Hin.
    + pose proof (Hda Hnlru) as Hd0.
      destruct (first_allocated (memory e)) as [[i o]|] eqn:Hfa; [|done].
      by eapply evict_first_allocated_inv.
Qed.

Lemma replace_loop_inv n e : engine_inv e → engine_inv (replace_loop n e).
Proof.
  revert e. induction n as [|n IH]; intros e He; simpl; [done|].
  pose proof (replace_one_inv e He) as H1.
  destruct (replace_one e) as [e' []]; simpl in H1; auto.
Qed.

Lemma _replace_pages_inv e num_pages : engine_inv e → engine_inv (_replace_pages e num_pages).
Proof. intros He. unfold _replace_pages. case_decide; [done|]. by apply replace_loop_inv. Qed.

(** ** Allocation *)

Section allocate_loop.
Variables (pid : nat) (frames : list nat).

Local Ltac fold_proj :=
  let e := fresh "e" in let IH := fresh "IH" in
  intros e; match goal with |- context [foldl _ _ ?fs] => revert e; induction fs as [|? ? IH] end;
  intros e; [done|]; cbn [foldl]; rewrite IH; unfold allocate_frame; simpl;
  repeat case_decide; simpl; try done.

Lemma allocate_fold_algorithm fs :
  ∀ e, algorithm (foldl (allocate_frame pid frames) e fs) = algorithm e.
Proof. fold_proj. Qed.

Lemma allocate_fold_next_id fs :
  ∀ e, next_id (foldl (allocate_frame pid frames) e fs) = next_id e.
Proof. fold_proj. Qed.

Lemma allocate_fold_memory_accesses fs :
  ∀ e, memory_accesses (foldl (allocate_frame pid frames) e fs) = memory_accesses e.
Proof. fold_proj. Qed.

Lemma allocate_fold_memory fs :
  ∀ e, memory (foldl (allocate_frame pid frames) e fs)
       = fill (allocated_frame pid) fs (memory e).
Proof. fold_proj. Qed.

Lemma allocate_fold_page_table fs :
  ∀ e, page_table (foldl (allocate_frame pid frames) e fs)
       = match fs with [] => page_table e | _ => <[pid := frames]> (page_table e) end.
Proof.
  intros e. revert e. induction fs as [|j fs IH]; intros e; [done|].
  cbn [foldl]. rewrite IH.
  assert (page_table (allocate_frame pid frames e j) = <[pid := frames]> (page_table e)) as ->.
  { unfold allocate_frame; simpl; repeat case_decide; done. }
  destruct fs; [done|]. apply insert_insert_eq.
Qed.

Lemma allocate_fold_page_queue fs :
  ∀ e, page_queue (foldl (allocate_frame pid frames) e fs)
       = if decide (algorithm e = "FIFO")
         then page_queue e ++ ((λ j, (pid, j)) <$> fs)
         else page_queue e.
Proof.
  intros e. revert e. induction fs as [|j fs IH]; intros e.
  - simpl. case_decide; [|done]. by rewrite app_nil_r.
  - cbn [foldl]. rewrite IH. unfold allocate_frame; simpl.
    repeat case_decide; simpl in *; try done.
    by rewrite <- app_assoc.
Qed.

Lemma allocate_fold_page_access_time fs :
  ∀ e, page_access_time (foldl (allocate_frame pid frames) e fs)
       = if decide (algorithm e = "FIFO") then page_access_time e
         else if decide (algorithm e = "LRU")
         then foldl (λ d j, dict_set (Some pid, j) (memory_accesses e) d)
                (page_access_time e) fs
         else page_access_time e.
Proof.
  intros e. revert e. induction fs as [|j fs IH]; intros e.
  - simpl. repeat case_decide; done.
  - cbn [foldl]. rewrite IH. unfold allocate_frame; simpl.
    repeat case_decide; simpl in *; done.
Qed.
End allocate_loop.

Lemma allocate_pages_inv e size n : engine_inv e → engine_inv (allocate_pages e size n).1.
Proof.
  intros He. unfold allocate_pages. case_decide; [done|].
  set (e1 := if decide (Z.of_nat (length (free_frames (memory e))) < n)%Z
             then _replace_pages e (n - Z.of_nat (length (free_frames (memory e))))
             else e).
  assert (engine_inv e1) as [Ht Hq Hd Hqa Hda].
  { subst e1. case_decide; [|done]. by apply _replace_pages_inv. }
  set (fs := py_slice_to (free_frames (memory e1)) n).
  assert (∀ j, j ∈ fs → j ∈ free_frames (memory e1)) as Hfree.
  { subst fs. destruct (py_slice_to_take (free_frames (memory e1)) n) as [k ->].
    intros j Hj. eapply elem_of_sublist; [done|]. apply sublist_take. }
  assert (NoDup fs) as Hnd.
  { subst fs. destruct (py_slice_to_take (free_frames (memory e1)) n) as [k ->].
    eapply sublist_NoDup; [apply NoDup_free_frames|apply sublist_take]. }
  set (e2 := foldl _ _ fs).
  assert (engine_inv e2) as [Ht2 Hq2 Hd2 Hqa2 Hda2].
  { subst e2. constructor.
    - rewrite allocate_fold_memory, allocate_fold_page_table, allocate_fold_next_id. simpl.
      destruct fs as [|j fs'] eqn:Hfs; [by apply table_ok_next|].
      rewrite <- Hfs in *. by apply table_ok_allocate.
    - rewrite allocate_fold_memory, allocate_fold_page_queue. simpl. case_decide.
      + by eapply queue_ok_allocate.
      + eapply queue_ok_keep; [done|]. by apply keeps_allocated_fill.
    - rewrite allocate_fold_memory, allocate_fold_page_access_time. simpl.
      repeat case_decide.
      + eapply times_ok_keep; [done|]. by apply keeps_allocated_fill.
      + by apply times_ok_allocate.
      + eapply times_ok_keep; [done|]. by apply keeps_allocated_fill.
    - rewrite allocate_fold_algorithm, allocate_fold_page_queue. simpl.
      intros Hne. rewrite decide_False by done. auto.
    - rewrite allocate_fold_algorithm, allocate_fold_page_access_time. simpl.
      intros Hne. repeat case_decide; auto. done. }
  assert (engine_inv (set_operations
            (operations e2 ++ [OpAllocate (next_id e1) size fs]) e2)) as He3.
  { by constructor. }
  by destruct fs.
Qed.

Lemma allocate_memory_inv e size : engine_inv e → engine_inv (allocate_memory e size).1.
Proof. intros He. unfold allocate_memory. case_decide; [done|]. by apply allocate_pages_inv. Qed.

(** ** Deallocation *)

Section free_loop.
Variable (pid : nat).

Lemma free_process_frame_memory e j :
  memory (free_process_frame pid e j) = <[j := free_frame]> (memory e).
Proof.
  unfold free_process_frame. case_decide.
  - repeat case_decide; done.
  - rewrite list_insert_ge; [done|lia].
Qed.

Lemma free_process_frame_page_queue e j :
  page_queue (free_process_frame pid e j)
  = if decide (j < length (memory e) ∧ algorithm e = "FIFO")
    then filter (λ p, p.1 ≠ pid) (page_queue e) else page_queue e.
Proof.
  unfold free_process_frame.
  destruct (decide (j < length (memory e))) as [Hlt|Hge];
    destruct (decide (algorithm e = "FIFO")) as [Hf|Hnf]; simpl;
    repeat case_decide; simpl; try done; try tauto.
Qed.

Lemma free_process_frame_page_access_time e j :
  page_access_time (free_process_frame pid e j)
  = if decide (j < length (memory e) ∧ algorithm e = "LRU")
    then filter (λ kv, kv.1.1 ≠ Some pid) (page_access_time e) else page_access_time e.
Proof.
  unfold free_process_frame.
  destruct (decide (j < length (memory e))) as [Hlt|Hge];
    destruct (decide (algorithm e = "FIFO")) as [Hf|Hnf]; simpl;
    repeat case_decide; simpl; try done; try tauto.
  destruct_and!. congruence.
Qed.

Lemma free_process_frame_other e j :
  technique (free_process_frame pid e j) = technique e ∧
  memory_size (free_process_frame pid e j) = memory_size e ∧
  page_size (free_process_frame pid e j) = page_size e ∧
  algorithm (free_process_frame pid e j) = algorithm e ∧
  total_frames (free_process_frame pid e j) = total_frames e ∧
  page_table (free_process_frame pid e j) = page_table e ∧
  page_faults (free_process_frame pid e j) = page_faults e ∧
  memory_accesses (free_process_frame pid e j) = memory_accesses e ∧
  page_hits (free_process_frame pid e j) = page_hits e ∧
  operations (free_process_frame pid e j) = operations e ∧
  next_id (free_process_frame pid e j) = next_id e.
Proof. unfold free_process_frame. repeat case_decide; done. Qed.

Lemma free_fold_other fs : ∀ e,
  technique (foldl (free_process_frame pid) e fs) = technique e ∧
  memory_size (foldl (free_process_frame pid) e fs) = memory_size e ∧
  page_size (foldl (free_process_frame pid) e fs) = page_size e ∧
  algorithm (foldl (free_process_frame pid) e fs) = algorithm e ∧
  total_frames (foldl (free_process_frame pid) e fs) = total_frames e ∧
  page_table (foldl (free_process_frame pid) e fs) = page_table e ∧
  page_faults (foldl (free_process_frame pid) e fs) = page_faults e ∧
  memory_accesses (foldl (free_process_frame pid) e fs) = memory_accesses e ∧
  page_hits (foldl (free_process_frame pid) e fs) = page_hits e ∧
  operations (foldl (free_process_frame pid) e fs) = operations e ∧
  next_id (foldl (free_process_frame pid) e fs) = next_id e.
Proof.
  induction fs as [|j fs IH]; intros e; [done|]. cbn [foldl].
  destruct (IH (free_process_frame pid e j)) as (->&->&->&->&->&->&->&->&->&->&->).
  apply free_process_frame_other.
Qed.

Lemma free_fold_memory fs :
  ∀ e, memory (foldl (free_process_frame pid) e fs) = fill free_frame fs (memory e).
Proof.
  induction fs as [|j fs IH]; intros e; [done|]. cbn [foldl].
  by rewrite IH, free_process_frame_memory.
Qed.

Lemma free_fold_page_queue_sublist fs :
  ∀ e, page_queue (foldl (free_process_frame pid) e fs) `sublist_of` page_queue e.
Proof.
  induction fs as [|j fs IH]; intros e; [done|]. cbn [foldl].
  etrans; [apply IH|]. rewrite free_process_frame_page_queue.
  case_decide; [apply sublist_filter|done].
Qed.

Lemma free_fold_page_access_time_sublist fs :
  ∀ e, page_access_time (foldl (free_process_frame pid) e fs)
       `sublist_of` page_access_time e.
Proof.
  induction fs as [|j fs IH]; intros e; [done|]. cbn [foldl].
  etrans; [apply IH|]. rewrite free_process_frame_page_access_time.
  case_decide; [apply sublist_filter|done].
Qed.

(** Once one frame in range has been freed, the owner is gone from the
    FIFO queue. *)
Lemma free_fold_page_queue_gone fs : ∀ e j i,
  algorithm e = "FIFO" → j ∈ fs → j < length (memory e) →
  (pid, i) ∉ page_queue (foldl (free_process_frame pid) e fs).
Proof.
  induction fs as [|j' fs IH]; intros e j i Halg Hj Hlt; [by apply elem_of_nil in Hj|].
  cbn [foldl]. destruct (decide (j' < length (memory e))) as [Hlt'|Hge].
  - intros Hin.
    eapply elem_of_sublist in Hin; [|apply free_fold_page_queue_sublist].
    rewrite free_process_frame_page_queue, decide_True in Hin by done.
    apply list_elem_of_filter in Hin as [Hne _]. done.
  - apply elem_of_cons in Hj as [->|Hj]; [done|].
    apply (IH _ j); [|done|].
    + by rewrite (proj1 (proj2 (proj2 (proj2 (free_process_frame_other e j'))))).
    + by rewrite free_process_frame_memory, length_insert.
Qed.

Lemma free_fold_page_access_time_gone fs : ∀ e j i,
  algorithm e = "LRU" → j ∈ fs → j < length (memory e) →
  (Some pid, i) ∉ (page_access_time (foldl (free_process_frame pid) e fs)).*1.
Proof.
  induction fs as [|j' fs IH]; intros e j i Halg Hj Hlt; [by apply elem_of_nil in Hj|].
  cbn [foldl]. destruct (decide (j' < length (memory e))) as [Hlt'|Hge].
  - intros Hin.
    eapply elem_of_sublist in Hin;
      [|apply fmap_sublist, free_fold_page_access_time_sublist].
    rewrite free_process_frame_page_access_time, decide_True in Hin by done.
    apply list_elem_of_fmap in Hin as ([k v]&Hk&[Hne _]%list_elem_of_filter).
    simpl in *. subst k. done.
  - apply elem_of_cons in Hj as [->|Hj]; [done|].
    apply (IH _ j); [|done|].
    + by rewrite (proj1 (proj2 (proj2 (proj2 (free_process_frame_other e j'))))).
    + by rewrite free_process_frame_memory, length_insert.
Qed.
End free_loop.

(** What [deallocate_memory] does once it has resolved an allocated frame of
    an engine that satisfies the invariant. *)
Lemma deallocate_frame_spec e i pid :
  engine_inv e →
  memory e !! i = Some (allocated_frame pid) →
  ∃ fs e',
    page_table e !! pid = Some fs ∧ i ∈ fs ∧
    deallocate_frame e i (allocated_frame pid) = (e', Ok ()) ∧
    memory e' = fill free_frame fs (memory e) ∧
    page_table e' = delete pid (page_table e) ∧
    page_queue e' `sublist_of` page_queue e ∧
    (∀ j, (pid, j) ∉ page_queue e') ∧
    page_access_time e' `sublist_of` page_access_time e ∧
    (∀ j, (Some pid, j) ∉ (page_access_time e').*1) ∧
    operations e' = operations e ++ [OpDeallocate pid (Z.of_nat i * page_size e) fs] ∧
    algorithm e' = algorithm e ∧
    next_id e' = next_id e.
Proof.
  intros [Ht Hq Hd Hqa Hda] Hi.
  destruct (frames_table _ _ _ Ht _ _ Hi eq_refl) as (pid'&fs&Heq&Hpt&Hin).
  apply allocated_frame_inj in Heq as <-.
  assert (i < length (memory e)) as Hlt by (by eapply lookup_lt_Some).
  exists fs. eexists. split; [done|]. split; [done|].
  unfold deallocate_frame. cbn [frame_id allocated_frame]. rewrite Hpt.
  cbn [default]. unfold id.
  assert (match fs with [] => [i] | y :: l => y :: l end = fs) as ->.
  { destruct fs; [by apply elem_of_nil in Hin|done]. }
  split; [reflexivity|]. simpl.
  destruct (free_fold_other pid fs e) as (_&_&Hps&Halg&_&Hpt'&_&_&_&Hops&Hnid).
  rewrite free_fold_memory, Hpt', Hops, Hps, Halg, Hnid.
  repeat split; try done.
  - apply free_fold_page_queue_sublist.
  - intros j. destruct (decide (algorithm e = "FIFO")) as [Hf|Hnf].
    + by eapply free_fold_page_queue_gone.
    + intros Hj. eapply elem_of_sublist in Hj; [|apply free_fold_page_queue_sublist].
      rewrite Hqa in Hj by done. by apply elem_of_nil in Hj.
  - apply free_fold_page_access_time_sublist.
  - intros j. destruct (decide (algorithm e = "LRU")) as [Hf|Hnf].
    + by eapply free_fold_page_access_time_gone.
    + intros Hj.
      eapply elem_of_sublist in Hj;
        [|apply fmap_sublist, free_fold_page_access_time_sublist].
      rewrite Hda in Hj by done. by apply elem_of_nil in Hj.
Qed.

Lemma deallocate_frame_inv e i fr :
  engine_inv e →
  memory e !! i = Some fr →
  status fr = allocated →
  engine_inv (deallocate_frame e i fr).1.
Proof.
  intros He Hi Hst. pose proof He as [Ht Hq Hd Hqa Hda].
  destruct (frames_table _ _ _ Ht _ _ Hi Hst) as (pid&fs0&->&_&_).
  destruct (deallocate_frame_spec e i pid He Hi)
    as (fs&e'&Hpt&Hin&->&Hmem&Hpt'&Hqs&Hqg&Hds&Hdg&_&Halg&Hnid).
  cbn [fst]. constructor.
  - rewrite Hmem, Hpt', Hnid. by eapply table_ok_deallocate.
  - rewrite Hmem. eapply queue_ok_free; [done|done|].
    intros p j Hj Hjfs.
    assert (memory e !! j = Some (allocated_frame p)) as H1.
    { apply (queue_frames _ _ Hq). by eapply elem_of_sublist. }
    rewrite (table_frames _ _ _ Ht _ _ _ Hpt Hjfs) in H1. injection H1 as <-.
    by apply Hqg in Hj.
  - rewrite Hmem. eapply times_ok_free; [done|done|].
    intros k Hk Hjfs.
    destruct (times_frames _ _ Hd k) as (p&Hk1&Hk2).
    { eapply elem_of_sublist; [done|]. by apply fmap_sublist. }
    rewrite (table_frames _ _ _ Ht _ _ _ Hpt Hjfs) in Hk2. injection Hk2 as <-.
    destruct k as [o j]. simpl in *. subst o. by apply Hdg in Hk.
  - rewrite Halg. intros Hne. apply sublist_nil_r. by rewrite <- (Hqa Hne).
  - rewrite Halg. intros Hne. apply sublist_nil_r. by rewrite <- (Hda Hne).
Qed.

Lemma deallocate_memory_inv e address :
  engine_inv e → engine_inv (deallocate_memory e address).1.
Proof.
  intros He. unfold deallocate_memory.
  case_decide; [done|]. case_decide; [done|].
  destruct (memory e !! _) as [fr|] eqn:Hfr; [|done].
  case_decide as Hst.
  - destruct (allocated_frames (memory e)) as [|[i f] l] eqn:Hal; [done|].
    assert ((i, f) ∈ allocated_frames (memory e)) as Hin by (rewrite Hal; left).
    apply elem_of_allocated_frames in Hin as [? ?].
    by apply deallocate_frame_inv.
  - apply deallocate_frame_inv; [done|done|].
    destruct (status fr); [|done]. by destruct Hst.
Qed.

(** ** Access *)

Lemma _handle_page_fault_inv e i : engine_inv e → engine_inv (_handle_page_fault e i).
Proof.
  intros He. pose proof He as [Ht Hq Hd Hqa Hda]. unfold _handle_page_fault.
  destruct (memory e !! i) as [fr|] eqn:Hi; [|done].
  destruct (status fr) eqn:Hst; [|done].
  assert (page_table e !! next_id e = None) as Hfresh.
  { destruct (page_table e !! next_id e) eqn:E; [|done].
    assert (next_id e < next_id e) by (eapply table_fresh; eauto). lia. }
  assert (∀ j, j ∈ [i] → j ∈ free_frames (memory e)) as Hfree.
  { intros j ->%list_elem_of_singleton. apply elem_of_free_frames. eauto. }
  cbn zeta. cbn [page_table set_next_id set_memory]. rewrite Hfresh.
  repeat case_decide; constructor; simpl;
    try (apply (table_ok_allocate _ _ _ [i] Ht Hfree));
    try (apply (queue_ok_allocate _ _ _ _ [i] Ht Hq); [apply NoDup_singleton|done]);
    try (eapply queue_ok_keep; [done|]; by apply (keeps_allocated_fill _ _ [i]));
    try (apply (times_ok_allocate _ _ _ [i] _ Hd Hfree));
    try (eapply times_ok_keep; [done|]; by apply (keeps_allocated_fill _ _ [i]));
    try done; try congruence; auto.
Qed.

Lemma access_frame_num_lookup e address fr :
  py_index (memory e) (access_frame_num e address) = Some fr →
  (0 ≤ access_frame_num e address < Z.of_nat (length (memory e)))%Z ∧
  memory e !! Z.to_nat (access_frame_num e address) = Some fr.
Proof.
  unfold py_index. intros H.
  assert (0 ≤ access_frame_num e address)%Z as Hnn.
  { destruct (decide (0 ≤ access_frame_num e address)%Z) as [|Hneg]; [done|].
    case_decide as Hlen; [|done].
    apply lookup_lt_Some in H.
    unfold access_frame_num in *. case_decide; lia. }
  rewrite decide_True in H by done. split; [|done].
  apply lookup_lt_Some in H. lia.
Qed.

Lemma access_frame_num_in_range e address :
  memory e ≠ [] →
  (0 ≤ access_frame_num e address < Z.of_nat (length (memory e)))%Z.
Proof.
  intros Hne. assert (0 < length (memory e)) by (destruct (memory e); [done|simpl; lia]).
  unfold access_frame_num. case_decide; lia.
Qed.

Lemma py_index_access_frame_num e address :
  memory e ≠ [] →
  py_index (memory e) (access_frame_num e address)
  = memory e !! Z.to_nat (access_frame_num e address) ∧
  is_Some (memory e !! Z.to_nat (access_frame_num e address)).
Proof.
  intros Hne. pose proof (access_frame_num_in_range e address Hne) as Hr.
  unfold py_index. rewrite decide_True by lia. split; [done|].
  apply lookup_lt_is_Some. lia.
Qed.

Lemma access_memory_inv e address : engine_inv e → engine_inv (access_memory e address).1.
Proof.
  intros He. unfold access_memory, access_frame. case_decide; [done|].
  cbn zeta. cbn [memory set_memory_accesses].
  destruct (py_index _ _) as [fr|] eqn:Hfr.
  - apply access_frame_num_lookup in Hfr as [_ Hfr].
    case_decide as Hst; cbn [fst].
    + assert (engine_inv (_handle_page_fault
                (set_page_faults
                   (page_faults (set_memory_accesses (memory_accesses e + 1) e) + 1)
                   (set_memory_accesses (memory_accesses e + 1) e))
                (Z.to_nat (access_frame_num e address)))) as [? ? ? ? ?].
      { apply _handle_page_fault_inv. by destruct He. }
      by constructor.
    + assert (status fr = allocated) as Hal.
      { destruct (status fr); [|done]. by destruct Hst. }
      destruct He as [Ht Hq Hd Hqa Hda].
      destruct (frames_table _ _ _ Ht _ _ Hfr Hal) as (pid&fs&->&_&_).
      simpl. case_decide; constructor; simpl; try done.
      by apply times_ok_set.
  - destruct He. by constructor.
Qed.

Lemma step_inv e o : engine_inv e → engine_inv (step e o).
Proof.
  destruct o; simpl;
    auto using allocate_memory_inv, deallocate_memory_inv, access_memory_inv.
Qed.

Lemma run_inv e ops : engine_inv e → engine_inv (run e ops).
Proof.
  unfold run. revert e. induction ops as [|o ops IH]; intros e He; simpl; [done|].
  by apply IH, step_inv.
Qed.

(** * The shape of the engine never changes *)

Lemma same_shape_refl e : same_shape e e.
Proof. by constructor. Qed.

Lemma same_shape_trans e1 e2 e3 : same_shape e1 e2 → same_shape e2 e3 → same_shape e1 e3.
Proof. intros [] []. constructor; congruence. Qed.

Lemma foldl_same_shape {A} (f : engine → A → engine) :
  (∀ e x, same_shape e (f e x)) → ∀ l e, same_shape e (foldl f e l).
Proof.
  intros Hf l. induction l as [|x l IH]; intros e; simpl; [apply same_shape_refl|].
  eapply same_shape_trans; [apply Hf|apply IH].
Qed.

Local Ltac shape := constructor; simpl; rewrite ?length_insert; done.

Lemma evict_same_shape e o i : same_shape e (evict e o i).
Proof. unfold evict. destruct o; [|shape]. case_decide; shape. Qed.

Lemma select_victim_same_shape e e' o i :
  select_victim e = Some (e', o, i) → same_shape e e'.
Proof.
  unfold select_victim. intros H. repeat case_decide.
  - destruct (page_queue e) as [|[pid j] q].
    + destruct (first_allocated (memory e)) as [[j o']|]; [|done].
      injection H as <- _ _. apply same_shape_refl.
    + injection H as <- _ _. shape.
  - destruct (page_access_time e) as [|kv d].
    + destruct (first_allocated (memory e)) as [[j o']|]; [|done].
      injection H as <- _ _. apply same_shape_refl.
    + injection H as <- _ _. shape.
  - destruct (first_allocated (memory e)) as [[j o']|]; [|done].
    injection H as <- _ _. apply same_shape_refl.
Qed.

Lemma replace_one_same_shape e : same_shape e (replace_one e).1.
Proof.
  unfold replace_one.
  destruct (select_victim e) as [[[e' o] i]|] eqn:Hsel; [|apply same_shape_refl].
  cbn [fst]. eapply same_shape_trans; [by eapply select_victim_same_shape|].
  apply evict_same_shape.
Qed.

Lemma replace_loop_same_shape n : ∀ e, same_shape e (replace_loop n e).
Proof.
  induction n as [|n IH]; intros e; simpl; [apply same_shape_refl|].
  pose proof (replace_one_same_shape e) as H1.
  destruct (replace_one e) as [e' []]; simpl in H1; [done|].
  eapply same_shape_trans; [done|apply IH].
Qed.

Lemma _replace_pages_same_shape e n : same_shape e (_replace_pages e n).
Proof.
  unfold _replace_pages. case_decide; [apply same_shape_refl|apply replace_loop_same_shape].
Qed.

Lemma allocate_frame_same_shape pid frames e j : same_shape e (allocate_frame pid frames e j).
Proof. unfold allocate_frame. simpl. repeat case_decide; shape. Qed.

Lemma allocate_memory_same_shape e size : same_shape e (allocate_memory e size).1.
Proof.
  unfold allocate_memory, allocate_pages.
  case_decide; [apply same_shape_refl|]. case_decide; [apply same_shape_refl|].
  set (e1 := if decide (_ < _)%Z then _ else e).
  assert (same_shape e e1) as H1.
  { subst e1. case_decide; [apply _replace_pages_same_shape|apply same_shape_refl]. }
  set (fs := py_slice_to _ _).
  set (e2 := foldl _ _ fs).
  assert (same_shape e e2) as H2.
  { eapply same_shape_trans; [apply H1|]. subst e2.
    eapply same_shape_trans;
      [|apply (foldl_same_shape (allocate_frame _ _)), allocate_frame_same_shape].
    shape. }
  destruct fs; cbn [fst]; (eapply same_shape_trans; [apply H2|]); shape.
Qed.

Lemma free_process_frame_same_shape pid e j : same_shape e (free_process_frame pid e j).
Proof. unfold free_process_frame. repeat case_decide; shape. Qed.

Lemma deallocate_frame_same_shape e i fr : same_shape e (deallocate_frame e i fr).1.
Proof.
  unfold deallocate_frame. destruct (frame_id fr); [|apply same_shape_refl].
  cbn [fst].
  eapply same_shape_trans;
    [apply (foldl_same_shape (free_process_frame n)), free_process_frame_same_shape|].
  shape.
Qed.

Lemma deallocate_memory_same_shape e address : same_shape e (deallocate_memory e address).1.
Proof.
  unfold deallocate_memory.
  repeat case_decide; try apply same_shape_refl.
  destruct (memory e !! _); [|apply same_shape_refl].
  case_decide; [|apply deallocate_frame_same_shape].
  destruct (allocated_frames _) as [|[? ?] ?];
    [apply same_shape_refl|apply deallocate_frame_same_shape].
Qed.

Lemma _handle_page_fault_same_shape e i : same_shape e (_handle_page_fault e i).
Proof.
  unfold _handle_page_fault. destruct (memory e !! i) as [fr|]; [|apply same_shape_refl].
  destruct (status fr); [|apply same_shape_refl].
  simpl. repeat case_decide; shape.
Qed.

Lemma access_memory_same_shape e address : same_shape e (access_memory e address).1.
Proof.
  unfold access_memory, access_frame. case_decide; [apply same_shape_refl|].
  cbn zeta. destruct (py_index _ _); [|shape].
  case_decide; cbn [fst].
  - eapply same_shape_trans; [|shape].
    eapply same_shape_trans; [|apply _handle_page_fault_same_shape]. shape.
  - case_decide; shape.
Qed.

Lemma step_same_shape e o : same_shape e (step e o).
Proof.
  destruct o; simpl;
    auto using allocate_memory_same_shape, deallocate_memory_same_shape,
      access_memory_same_shape.
Qed.

Lemma run_same_shape e ops : same_shape e (run e ops).
Proof. apply foldl_same_shape, step_same_shape. Qed.

(** * Engines built from a valid configuration *)

Lemma init_Ok technique memory_size page_size algorithm e :
  init technique memory_size page_size algorithm = Ok e →
  page_size ≠ 0%Z ∧
  e = Engine technique memory_size page_size algorithm (memory_size / page_size)
        (replicate (Z.to_nat (memory_size / page_size)) free_frame)
        ∅ [] [] 0 0 0 [] 1.
Proof. unfold init. case_decide; [done|]. by intros [= <-]. Qed.

Lemma valid_config_frames memory_size page_size :
  valid_config memory_size page_size → (0 < memory_size / page_size)%Z.
Proof.
  intros (Hm&Hp&Hmod).
  apply Z.div_str_pos. split; [done|].
  pose proof (Z.div_mod memory_size page_size) as Hdm.
  destruct (decide (memory_size < page_size)%Z) as [Hlt|]; [|lia].
  rewrite Z.mod_small in Hmod by lia. lia.
Qed.

(** A reachable engine satisfies the invariant, has a positive page size and
    at least one frame, and [total_frames] is the length of its frame array. *)
Lemma reachable_well_formed e :
  reachable e →
  engine_inv e ∧ (0 < page_size e)%Z ∧
  (0 < total_frames e)%Z ∧ total_frames e = Z.of_nat (length (memory e)).
Proof.
  intros (t&ms&ps&alg&e0&ops&Hcfg&Hinit&->).
  pose proof (valid_config_frames _ _ Hcfg) as Hpos.
  pose proof (init_inv _ _ _ _ _ Hinit) as Hinv.
  apply init_Ok in Hinit as [_ He0].
  destruct (run_same_shape e0 ops) as [_ _ Hps _ Htf Hlen].
  split; [by apply run_inv|]. rewrite Hps, Htf, Hlen. subst e0. simpl.
  rewrite length_replicate. destruct Hcfg as (_&?&_). lia.
Qed.

Lemma reachable_memory_nonempty e : reachable e → memory e ≠ [].
Proof.
  intros (_&_&Hpos&Hlen)%reachable_well_formed Hnil.
  rewrite Hnil in Hlen. simpl in Hlen. lia.
Qed.

(** * Page table and frame array agree *)

(** C1. Starting from a freshly constructed engine, after every sequence of
    allocate, deallocate and access operations the frames whose status is
    ['allocated'] are exactly the frames listed in the page table: no
    allocated frame lacks a page-table entry and no page-table entry points at
    a free frame. *)
Theorem allocated_frames_match_page_table technique msize psize alg e0 ops :
  init technique msize psize alg = Ok e0 →
  ∀ i, frame_allocated (run e0 ops) i ↔ frame_in_page_table (run e0 ops) i.
Proof.
  intros Hinit i.
  pose proof (run_inv e0 ops (init_inv _ _ _ _ _ Hinit)) as [[Ha Hb _] _ _ _ _].
  unfold frame_allocated, frame_in_page_table. split.
  - intros (fr&Hi&Hst). destruct (Hb _ _ Hi Hst) as (pid&fs&_&?&?). eauto.
  - intros (pid&fs&Hpt&Hin). exists (allocated_frame pid). split; [eauto|done].
Qed.

(** * Counters under access *)

Lemma _handle_page_fault_counters e i :
  page_faults (_handle_page_fault e i) = page_faults e ∧
  memory_accesses (_handle_page_fault e i) = memory_accesses e ∧
  page_hits (_handle_page_fault e i) = page_hits e.
Proof.
  unfold _handle_page_fault. destruct (memory e !! i) as [fr|]; [|done].
  destruct (status fr); [|done]. simpl. repeat case_decide; done.
Qed.

(** One access of an engine with frames: it returns a boolean, counts one
    access, and counts it as a hit or as a fault. *)
Lemma access_memory_result e address :
  page_size e ≠ 0%Z →
  memory e ≠ [] →
  ∃ fr,
    memory e !! Z.to_nat (access_frame_num e address) = Some fr ∧
    (access_memory e address).2 = Ok (bool_decide (status fr = allocated)) ∧
    memory_accesses (access_memory e address).1 = memory_accesses e + 1 ∧
    page_hits (access_memory e address).1
      = page_hits e + (if bool_decide (status fr = allocated) then 1 else 0) ∧
    page_faults (access_memory e address).1
      = page_faults e + (if bool_decide (status fr = allocated) then 0 else 1).
Proof.
  intros Hps Hne.
  destruct (py_index_access_frame_num e address Hne) as [Hpy [fr Hfr]].
  exists fr. split; [done|].
  unfold access_memory, access_frame. rewrite decide_False by done.
  cbn zeta. cbn [memory set_memory_accesses]. rewrite Hpy, Hfr.
  destruct (status fr) eqn:Hst.
  - rewrite decide_True by done. rewrite bool_decide_eq_false_2 by done.
    cbn [fst snd]. split; [done|].
    set (e1 := set_page_faults _ _).
    destruct (_handle_page_fault_counters e1 (Z.to_nat (access_frame_num e address)))
      as (Hpf&Hma&Hph).
    simpl. rewrite Hpf, Hma, Hph. subst e1. simpl. lia.
  - rewrite decide_False by (by intros ?). rewrite bool_decide_eq_true_2 by done.
    cbn [fst snd]. split; [done|]. case_decide; simpl; lia.
Qed.

(** An engine without frames, which [init] builds when [memory_size] is
    smaller than [page_size], is why the properties of access below ask for a
    valid configuration: there [self.memory[frame_num]] raises after the
    access has been counted. *)
Lemma access_memory_no_frames e address :
  page_size e ≠ 0%Z →
  memory e = [] →
  access_memory e address
  = (set_memory_accesses (memory_accesses e + 1) e, Raise IndexError).
Proof.
  intros Hps Hnil. unfold access_memory, access_frame, access_frame_num.
  rewrite decide_False by done. cbn zeta. cbn [memory set_memory_accesses].
  rewrite Hnil. unfold py_index. cbn [length].
  generalize (address / page_size e)%Z. intros fn.
  repeat case_decide; try done; lia.
Qed.

(** C2. Starting from a freshly constructed engine, after any sequence of
    access operations only, [page_hits + page_faults = memory_accesses]. *)
Theorem hits_plus_faults_eq_accesses technique msize psize alg e0 addresses :
  valid_config msize psize →
  init technique msize psize alg = Ok e0 →
  page_hits (run e0 (Access <$> addresses)) + page_faults (run e0 (Access <$> addresses))
  = memory_accesses (run e0 (Access <$> addresses)).
Proof.
  intros Hcfg Hinit.
  assert (page_size e0 ≠ 0%Z ∧ memory e0 ≠ [] ∧
          page_hits e0 + page_faults e0 = memory_accesses e0) as Hstart.
  { pose proof (valid_config_frames _ _ Hcfg) as Hpos.
    apply init_Ok in Hinit as [Hps ->]. simpl. split; [done|]. split; [|done].
    destruct (Z.to_nat (msize / psize)) eqn:E; [lia|done]. }
  clear Hinit Hcfg. revert e0 Hstart. unfold run.
  induction addresses as [|a addresses IH]; intros e (Hps&Hne&Hsum); [done|].
  cbn [fmap list_fmap foldl step]. apply IH.
  destruct (access_memory_same_shape e a) as [_ _ Hps' _ _ Hlen].
  destruct (access_memory_result e a Hps Hne) as (fr&_&_&Hma&Hph&Hpf).
  split; [by rewrite Hps'|]. split.
  - intros Hnil. rewrite Hnil in Hlen. destruct (memory e); [done|simpl in Hlen; lia].
  - rewrite Hma, Hph, Hpf. case_bool_decide; lia.
Qed.

(** * Access never fails *)

(** C8. For every engine and every integer address, negative or beyond the
    memory included, [access_memory] raises nothing: it resolves the address
    to the frame index clamped into [[0, total_frames)], counts one more
    memory access, and returns a boolean, true exactly when the resolved frame
    is allocated. *)
Theorem access_never_raises e address :
  reachable e →
  (0 ≤ access_frame_num e address < total_frames e)%Z ∧
  access_frame_num e address = spec_clamp (address / page_size e) (total_frames e) ∧
  memory_accesses (access_memory e address).1 = memory_accesses e + 1 ∧
  ∃ hit : bool,
    (access_memory e address).2 = Ok hit ∧
    (hit = true ↔ frame_allocated e (Z.to_nat (access_frame_num e address))).
Proof.
  intros Hr. pose proof (reachable_memory_nonempty e Hr) as Hne.
  destruct (reachable_well_formed e Hr) as (_&Hps&Hpos&Hlen).
  pose proof (access_frame_num_in_range e address Hne) as Hrange.
  destruct (access_memory_result e address) as (fr&Hfr&Hres&Hma&_&_); [lia|done|].
  split; [lia|]. split.
  { clear Hrange Hfr Hres Hma. unfold access_frame_num, spec_clamp. rewrite Hlen in *.
    generalize (address / page_size e)%Z. intros fn. case_decide; lia. }
  split; [done|].
  exists (bool_decide (status fr = allocated)). split; [done|].
  rewrite bool_decide_eq_true. unfold frame_allocated. split; [by eauto|].
  intros (fr'&Hfr'&Hst). congruence.
Qed.

(** * Allocation beyond the capacity *)

Lemma spec_ceil_div_eq a b : (0 < b)%Z → spec_ceil_div a b = ((a + b - 1) / b)%Z.
Proof.
  intros Hb. unfold spec_ceil_div.
  pose proof (Z.div_mod (- a) b) as Hdm.
  pose proof (Z.mod_pos_bound (- a) b Hb) as Hr.
  apply (Z.div_unique _ _ _ (b - 1 - (- a) `mod` b)%Z); [lia|].
  rewrite Z.mul_opp_r. lia.
Qed.

Lemma spec_ceil_div_least a b k :
  (0 < b)%Z → (spec_ceil_div a b ≤ k)%Z ↔ (a ≤ k * b)%Z.
Proof.
  intros Hb. rewrite spec_ceil_div_eq by done. split.
  - intros Hle. destruct (decide (a ≤ k * b)%Z) as [|Hgt]; [done|].
    assert (k + 1 ≤ (a + b - 1) / b)%Z; [|lia].
    apply Z.div_le_lower_bound; lia.
  - intros Hle. assert ((a + b - 1) / b < k + 1)%Z; [|lia].
    apply Z.div_lt_upper_bound; lia.
Qed.

(** C6. Whenever [ceil(size / page_size)] exceeds [total_frames],
    [allocate_memory] raises the capacity error and returns the engine it was
    given: frames, page table, replacement metadata, counters, next id and
    operation log are all untouched. *)
Theorem allocate_over_capacity e size :
  (0 < page_size e)%Z →
  (spec_ceil_div size (page_size e) > total_frames e)%Z →
  allocate_memory e size = (e, Raise (ValueError RequestedSizeExceeds)).
Proof.
  intros Hps Hcap. rewrite spec_ceil_div_eq in Hcap by done.
  unfold allocate_memory, allocate_pages.
  rewrite decide_False by lia. by rewrite decide_True.
Qed.

(** * Deallocation *)

(** C10. Whenever [deallocate_memory] raises (frame index out of bounds, no
    allocated frame anywhere, or any other error), the engine is exactly the
    one it was given. *)
Theorem deallocate_failure_atomic e address x :
  (deallocate_memory e address).2 = Raise x →
  (deallocate_memory e address).1 = e.
Proof.
  assert (∀ i fr, (deallocate_frame e i fr).2 = Raise x → (deallocate_frame e i fr).1 = e)
    as Hframe.
  { intros i fr. unfold deallocate_frame. by destruct (frame_id fr). }
  unfold deallocate_memory.
  case_decide; [done|]. case_decide; [done|].
  destruct (memory e !! _) as [fr|]; [|done].
  case_decide; [|by apply Hframe].
  destruct (allocated_frames (memory e)) as [|[i f] l]; [done|]. by apply Hframe.
Qed.

Lemma deallocate_memory_at_allocated e i fr :
  page_size e ≠ 0%Z →
  memory e !! i = Some fr →
  status fr = allocated →
  deallocate_memory e (Z.of_nat i * page_size e) = deallocate_frame e i fr.
Proof.
  intros Hps Hi Hst. unfold deallocate_memory.
  rewrite decide_False by done. rewrite Z.div_mul by done.
  apply lookup_lt_Some in Hi as Hlt.
  rewrite decide_False by lia. rewrite Nat2Z.id, Hi.
  rewrite decide_False; [done|]. intros Hne. by apply Hne.
Qed.

(** C5. In every engine, for every owner of the page table and every frame
    [i] of that owner, [deallocate_memory] at the base address of [i]
    succeeds, frees every frame of the owner (and no other frame), removes the
    owner from the page table and leaves no replacement metadata of the
    owner. *)
Theorem deallocate_frees_whole_allocation e pid fs i :
  reachable e →
  page_table e !! pid = Some fs →
  i ∈ fs →
  ∃ e',
    deallocate_memory e (Z.of_nat i * page_size e) = (e', Ok ()) ∧
    (∀ j, memory e !! j = Some (allocated_frame pid) → memory e' !! j = Some free_frame) ∧
    (∀ j, j ∈ fs → memory e' !! j = Some free_frame) ∧
    (∀ j, j ∉ fs → memory e' !! j = memory e !! j) ∧
    page_table e' !! pid = None ∧
    (∀ j, (pid, j) ∉ page_queue e') ∧
    (∀ j, (Some pid, j) ∉ (page_access_time e').*1).
Proof.
  intros (Hinv&Hps&_&_)%reachable_well_formed Hpt Hin.
  pose proof (inv_table _ Hinv) as Ht.
  pose proof (table_frames _ _ _ Ht _ _ _ Hpt Hin) as Hi.
  destruct (deallocate_frame_spec e i pid Hinv Hi)
    as (fs'&e'&Hpt'&_&Hde&Hmem&Hptd&_&Hqg&_&Hdg&_).
  assert (fs' = fs) as -> by congruence.
  exists e'. rewrite (deallocate_memory_at_allocated e i (allocated_frame pid)) by (done || lia).
  split; [done|].
  assert (∀ j, j ∈ fs → memory e' !! j = Some free_frame) as Hfreed.
  { intros j Hj. rewrite Hmem. apply lookup_fill_eq; [done|].
    eapply lookup_lt_Some, (table_frames _ _ _ Ht); eauto. }
  repeat split; try done.
  - intros j Hj. apply Hfreed.
    destruct (frames_table _ _ _ Ht _ _ Hj eq_refl) as (pid'&fs'&Heq&Hpt''&Hj').
    apply allocated_frame_inj in Heq as <-. congruence.
  - intros j Hj. rewrite Hmem. by apply lookup_fill_ne.
  - rewrite Hptd. apply lookup_delete_eq.
Qed.

Section first_allocated_frame.
Context {A : Type} (P : nat * A → Prop) `{∀ p, Decision (P p)}.

Lemma filter_enumerate_from_head k (l : list A) i x rest :
  filter P (enumerate_from k l) = (i, x) :: rest →
  ∀ j y, (j, y) ∈ enumerate_from k l → P (j, y) → i ≤ j.
Proof.
  revert k. induction l as [|a l IH]; intros k; simpl; [done|].
  rewrite filter_cons. intros Hf j y Hin HP.
  apply elem_of_cons in Hin. case_decide as Hk.
  - injection Hf as <- _ _. destruct Hin as [[= -> _]|Hin]; [done|].
    apply enumerate_from_fst_lt in Hin. simpl in Hin. lia.
  - destruct Hin as [[= -> ->]|Hin]; [done|]. by eapply IH.
Qed.
End first_allocated_frame.

Lemma allocated_frames_head mem i f l :
  allocated_frames mem = (i, f) :: l →
  mem !! i = Some f ∧ status f = allocated ∧
  ∀ j g, mem !! j = Some g → status g = allocated → i ≤ j.
Proof.
  intros Hal.
  assert ((i, f) ∈ allocated_frames mem) as Hin by (rewrite Hal; left).
  apply elem_of_allocated_frames in Hin as [Hi Hst].
  split; [done|]. split; [done|]. intros j g Hj Hg.
  eapply (filter_enumerate_from_head _ 0 mem); [exact Hal| |exact Hg].
  by apply elem_of_enumerate.
Qed.

(** C7. In every engine, for every address whose frame index is in bounds
    and whose frame is not allocated: if no frame at all is allocated,
    [deallocate_memory] raises the nothing-allocated error; otherwise it
    succeeds, doing exactly what it does at the base address of the allocated
    frame of least index, whose whole owning allocation it frees. *)
Theorem deallocate_unallocated_address e address :
  reachable e →
  (0 ≤ address / page_size e < total_frames e)%Z →
  ¬ frame_allocated e (Z.to_nat (address / page_size e)) →
  ((∀ i, ¬ frame_allocated e i) →
   deallocate_memory e address = (e, Raise (ValueError NoAllocatedMemory))) ∧
  (∀ i, frame_allocated e i → (∀ j, j < i → ¬ frame_allocated e j) →
   deallocate_memory e address = deallocate_memory e (Z.of_nat i * page_size e) ∧
   ∃ e' pid fs,
     deallocate_memory e address = (e', Ok ()) ∧
     memory e !! i = Some (allocated_frame pid) ∧
     page_table e !! pid = Some fs ∧
     memory e' = fill free_frame fs (memory e) ∧
     page_table e' = delete pid (page_table e) ∧
     operations e' = operations e ++ [OpDeallocate pid (Z.of_nat i * page_size e) fs]).
Proof.
  intros (Hinv&Hps&_&Hlen)%reachable_well_formed Hbounds Hfree.
  assert (∃ fr, memory e !! Z.to_nat (address / page_size e) = Some fr ∧
                status fr ≠ allocated) as (fr&Hfr&Hst).
  { destruct (lookup_lt_is_Some_2 (memory e) (Z.to_nat (address / page_size e)))
      as [fr Hfr]; [lia|].
    exists fr. split; [done|]. intros Hal. apply Hfree. by exists fr. }
  assert (deallocate_memory e address
          = match allocated_frames (memory e) with
            | [] => (e, Raise (ValueError NoAllocatedMemory))
            | (i, f) :: _ => deallocate_frame e i f
            end) as Hde.
  { unfold deallocate_memory. rewrite decide_False by lia.
    rewrite decide_False by lia. rewrite Hfr. by rewrite decide_True. }
  split.
  - intros Hnone. rewrite Hde.
    destruct (allocated_frames (memory e)) as [|[i f] l] eqn:Hal; [done|].
    apply allocated_frames_head in Hal as (Hi&Hf&_).
    destruct (Hnone i). by exists f.
  - intros i (fi&Hi&Hfi) Hleast.
    destruct (allocated_frames (memory e)) as [|[i0 f0] l] eqn:Hal.
    { assert ((i, fi) ∈ allocated_frames (memory e)) as Hin
        by (by apply elem_of_allocated_frames).
      rewrite Hal in Hin. by apply elem_of_nil in Hin. }
    apply allocated_frames_head in Hal as (Hi0&Hf0&Hmin).
    assert (i0 = i) as ->.
    { pose proof (Hmin _ _ Hi Hfi).
      destruct (decide (i0 < i)) as [Hlt|]; [|lia].
      destruct (Hleast _ Hlt). by exists f0. }
    assert (f0 = fi) as -> by congruence.
    rewrite (deallocate_memory_at_allocated e i fi) by (done || lia).
    split; [done|]. rewrite Hde.
    destruct (frames_table _ _ _ (inv_table _ Hinv) _ _ Hi Hfi) as (pid&fs0&->&_&_).
    destruct (deallocate_frame_spec e i pid Hinv Hi)
      as (fs&e'&Hpt&_&Hdf&Hmem&Hptd&_&_&_&_&Hops&_).
    exists e', pid, fs. done.
Qed.

(** * Eviction order *)

Lemma pages_needed_single size psize :
  (0 < size ≤ psize)%Z → ((size + psize - 1) / psize = 1)%Z.
Proof. intros Hs. symmetry. apply (Z.div_unique _ _ _ (size - 1)%Z); lia. Qed.

Lemma allocate_memory_single e size :
  (0 < size ≤ page_size e)%Z → allocate_memory e size = allocate_pages e size 1.
Proof.
  intros Hs. unfold allocate_memory. rewrite decide_False by lia.
  by rewrite pages_needed_single.
Qed.

Lemma run_allocate_single sizes : ∀ e,
  Forall (λ s, (0 < s ≤ page_size e)%Z) sizes →
  run e (Allocate <$> sizes) = foldl (λ e s, (allocate_pages e s 1).1) e sizes.
Proof.
  unfold run. induction sizes as [|s sizes IH]; intros e Hs; [done|].
  apply Forall_cons_1 in Hs as [Hs Hsizes].
  cbn [fmap list_fmap foldl step]. rewrite IH.
  - by rewrite allocate_memory_single.
  - by rewrite (shape_page_size _ _ (allocate_memory_same_shape e s)).
Qed.

Lemma access_memory_first_frame e address :
  (0 ≤ address < page_size e)%Z →
  memory e ≠ [] →
  access_memory e address = access_frame e address 0.
Proof.
  intros Ha Hne. unfold access_memory, access_frame_num.
  rewrite decide_False by lia. rewrite Z.div_small by done.
  rewrite decide_False; [done|].
  destruct (memory e); [done|]. simpl. lia.
Qed.

(** C3. FIFO, four frames: after four single-frame allocations (owners 1, 2,
    3, 4 in frames 0, 1, 2, 3) the victim of the next eviction is owner 1's
    frame 0, and a fifth single-frame allocation evicts that frame and no
    other: it passes to the new owner 5, owner 1 leaves the page table, and
    one page fault is counted. *)
Theorem fifo_evicts_oldest technique psize s1 s2 s3 s4 s5 e0 :
  Forall (λ s, (0 < s ≤ psize)%Z) [s1; s2; s3; s4; s5] →
  init technique (4 * psize) psize "FIFO" = Ok e0 →
  let e4 := run e0 (Allocate <$> [s1; s2; s3; s4]) in
  let e5 := run e0 (Allocate <$> [s1; s2; s3; s4; s5]) in
  e5 = (allocate_memory e4 s5).1 ∧
  memory e4 = allocated_frame <$> [1; 2; 3; 4] ∧
  (∃ e', select_victim e4 = Some (e', Some 1, 0)) ∧
  memory e5 = allocated_frame <$> [5; 2; 3; 4] ∧
  page_table e5 !! 1 = None ∧
  page_table e5 !! 5 = Some [0] ∧
  page_faults e4 = 0 ∧ page_faults e5 = 1.
Proof.
  intros Hs Hinit. cbv zeta.
  assert (0 < psize)%Z as Hps by (apply Forall_cons_1 in Hs as [? _]; lia).
  apply init_Ok in Hinit as [_ ->]. rewrite Z.div_mul by lia.
  split; [done|].
  rewrite !run_allocate_single.
  - vm_compute. repeat split. by eexists.
  - exact Hs.
  - repeat (apply Forall_cons_1 in Hs as [? Hs]). repeat constructor; simpl; lia.
Qed.

Lemma access_frame_num_first_frame e address :
  (0 ≤ address < page_size e)%Z →
  memory e ≠ [] →
  access_frame_num e address = 0%Z.
Proof.
  intros Ha Hne. unfold access_frame_num. rewrite Z.div_small by done.
  rewrite decide_False; [done|].
  destruct (memory e); [done|]. simpl. lia.
Qed.

(** C4. LRU, four frames: after four single-frame allocations (owners 1, 2,
    3, 4 in frames 0, 1, 2, 3) and an access to owner 1's frame, which is a
    hit, the victim of the next eviction is owner 2's frame 1, not owner 1's:
    the next single-frame allocation gives frame 1 to the new owner 5 and
    leaves owner 1 in frame 0. *)
Theorem lru_evicts_least_recently_used technique psize s1 s2 s3 s4 s5 address e0 :
  Forall (λ s, (0 < s ≤ psize)%Z) [s1; s2; s3; s4; s5] →
  (0 ≤ address < psize)%Z →
  init technique (4 * psize) psize "LRU" = Ok e0 →
  let e4 := run e0 (Allocate <$> [s1; s2; s3; s4]) in
  let e4' := (access_memory e4 address).1 in
  let e5 := (allocate_memory e4' s5).1 in
  e5 = run e0 [Allocate s1; Allocate s2; Allocate s3; Allocate s4;
               Access address; Allocate s5] ∧
  memory e4 = allocated_frame <$> [1; 2; 3; 4] ∧
  access_frame_num e4 address = 0%Z ∧
  (access_memory e4 address).2 = Ok true ∧
  (∃ e', select_victim e4' = Some (e', Some 2, 1)) ∧
  memory e5 = allocated_frame <$> [1; 5; 3; 4] ∧
  page_table e5 !! 2 = None ∧
  page_table e5 !! 1 = Some [0] ∧
  page_table e5 !! 5 = Some [1] ∧
  page_faults e5 = 1.
Proof.
  intros Hs Ha Hinit. cbv zeta.
  assert (0 < psize)%Z as Hps by lia.
  apply init_Ok in Hinit as [_ ->]. rewrite Z.div_mul by lia.
  split; [done|].
  set (E0 := Engine _ _ _ _ _ _ _ _ _ _ _ _ _ _).
  set (ops := Allocate <$> [s1; s2; s3; s4]).
  assert (Forall (λ s, (0 < s ≤ page_size E0)%Z) [s1; s2; s3; s4]) as Hs4.
  { repeat (apply Forall_cons_1 in Hs as [? Hs]). repeat constructor; simpl; lia. }
  destruct (run_same_shape E0 ops) as [_ _ Hps4 _ _ Hlen4].
  assert (memory (run E0 ops) ≠ []) as Hne.
  { intros Hnil. rewrite Hnil in Hlen4. done. }
  assert ((0 ≤ address < page_size (run E0 ops))%Z) as Ha4 by (by rewrite Hps4).
  rewrite (allocate_memory_single (access_memory (run E0 ops) address).1).
  2: { rewrite (shape_page_size _ _ (access_memory_same_shape _ _)), Hps4. simpl.
       repeat (apply Forall_cons_1 in Hs as [? Hs]). done. }
  rewrite (access_frame_num_first_frame _ _ Ha4 Hne).
  rewrite (access_memory_first_frame _ _ Ha4 Hne).
  subst ops. rewrite (run_allocate_single _ _ Hs4). subst E0.
  vm_compute. repeat split. by eexists.
Qed.

(** * Tutorial step verification *)

Lemma py_int_raises `{!Interpreter} v x :
  py_int v = Raise x → x ≠ KeyError ∧ x ≠ IndexError.
Proof.
  destruct v as [|b|n|[|neg|neg m ex]|s|items|items]; simpl;
    try destruct (int_of_str s); intros [= <-]; done.
Qed.

(** What [verify_step] raises, [int] raised on the size or on the address of
    the record. *)
Lemma verify_step_raises `{!Interpreter} step operation_data x :
  verify_step step operation_data = Raise x →
  py_int (default (PyInt 0) (data_size operation_data)) = Raise x ∨
  py_int (default (PyInt (-1)) (data_address operation_data)) = Raise x.
Proof.
  unfold verify_step, verify_expected.
  destruct (step_expected_operation step) as [expected|]; [|done].
  repeat case_match; try done; intros [= <-]; auto.
Qed.

(** An expectation of one of the four operation types whose allocate names a
    size other than 0 and whose access names an address other than -1 is
    verified, on the records with integer operands, as the specification
    words it. *)
Lemma verify_expected_as_specified `{!Interpreter} title expected operation_data :
  expected_type expected ∈ [Some "reset"; Some "allocate"; Some "access"; Some "deallocate"] →
  (expected_type expected = Some "allocate" →
   ∃ n, expected_size expected = Some n ∧ n ≠ 0%Z) →
  (expected_type expected = Some "access" →
   ∃ n, expected_address expected = Some n ∧ n ≠ (-1)%Z) →
  integer_operands operation_data →
  verify_expected expected operation_data
  = Ok (spec_step_satisfied (TutorialStep title (Some expected)) operation_data).
Proof.
  destruct expected as [ty sz ad], operation_data as [oty osz oad].
  unfold integer_operands, verify_expected, spec_step_satisfied. simpl.
  intros Hty Hallocate Haccess [Hsize Haddress].
  assert (osz = None ∨ ∃ n, osz = Some (PyInt n)) as Hsz.
  { destruct osz as [v|]; [right|by left]. destruct (Hsize v eq_refl) as [n ->]. by exists n. }
  assert (oad = None ∨ ∃ n, oad = Some (PyInt n)) as Had.
  { destruct oad as [v|]; [right|by left]. destruct (Haddress v eq_refl) as [n ->]. by exists n. }
  clear Hsize Haddress.
  repeat (apply elem_of_cons in Hty as [->|Hty]); [..|by apply elem_of_nil in Hty].
  - repeat case_decide; destruct_and?; simplify_eq; try done.
    by rewrite !andb_true_r.
  - destruct (Hallocate eq_refl) as (n&->&Hn).
    destruct (get_eq _ oty); simpl; [|done].
    repeat case_decide; destruct_and?; simplify_eq; try done;
      try (match goal with H : ¬ (_ ∧ _) |- _ => exfalso; apply H; split; [done|by eexists] end).
    rewrite andb_true_r. destruct Hsz as [->|[m ->]]; simpl; f_equal.
    + by rewrite bool_decide_eq_false_2 by congruence.
    + apply bool_decide_ext. split; congruence.
  - destruct (Haccess eq_refl) as (n&->&Hn).
    destruct (get_eq _ oty); simpl; [|done].
    repeat case_decide; destruct_and?; simplify_eq; try done;
      try (match goal with H : ¬ (_ ∧ _) |- _ => exfalso; apply H; split; [done|by eexists] end).
    destruct Had as [->|[m ->]]; simpl; f_equal.
    + by rewrite bool_decide_eq_false_2 by congruence.
    + apply bool_decide_ext. split; congruence.
  - destruct (get_eq _ oty); simpl; [|done].
    repeat case_decide; destruct_and?; simplify_eq; done.
Qed.

(** On the records with integer operands, every step of the shipped
    tutorials but "Optimization Challenge" is verified as the specification
    words it. *)
Lemma shipped_steps_as_specified `{!Interpreter} tutorial_id steps i step operation_data :
  tutorial_table !! tutorial_id = Some steps →
  steps !! i = Some step →
  step ≠ TutorialStep "Optimization Challenge" (expect_only "allocate") →
  integer_operands operation_data →
  verify_step step operation_data = Ok (spec_step_satisfied step operation_data).
Proof.
  intros Htable Hstep Hnot Hint.
  apply elem_of_list_to_map_2 in Htable. apply list_elem_of_lookup_2 in Hstep.
  assert (step_expected_operation step = None ∨
          ∃ title expected, step = TutorialStep title (Some expected) ∧
            expected_type expected
            ∈ [Some "reset"; Some "allocate"; Some "access"; Some "deallocate"] ∧
            (expected_type expected = Some "allocate" →
             ∃ n, expected_size expected = Some n ∧ n ≠ 0%Z) ∧
            (expected_type expected = Some "access" →
             ∃ n, expected_address expected = Some n ∧ n ≠ (-1)%Z)) as Hshape.
  { repeat (apply elem_of_cons in Htable as [[= -> ->]|Htable]);
      [..|by apply elem_of_nil in Htable];
      repeat (apply elem_of_cons in Hstep as [->|Hstep]);
      try (by apply elem_of_nil in Hstep); try done; try (by left);
      right; eexists _, _; (split; [reflexivity|]); simpl;
      (split; [by repeat first [left | right]|]);
      split; intros [=]; eexists; split; done. }
  destruct Hshape as [Hnone|(title&expected&->&Hty&Hallocate&Haccess)].
  - unfold verify_step, spec_step_satisfied. by rewrite Hnone.
  - by apply verify_expected_as_specified.
Qed.

(** C9. The step "Optimization Challenge" of the shipped table expects an
    allocate and names no size. There [verify_step_completed] answers [False]
    for every operation record, whatever [int] does: also for the allocate
    record that names no size either, which the comparison of the
    specification accepts. The sibling expectation of a deallocate, which
    names no operand either, is met by the type alone. *)
Theorem optimization_challenge_never_verified :
  tutorial_table !! "optimization" = Some optimization_steps ∧
  optimization_steps !! 5
  = Some (TutorialStep "Optimization Challenge" (expect_only "allocate")) ∧
  (∀ (python : Interpreter) operation_data,
     verify_step_completed optimization_at_challenge operation_data = Ok false) ∧
  spec_step_satisfied (TutorialStep "Optimization Challenge" (expect_only "allocate"))
    (OperationData (Some (PyStr "allocate")) None None) = true ∧
  (∀ python : Interpreter,
     verify_step (TutorialStep "Compaction" (expect_only "deallocate"))
       (OperationData (Some (PyStr "deallocate")) None None) = Ok true).
Proof.
  assert (tutorial_table !! "optimization" = Some optimization_steps) as Htable
    by (by vm_compute).
  split; [exact Htable|]. split; [reflexivity|]. split; [|split; [reflexivity|]].
  - intros python operation_data.
    unfold verify_step_completed, optimization_at_challenge.
    cbn [current_tutorial tutorials current_step].
    rewrite decide_False by done. rewrite Htable. cbn.
    unfold verify_expected. cbn.
    repeat case_decide; destruct_and?; simplify_eq;
      try (match goal with H : is_Some None |- _ => by destruct H end);
      by repeat case_match.
  - intros python. reflexivity.
Qed.

(** * The properties at sample inputs *)

Lemma four_frames_init algorithm : init "paging" 256 64 algorithm = Ok (four_frames algorithm).
Proof. reflexivity. Qed.

Lemma valid_config_256_64 : valid_config 256 64.
Proof. repeat split. Qed.

Lemma four_frames_run_reachable algorithm ops : reachable (run (four_frames algorithm) ops).
Proof.
  exists "paging", 256%Z, 64%Z, algorithm, (four_frames algorithm), ops.
  split; [apply valid_config_256_64|]. split; reflexivity.
Defined.

Lemma allocated_frames_match_page_table_witness :
  frame_allocated (run (four_frames "FIFO") [Allocate 128; Access 200; Deallocate 0]) 3 ↔
  frame_in_page_table (run (four_frames "FIFO") [Allocate 128; Access 200; Deallocate 0]) 3.
Proof.
  apply (allocated_frames_match_page_table "paging" 256 64 "FIFO" (four_frames "FIFO")).
  reflexivity.
Defined.

Lemma hits_plus_faults_eq_accesses_witness :
  page_hits (run (four_frames "LRU") (Access <$> [0; 70; 0; -5; 9999]%Z))
  + page_faults (run (four_frames "LRU") (Access <$> [0; 70; 0; -5; 9999]%Z))
  = memory_accesses (run (four_frames "LRU") (Access <$> [0; 70; 0; -5; 9999]%Z)).
Proof.
  apply (hits_plus_faults_eq_accesses "paging" 256 64 "LRU").
  - unfold valid_config. repeat split.
  - reflexivity.
Defined.

Lemma fifo_evicts_oldest_witness :
  memory (run (four_frames "FIFO") (Allocate <$> [64; 1; 32; 64; 10]%Z))
  = allocated_frame <$> [5; 2; 3; 4].
Proof.
  refine (proj1 (proj2 (proj2 (proj2
    (fifo_evicts_oldest "paging" 64 64 1 32 64 10 (four_frames "FIFO") _ _))))).
  - repeat constructor; simpl; lia.
  - reflexivity.
Defined.

Lemma lru_evicts_least_recently_used_witness :
  memory (run (four_frames "LRU")
            [Allocate 64; Allocate 1; Allocate 32; Allocate 64; Access 63; Allocate 10])
  = allocated_frame <$> [1; 5; 3; 4].
Proof.
  pose proof (lru_evicts_least_recently_used "paging" 64 64 1 32 64 10 63
                (four_frames "LRU")) as H.
  cbv zeta in H. destruct H as (He5&_&_&_&_&Hmem&_).
  - repeat constructor; simpl; lia.
  - lia.
  - reflexivity.
  - rewrite <- He5. exact Hmem.
Defined.

Lemma deallocate_frees_whole_allocation_witness :
  ∃ e', deallocate_memory three_of_four 64 = (e', Ok ()) ∧
        memory e' !! 0 = Some free_frame ∧
        memory e' !! 1 = Some free_frame ∧
        memory e' !! 2 = Some free_frame.
Proof.
  destruct (deallocate_frees_whole_allocation three_of_four 1 [0; 1; 2] 1)
    as (e'&Hde&_&Hfs&_).
  - apply four_frames_run_reachable.
  - reflexivity.
  - apply elem_of_cons. right. apply elem_of_cons. by left.
  - exists e'. split; [exact Hde|].
    repeat split; apply Hfs; repeat first [by left | right].
Defined.

Lemma allocate_over_capacity_witness :
  allocate_memory (four_frames "FIFO") 257
  = (four_frames "FIFO", Raise (ValueError RequestedSizeExceeds)).
Proof.
  apply allocate_over_capacity.
  - simpl. lia.
  - reflexivity.
Defined.

Lemma deallocate_unallocated_address_witness :
  ∃ e', deallocate_memory hole_at_zero 0 = (e', Ok ()) ∧
        memory e' = replicate 4 free_frame.
Proof.
  destruct (deallocate_unallocated_address hole_at_zero 0) as [_ Hfirst].
  - apply four_frames_run_reachable.
  - split; [done|reflexivity].
  - intros (fr&Hfr&Hst). vm_compute in Hfr. injection Hfr as <-. discriminate Hst.
  - destruct (Hfirst 1) as (_&e'&pid&fs&Hde&Hi&Hpt&Hmem&_).
    + exists (allocated_frame 2). split; reflexivity.
    + intros j Hj (fr&Hfr&Hst). assert (j = 0) as -> by lia.
      vm_compute in Hfr. injection Hfr as <-. discriminate Hst.
    + exists e'. split; [exact Hde|].
      vm_compute in Hi. injection Hi as <-.
      vm_compute in Hpt. injection Hpt as <-.
      rewrite Hmem. reflexivity.
Defined.

Lemma access_never_raises_witness :
  ∃ hit : bool, (access_memory three_of_four (-5)).2 = Ok hit.
Proof.
  destruct (access_never_raises three_of_four (-5)) as (_&_&_&hit&Hres&_).
  - apply four_frames_run_reachable.
  - by exists hit.
Defined.

Lemma deallocate_failure_atomic_witness :
  (deallocate_memory (four_frames "FIFO") 0).1 = four_frames "FIFO".
Proof.
  apply (deallocate_failure_atomic (four_frames "FIFO") 0 (ValueError NoAllocatedMemory)).
  reflexivity.
Defined.

(** * Counting frames *)

Section counting.
Context {A : Type} (P : A → Prop) `{∀ x, Decision (P x)}.

Lemma length_filter_enumerate_from k (l : list A) :
  length (filter (λ p : nat * A, P p.2) (enumerate_from k l)) = length (filter P l).
Proof.
  revert k. induction l as [|x l IH]; intros k; [done|].
  cbn [enumerate_from]. rewrite !filter_cons. cbn [snd].
  case_decide; cbn [length]; by rewrite IH.
Qed.

Lemma length_filter_insert (l : list A) i x y :
  l !! i = Some x →
  length (filter P (<[i:=y]> l)) + (if decide (P x) then 1 else 0)
  = length (filter P l) + (if decide (P y) then 1 else 0).
Proof.
  revert i. induction l as [|a l IH]; intros [|i] Hi; [done|done| |].
  - injection Hi as ->. change (<[0:=y]> (x :: l)) with (y :: l). rewrite !filter_cons.
    destruct (decide (P x)), (decide (P y)); cbn [length]; lia.
  - change (<[S i:=y]> (a :: l)) with (a :: <[i:=y]> l).
    change ((a :: l) !! S i) with (l !! i) in Hi.
    rewrite !filter_cons. specialize (IH i Hi).
    destruct (decide (P a)); cbn [length]; lia.
Qed.

Lemma length_filter_lt_exists (l : list A) :
  length (filter P l) < length l → ∃ i x, l !! i = Some x ∧ ¬ P x.
Proof.
  induction l as [|a l IH]; simpl; [lia|].
  rewrite filter_cons. case_decide as Ha.
  - simpl. intros Hlt. destruct IH as (i&x&Hi&Hx); [lia|]. by exists (S i), x.
  - intros _. by exists 0, a.
Qed.
End counting.

Lemma length_free_frames mem :
  length (free_frames mem) = length (filter (λ f, status f = free) mem).
Proof.
  unfold free_frames, enumerate. rewrite length_fmap.
  pose proof (length_filter_enumerate_from (λ f : frame, status f = free) 0 mem) as H.
  exact H.
Qed.

Lemma free_plus_allocated_count mem :
  length (free_frames mem) + allocated_frame_count mem = length mem.
Proof.
  rewrite length_free_frames. unfold allocated_frame_count.
  induction mem as [|fr mem IH]; [done|].
  rewrite !filter_cons. destruct (status fr) eqn:Hst;
    repeat case_decide; simplify_eq/=; lia.
Qed.

Lemma length_free_frames_insert_free mem i fr :
  mem !! i = Some fr → status fr = allocated →
  length (free_frames (<[i:=free_frame]> mem)) = S (length (free_frames mem)).
Proof.
  intros Hi Hst. rewrite !length_free_frames.
  pose proof (length_filter_insert (λ f, status f = free) mem i fr free_frame Hi) as H.
  rewrite decide_False in H by (by rewrite Hst). rewrite decide_True in H by done. lia.
Qed.

Lemma length_free_frames_insert_allocated mem i fr pid :
  mem !! i = Some fr → status fr = free →
  S (length (free_frames (<[i:=allocated_frame pid]> mem))) = length (free_frames mem).
Proof.
  intros Hi Hst. rewrite !length_free_frames.
  pose proof (length_filter_insert (λ f, status f = free) mem i fr (allocated_frame pid) Hi) as H.
  rewrite decide_True in H by done. rewrite decide_False in H by done. lia.
Qed.

Lemma length_free_frames_fill_allocated pid fs : ∀ mem,
  NoDup fs →
  (∀ j, j ∈ fs → j ∈ free_frames mem) →
  length (free_frames (fill (allocated_frame pid) fs mem)) + length fs
  = length (free_frames mem).
Proof.
  induction fs as [|j fs IH]; intros mem Hnd Hfree; [simpl; lia|].
  apply list.NoDup_cons in Hnd as [Hj Hnd].
  assert (j ∈ free_frames mem) as (fr&Hfr&Hst)%elem_of_free_frames
    by (apply Hfree; left).
  change (fill (allocated_frame pid) (j :: fs) mem)
    with (fill (allocated_frame pid) fs (<[j:=allocated_frame pid]> mem)).
  pose proof (length_free_frames_insert_allocated mem j fr pid Hfr Hst) as H1.
  rewrite <- H1. cbn [length]. rewrite <- (IH (<[j:=allocated_frame pid]> mem)); [lia|done|].
  intros j' Hj'. assert (j' ≠ j) by (intros ->; done).
  assert (j' ∈ free_frames mem) as (fr'&Hfr'&Hst')%elem_of_free_frames
    by (apply Hfree; by right).
  apply elem_of_free_frames. exists fr'. by rewrite list_lookup_insert_ne.
Qed.

(** * Replacement frees one frame per victim *)

Lemma first_allocated_is_Some mem i fr :
  mem !! i = Some fr → status fr = allocated → is_Some (first_allocated mem).
Proof.
  intros Hi Hst. unfold first_allocated.
  destruct (allocated_frames mem) as [|[j f] l] eqn:Hal; [|done].
  assert ((i, fr) ∈ allocated_frames mem) as Hin by (by apply elem_of_allocated_frames).
  rewrite Hal in Hin. by apply elem_of_nil in Hin.
Qed.

(** With an allocated frame in the engine, the selection finds a victim that
    is allocated to the owner it names, and touches the metadata only. *)
Lemma select_victim_allocated e :
  engine_inv e →
  (∃ i, frame_allocated e i) →
  ∃ e1 pid i,
    select_victim e = Some (e1, Some pid, i) ∧
    memory e !! i = Some (allocated_frame pid) ∧
    memory e1 = memory e ∧ page_table e1 = page_table e ∧
    page_faults e1 = page_faults e ∧ memory_accesses e1 = memory_accesses e ∧
    page_hits e1 = page_hits e ∧ operations e1 = operations e ∧
    next_id e1 = next_id e.
Proof.
  intros He (i0&fr0&Hi0&Hst0). pose proof He as [Ht Hq Hd Hqa Hda].
  assert (∃ i pid, first_allocated (memory e) = Some (i, Some pid) ∧
                   memory e !! i = Some (allocated_frame pid)) as (ia&pa&Hfa&Hia).
  { destruct (first_allocated_is_Some _ _ _ Hi0 Hst0) as [[i o] Hfa].
    pose proof Hfa as (fr&Hi&Hst&<-)%first_allocated_Some.
    destruct (frames_table _ _ _ Ht _ _ Hi Hst) as (pid&fs&->&_&_).
    by exists i, pid. }
  unfold select_victim.
  destruct (decide (algorithm e = "FIFO")) as [Hfifo|Hnfifo].
  - destruct (page_queue e) as [|[pid i] q] eqn:Hqe.
    + rewrite Hfa. by exists e, pa, ia.
    + exists (set_page_queue q e), pid, i. split; [done|]. split; [|done].
      apply (queue_frames _ _ Hq). by left.
  - destruct (decide (algorithm e = "LRU")) as [Hlru|Hnlru].
    + destruct (page_access_time e) as [|kv d] eqn:Hde.
      * rewrite Hfa. by exists e, pa, ia.
      * set (key := (min_by_value kv d).1).
        assert (key ∈ (kv :: d).*1) as Hkey.
        { apply list_elem_of_fmap. exists (min_by_value kv d).
          split; [done|]. apply min_by_value_elem_of. }
        destruct (times_frames _ _ Hd key Hkey) as (pid&Hk1&Hk2).
        eexists _, pid, key.2. rewrite Hk1. split; [reflexivity|]. by split.
    + rewrite Hfa. by exists e, pa, ia.
Qed.

Lemma replace_one_evicts e :
  engine_inv e →
  (∃ i, frame_allocated e i) →
  ∃ e' pid i,
    replace_one e = (e', LoopNext) ∧
    memory e !! i = Some (allocated_frame pid) ∧
    memory e' = <[i:=free_frame]> (memory e) ∧
    page_table e' = page_table_remove pid i (page_table e) ∧
    page_faults e' = page_faults e + 1 ∧ memory_accesses e' = memory_accesses e ∧
    page_hits e' = page_hits e ∧ operations e' = operations e ∧
    next_id e' = next_id e.
Proof.
  intros He Hal.
  destruct (select_victim_allocated e He Hal)
    as (e1&pid&i&Hsel&Hi&Hmem&Hpt&Hpf&Hma&Hph&Hops&Hnid).
  unfold replace_one. rewrite Hsel. unfold evict.
  rewrite decide_False by (rewrite Hmem; apply lookup_lt_Some in Hi; lia).
  eexists _, pid, i. split; [reflexivity|]. simpl.
  rewrite Hmem, Hpt, Hpf, Hma, Hph, Hops, Hnid. done.
Qed.

Lemma replace_loop_evicts k : ∀ e,
  engine_inv e →
  length (free_frames (memory e)) + k ≤ length (memory e) →
  length (free_frames (memory (replace_loop k e))) = length (free_frames (memory e)) + k ∧
  page_faults (replace_loop k e) = page_faults e + k ∧
  memory_accesses (replace_loop k e) = memory_accesses e ∧
  page_hits (replace_loop k e) = page_hits e ∧
  operations (replace_loop k e) = operations e ∧
  next_id (replace_loop k e) = next_id e.
Proof.
  induction k as [|k IH]; intros e He Hk; [simpl; repeat split; lia|].
  assert (∃ i, frame_allocated e i) as Hal.
  { destruct (length_filter_lt_exists (λ f, status f = free) (memory e))
      as (i&fr&Hi&Hst); [rewrite <- length_free_frames; lia|].
    exists i, fr. split; [done|]. by destruct (status fr). }
  destruct (replace_one_evicts e He Hal)
    as (e'&pid&i&Hone&Hi&Hmem&_&Hpf&Hma&Hph&Hops&Hnid).
  pose proof (replace_one_inv e He) as He'. rewrite Hone in He'. simpl in He'.
  pose proof (length_free_frames_insert_free _ _ _ Hi eq_refl) as Hfree.
  rewrite <- Hmem in Hfree.
  cbn [replace_loop]. rewrite Hone.
  destruct (IH e' He') as (->&->&->&->&->&->).
  { rewrite Hfree, Hmem, length_insert. lia. }
  rewrite Hfree, Hpf, Hma, Hph, Hops, Hnid. repeat split; lia.
Qed.

Lemma allocate_fold_counters pid frames fs : ∀ e,
  page_faults (foldl (allocate_frame pid frames) e fs) = page_faults e ∧
  page_hits (foldl (allocate_frame pid frames) e fs) = page_hits e ∧
  operations (foldl (allocate_frame pid frames) e fs) = operations e.
Proof.
  induction fs as [|j fs IH]; intros e; [done|]. cbn [foldl].
  destruct (IH (allocate_frame pid frames e j)) as (->&->&->).
  unfold allocate_frame. simpl. repeat case_decide; done.
Qed.

(** * A request that fits is always served *)

(** The engine after the replacement step of [allocate_pages]. *)
Lemma allocate_replacement_spec e (n : Z) :
  engine_inv e →
  (0 < n ≤ Z.of_nat (length (memory e)))%Z →
  let free0 := length (free_frames (memory e)) in
  let e1 := if decide (Z.of_nat free0 < n)%Z
            then _replace_pages e (n - Z.of_nat free0) else e in
  engine_inv e1 ∧
  length (free_frames (memory e1)) = free0 `max` Z.to_nat n ∧
  page_faults e1 = page_faults e + (Z.to_nat n - free0) ∧
  memory_accesses e1 = memory_accesses e ∧
  page_hits e1 = page_hits e ∧
  operations e1 = operations e ∧
  next_id e1 = next_id e.
Proof.
  intros He Hn free0 e1. subst e1. case_decide as Hlt.
  - unfold _replace_pages. rewrite decide_False by lia.
    split; [by apply replace_loop_inv|].
    destruct (replace_loop_evicts (Z.to_nat (n - Z.of_nat free0)) e He)
      as (->&->&->&->&->&->); [subst free0; lia|].
    subst free0. repeat split; lia.
  - split; [done|]. subst free0. repeat split; lia.
Qed.

Lemma allocate_pages_spec e size (n : Z) e1 :
  engine_inv e →
  (0 < n ≤ Z.of_nat (length (memory e)))%Z →
  total_frames e = Z.of_nat (length (memory e)) →
  e1 = (if decide (Z.of_nat (length (free_frames (memory e))) < n)%Z
        then _replace_pages e (n - Z.of_nat (length (free_frames (memory e)))) else e) →
  ∃ e' f,
    allocate_pages e size n = (e', Ok (Z.of_nat f * page_size e)%Z) ∧
    head (take (Z.to_nat n) (free_frames (memory e1))) = Some f ∧
    length (take (Z.to_nat n) (free_frames (memory e1))) = Z.to_nat n ∧
    memory e'
    = fill (allocated_frame (next_id e)) (take (Z.to_nat n) (free_frames (memory e1)))
        (memory e1) ∧
    page_table e'
    = <[next_id e := take (Z.to_nat n) (free_frames (memory e1))]> (page_table e1) ∧
    next_id e' = next_id e + 1 ∧
    operations e'
    = operations e
      ++ [OpAllocate (next_id e) size (take (Z.to_nat n) (free_frames (memory e1)))] ∧
    page_faults e'
    = page_faults e + (Z.to_nat n - length (free_frames (memory e))) ∧
    memory_accesses e' = memory_accesses e ∧
    page_hits e' = page_hits e.
Proof.
  intros He Hn Htf He1.
  pose proof (allocate_replacement_spec e n He Hn) as Hrep. cbv zeta in Hrep.
  rewrite <- He1 in Hrep. destruct Hrep as (Hinv1&Hfree1&Hpf1&Hma1&Hph1&Hops1&Hnid1).
  assert (page_size e1 = page_size e) as Hps1.
  { rewrite He1. case_decide; [|done].
    apply (shape_page_size _ _ (_replace_pages_same_shape _ _)). }
  unfold allocate_pages. rewrite decide_False by lia. rewrite <- He1.
  unfold py_slice_to. rewrite decide_True by lia.
  set (frames := take (Z.to_nat n) (free_frames (memory e1))).
  assert (length frames = Z.to_nat n) as Hlen.
  { subst frames. rewrite length_take. lia. }
  set (e2 := foldl _ _ _).
  assert (page_size e2 = page_size e) as Hps.
  { subst e2.
    rewrite (shape_page_size _ _
               (foldl_same_shape (allocate_frame _ _) (allocate_frame_same_shape _ _) _ _)).
    done. }
  assert (memory e2 = fill (allocated_frame (next_id e)) frames (memory e1) ∧
          page_table e2 = <[next_id e := frames]> (page_table e1) ∧
          next_id e2 = next_id e + 1 ∧ operations e2 = operations e ∧
          page_faults e2 = page_faults e + (Z.to_nat n - length (free_frames (memory e))) ∧
          memory_accesses e2 = memory_accesses e ∧ page_hits e2 = page_hits e) as Hfields.
  { subst e2.
    rewrite allocate_fold_memory, allocate_fold_page_table, allocate_fold_next_id,
      allocate_fold_memory_accesses.
    destruct (allocate_fold_counters (next_id e1) frames frames
                (set_next_id (next_id e1 + 1) e1)) as (->&->&->).
    simpl. rewrite Hnid1, Hops1, Hpf1, Hma1, Hph1.
    destruct frames; [simpl in Hlen; lia|done]. }
  destruct Hfields as (Hmem&Hpt&Hnid&Hops&Hpf&Hma&Hph).
  destruct frames as [|f frames'] eqn:Hframes; [simpl in Hlen; lia|].
  eexists _, f. split; [simpl; by rewrite Hps|]. simpl.
  rewrite Hmem, Hpt, Hnid, Hops, Hpf, Hma, Hph, Hnid1. done.
Qed.

Lemma pages_needed_fits size psize total :
  (0 < psize)%Z → (0 < size ≤ total * psize)%Z →
  (0 < (size + psize - 1) / psize ≤ total)%Z.
Proof.
  intros Hps Hs. split.
  - apply Z.div_str_pos. lia.
  - assert ((size + psize - 1) / psize < total + 1)%Z; [|lia].
    apply Z.div_lt_upper_bound; lia.
Qed.

(** The free indices come in ascending order. *)
Lemma free_frames_sorted mem : StronglySorted lt (free_frames mem).
Proof.
  unfold free_frames, enumerate. generalize 0.
  induction mem as [|fr mem IH]; intros k; [constructor|].
  cbn [enumerate_from]. rewrite filter_cons. case_decide; [|apply IH].
  rewrite fmap_cons. constructor; [apply IH|].
  apply Forall_forall. intros j ([j' x]&->&[_ Hin]%list_elem_of_filter)%list_elem_of_fmap.
  by apply enumerate_from_fst_lt in Hin.
Qed.

Lemma take_sorted_lowest (l : list nat) n j j' :
  StronglySorted lt l → j ∈ take n l → j' ∈ l → j' ∉ take n l → j < j'.
Proof.
  intros Hs Hj Hj' Hnj'. rewrite <- (take_drop n l) in Hs, Hj'.
  apply elem_of_app in Hj' as [?|Hj']; [done|].
  by eapply (StronglySorted_app_1_elem_of lt).
Qed.

Lemma head_sorted_least (l : list nat) f j :
  StronglySorted lt l → head l = Some f → j ∈ l → f ≤ j.
Proof.
  intros Hs Hf Hj. destruct l as [|a l]; simplify_eq/=.
  apply StronglySorted_inv in Hs as [_ Hall].
  apply elem_of_cons in Hj as [->|Hj]; [done|].
  rewrite Forall_forall in Hall. specialize (Hall _ Hj). lia.
Qed.

(** What [allocate_memory] does on a reachable engine for a request that
    fits: the common ground of the properties below. *)
Lemma allocate_memory_reachable_spec e size e1 :
  reachable e →
  (0 < size ≤ total_frames e * page_size e)%Z →
  e1 = (if decide (Z.of_nat (length (free_frames (memory e)))
                   < spec_ceil_div size (page_size e))%Z
        then _replace_pages e (spec_ceil_div size (page_size e)
                               - Z.of_nat (length (free_frames (memory e))))
        else e) →
  (0 < spec_ceil_div size (page_size e) ≤ total_frames e)%Z ∧
  engine_inv e1 ∧
  length (free_frames (memory e1))
  = length (free_frames (memory e)) `max` Z.to_nat (spec_ceil_div size (page_size e)) ∧
  ∃ e' f,
    allocate_memory e size = (e', Ok (Z.of_nat f * page_size e)%Z) ∧
    head (take (Z.to_nat (spec_ceil_div size (page_size e))) (free_frames (memory e1)))
    = Some f ∧
    length (take (Z.to_nat (spec_ceil_div size (page_size e))) (free_frames (memory e1)))
    = Z.to_nat (spec_ceil_div size (page_size e)) ∧
    memory e'
    = fill (allocated_frame (next_id e))
        (take (Z.to_nat (spec_ceil_div size (page_size e))) (free_frames (memory e1)))
        (memory e1) ∧
    page_table e'
    = <[next_id e := take (Z.to_nat (spec_ceil_div size (page_size e)))
                       (free_frames (memory e1))]> (page_table e1) ∧
    next_id e' = next_id e + 1 ∧
    operations e'
    = operations e
      ++ [OpAllocate (next_id e) size
            (take (Z.to_nat (spec_ceil_div size (page_size e))) (free_frames (memory e1)))] ∧
    page_faults e'
    = page_faults e
      + (Z.to_nat (spec_ceil_div size (page_size e)) - length (free_frames (memory e))) ∧
    memory_accesses e' = memory_accesses e ∧
    page_hits e' = page_hits e.
Proof.
  intros (Hinv&Hps&Htot&Hlen)%reachable_well_formed Hsize He1.
  rewrite spec_ceil_div_eq in * by done.
  pose proof (pages_needed_fits size (page_size e) (total_frames e) Hps Hsize) as Hn.
  split; [done|].
  pose proof (allocate_replacement_spec e ((size + page_size e - 1) / page_size e) Hinv) as Hrep.
  cbv zeta in Hrep. rewrite <- He1 in Hrep.
  destruct Hrep as (Hinv1&Hfree1&_); [lia|].
  split; [done|]. split; [done|].
  unfold allocate_memory. rewrite decide_False by lia.
  apply allocate_pages_spec; [done|lia|done|done].
Qed.

(** X1. On a reachable engine a request of positive size that fits the memory
    is always served: [allocate_memory] returns the base address of the
    lowest frame it took, takes exactly [ceil(size / page_size)] distinct
    frames, gives them (and no other frame) to the fresh owner [next_id],
    records them in the page table and in the log, and advances [next_id]. *)
Theorem allocate_memory_succeeds e size :
  reachable e →
  (0 < size ≤ total_frames e * page_size e)%Z →
  ∃ e' frames f,
    allocate_memory e size = (e', Ok (Z.of_nat f * page_size e)%Z) ∧
    head frames = Some f ∧
    (∀ j, j ∈ frames → f ≤ j) ∧
    NoDup frames ∧
    Z.of_nat (length frames) = spec_ceil_div size (page_size e) ∧
    page_table e' !! next_id e = Some frames ∧
    (∀ j, j ∈ frames ↔ memory e' !! j = Some (allocated_frame (next_id e))) ∧
    next_id e' = next_id e + 1 ∧
    operations e' = operations e ++ [OpAllocate (next_id e) size frames].
Proof.
  intros Hr Hsize.
  destruct (allocate_memory_reachable_spec e size _ Hr Hsize eq_refl)
    as (Hn&Hinv1&Hfree1&e'&f&Hal&Hhead&Hlen&Hmem&Hpt&Hnid&Hops&_).
  destruct (reachable_well_formed e Hr) as (Hinv&Hps&Htot&Htf).
  pose proof (allocate_replacement_spec e (spec_ceil_div size (page_size e)) Hinv) as Hrep.
  cbv zeta in Hrep. destruct Hrep as (_&_&_&_&_&_&Hnid1); [lia|].
  set (e1 := if decide _ then _ else e) in *.
  set (frames := take _ (free_frames (memory e1))) in *.
  assert (∀ j, j ∈ frames → j ∈ free_frames (memory e1)) as Hfree.
  { intros j Hj. eapply elem_of_sublist; [exact Hj|apply sublist_take]. }
  exists e', frames, f. split; [done|]. split; [done|]. split.
  { intros j Hj. apply (head_sorted_least frames); [|done|done].
    eapply (StronglySorted_app_1_l lt _ (drop _ (free_frames (memory e1)))).
    subst frames. rewrite take_drop. apply free_frames_sorted. }
  split.
  { eapply sublist_NoDup; [apply NoDup_free_frames|apply sublist_take]. }
  split; [lia|]. split; [by rewrite Hpt, lookup_insert_eq|]. split; [|done].
  intros j. rewrite Hmem. split.
  - intros Hj. pose proof (Hfree _ Hj) as (fr&Hfr&_)%elem_of_free_frames.
    apply lookup_fill_eq; [done|]. by eapply lookup_lt_Some.
  - intros [[Hj _]|[_ Hj]]%lookup_fill; [done|].
    destruct (frames_table _ _ _ (inv_table _ Hinv1) _ _ Hj eq_refl) as (pid&fs&Heq&Hfs&_).
    apply allocated_frame_inj in Heq as <-.
    assert (next_id e < next_id e1) by (eapply table_fresh; [apply Hinv1|eauto]). lia.
Qed.

(** X2. A request that fits evicts exactly its shortfall: [page_faults] grows
    by the number of frames needed beyond the free ones (by nothing when
    enough are free), [memory_accesses] and [page_hits] do not move, and the
    number of free frames drops by the number needed, to zero at least; the
    count of allocated frames that [get_results] reports grows accordingly. *)
Theorem allocate_memory_evicts_shortfall e size :
  reachable e →
  (0 < size ≤ total_frames e * page_size e)%Z →
  let needed := Z.to_nat (spec_ceil_div size (page_size e)) in
  let free0 := length (free_frames (memory e)) in
  let e' := (allocate_memory e size).1 in
  page_faults e' = page_faults e + (needed - free0) ∧
  memory_accesses e' = memory_accesses e ∧
  page_hits e' = page_hits e ∧
  length (free_frames (memory e')) = free0 - needed ∧
  allocated_frame_count (memory e')
  = (allocated_frame_count (memory e) + needed) `min` length (memory e).
Proof.
  intros Hr Hsize needed free0 e'.
  destruct (allocate_memory_reachable_spec e size _ Hr Hsize eq_refl)
    as (Hn&Hinv1&Hfree1&e''&f&Hal&Hhead&Hlen&Hmem&Hpt&Hnid&Hops&Hpf&Hma&Hph).
  subst e'. rewrite Hal. cbn [fst]. fold needed in Hlen, Hmem, Hpf, Hfree1.
  fold free0 in Hpf, Hfree1.
  split; [done|]. split; [done|]. split; [done|].
  set (e1 := if decide _ then _ else e) in *.
  set (frames := take needed (free_frames (memory e1))) in *.
  assert (length (free_frames (memory e'')) = free0 - needed) as Hfree'.
  { pose proof (length_free_frames_fill_allocated (next_id e) frames (memory e1)) as Hfill.
    rewrite <- Hmem in Hfill. rewrite Hlen, Hfree1 in Hfill.
    assert (length (free_frames (memory e'')) + needed = free0 `max` needed); [|lia].
    apply Hfill.
    - eapply sublist_NoDup; [apply NoDup_free_frames|apply sublist_take].
    - intros j Hj. eapply elem_of_sublist; [exact Hj|apply sublist_take]. }
  split; [done|].
  pose proof (free_plus_allocated_count (memory e)) as H0.
  pose proof (free_plus_allocated_count (memory e'')) as H1.
  assert (length (memory e'') = length (memory e)) as Hl.
  { pose proof (shape_length _ _ (allocate_memory_same_shape e size)) as Hs.
    by rewrite Hal in Hs. }
  fold free0 in H0. lia.
Qed.

(** X3. With enough free frames nothing is evicted: the request takes the
    lowest-index free frames, every other frame and every other owner's
    page-table entry stay as they are, and no page fault is counted. *)
Theorem allocate_memory_without_eviction e size :
  reachable e →
  (0 < size)%Z →
  (spec_ceil_div size (page_size e) ≤ Z.of_nat (length (free_frames (memory e))))%Z →
  let frames := take (Z.to_nat (spec_ceil_div size (page_size e))) (free_frames (memory e)) in
  ∃ e' f,
    allocate_memory e size = (e', Ok (Z.of_nat f * page_size e)%Z) ∧
    memory e' = fill (allocated_frame (next_id e)) frames (memory e) ∧
    (∀ j, j ∉ frames → memory e' !! j = memory e !! j) ∧
    (∀ j j', j ∈ frames → j' ∈ free_frames (memory e) → j' ∉ frames → j < j') ∧
    page_table e' = <[next_id e := frames]> (page_table e) ∧
    page_faults e' = page_faults e.
Proof.
  intros Hr Hpos Hfree frames.
  destruct (reachable_well_formed e Hr) as (Hinv&Hps&Htot&Htf).
  assert (0 < size ≤ total_frames e * page_size e)%Z as Hsize.
  { split; [done|]. apply spec_ceil_div_least; [done|].
    pose proof (free_plus_allocated_count (memory e)). lia. }
  destruct (allocate_memory_reachable_spec e size e Hr Hsize)
    as (Hn&_&_&e'&f&Hal&_&_&Hmem&Hpt&_&_&Hpf&_).
  { by rewrite decide_False by lia. }
  exists e', f. split; [done|]. split; [done|]. split.
  { intros j Hj. rewrite Hmem. by apply lookup_fill_ne. }
  split.
  { intros j j'. apply take_sorted_lowest, free_frames_sorted. }
  split; [done|]. rewrite Hpf. lia.
Qed.

(** * Counters, ids and the log only grow *)

Lemma evicts_only_refl e : evicts_only e e.
Proof. by constructor. Qed.

Lemma evicts_only_trans e1 e2 e3 : evicts_only e1 e2 → evicts_only e2 e3 → evicts_only e1 e3.
Proof. intros [] []. constructor; (congruence || lia). Qed.

Lemma evict_evicts_only e o i : evicts_only e (evict e o i).
Proof.
  unfold evict. destruct o; [|apply evicts_only_refl].
  case_decide; [apply evicts_only_refl|]. constructor; simpl; (done || lia).
Qed.

Lemma select_victim_evicts_only e e' o i :
  select_victim e = Some (e', o, i) → evicts_only e e'.
Proof.
  unfold select_victim. intros H. repeat case_decide.
  - destruct (page_queue e) as [|[pid j] q].
    + destruct (first_allocated (memory e)) as [[j o']|]; [|done].
      injection H as <- _ _. apply evicts_only_refl.
    + injection H as <- _ _. by constructor.
  - destruct (page_access_time e) as [|kv d].
    + destruct (first_allocated (memory e)) as [[j o']|]; [|done].
      injection H as <- _ _. apply evicts_only_refl.
    + injection H as <- _ _. by constructor.
  - destruct (first_allocated (memory e)) as [[j o']|]; [|done].
    injection H as <- _ _. apply evicts_only_refl.
Qed.

Lemma replace_one_evicts_only e : evicts_only e (replace_one e).1.
Proof.
  unfold replace_one.
  destruct (select_victim e) as [[[e' o] i]|] eqn:Hsel; [|apply evicts_only_refl].
  cbn [fst]. eapply evicts_only_trans; [by eapply select_victim_evicts_only|].
  apply evict_evicts_only.
Qed.

Lemma replace_loop_evicts_only n : ∀ e, evicts_only e (replace_loop n e).
Proof.
  induction n as [|n IH]; intros e; simpl; [apply evicts_only_refl|].
  pose proof (replace_one_evicts_only e) as H1.
  destruct (replace_one e) as [e' []]; simpl in H1; [done|].
  eapply evicts_only_trans; [done|apply IH].
Qed.

Lemma _replace_pages_evicts_only e n : evicts_only e (_replace_pages e n).
Proof.
  unfold _replace_pages. case_decide; [apply evicts_only_refl|apply replace_loop_evicts_only].
Qed.

Lemma continues_refl e : continues e e.
Proof.
  repeat split; try done. exists []. rewrite app_nil_r. split; [done|].
  split; [constructor|]. by intros ? ?%elem_of_nil.
Qed.

Lemma allocate_ids_app l1 l2 : allocate_ids (l1 ++ l2) = allocate_ids l1 ++ allocate_ids l2.
Proof. apply omap_app. Qed.

Lemma continues_trans e1 e2 e3 : continues e1 e2 → continues e2 e3 → continues e1 e3.
Proof.
  intros (?&?&?&?&new1&Hops1&Hnd1&Hids1) (?&?&?&?&new2&Hops2&Hnd2&Hids2).
  repeat split; try lia. exists (new1 ++ new2).
  split; [by rewrite Hops2, Hops1, app_assoc|]. rewrite allocate_ids_app. split.
  - apply list.NoDup_app. split; [done|]. split; [|done].
    intros pid Hp1 Hp2. apply Hids1 in Hp1. apply Hids2 in Hp2. lia.
  - intros pid [Hp|Hp]%elem_of_app; [apply Hids1 in Hp|apply Hids2 in Hp]; lia.
Qed.

(** A step that appends one record that is no allocate. *)
Lemma continues_logging e e' rec :
  page_faults e ≤ page_faults e' → memory_accesses e ≤ memory_accesses e' →
  page_hits e ≤ page_hits e' → next_id e ≤ next_id e' →
  operations e' = operations e ++ [rec] →
  allocate_ids [rec] = [] →
  continues e e'.
Proof.
  intros ???? Hops Hids. repeat split; try done. exists [rec].
  split; [done|]. rewrite Hids. split; [constructor|]. by intros ? ?%elem_of_nil.
Qed.

Lemma continues_silent e e' :
  page_faults e ≤ page_faults e' → memory_accesses e ≤ memory_accesses e' →
  page_hits e ≤ page_hits e' → next_id e ≤ next_id e' →
  operations e' = operations e →
  continues e e'.
Proof.
  intros ???? Hops. repeat split; try done. exists []. rewrite app_nil_r.
  split; [done|]. split; [constructor|]. by intros ? ?%elem_of_nil.
Qed.

Lemma allocate_memory_continues e size : continues e (allocate_memory e size).1.
Proof.
  unfold allocate_memory, allocate_pages.
  case_decide; [apply continues_refl|]. case_decide; [apply continues_refl|].
  set (e1 := if decide (_ < _)%Z then _ else e).
  assert (evicts_only e e1) as [Hops1 Hnid1 Hma1 Hph1 Hpf1].
  { subst e1. case_decide; [apply _replace_pages_evicts_only|apply evicts_only_refl]. }
  set (fs := py_slice_to _ _).
  set (e2 := foldl _ _ fs).
  assert (page_faults e2 = page_faults e1 ∧ page_hits e2 = page_hits e1 ∧
          operations e2 = operations e1 ∧ next_id e2 = next_id e1 + 1 ∧
          memory_accesses e2 = memory_accesses e1) as (Hpf&Hph&Hops&Hnid&Hma).
  { subst e2.
    destruct (allocate_fold_counters (next_id e1) fs fs (set_next_id (next_id e1 + 1) e1))
      as (->&->&->).
    rewrite allocate_fold_next_id, allocate_fold_memory_accesses. done. }
  assert (continues e (set_operations
            (operations e2 ++ [OpAllocate (next_id e1) size fs]) e2)) as Hc.
  { repeat split; simpl; try lia. exists [OpAllocate (next_id e1) size fs].
    split; [by rewrite Hops, Hops1|]. simpl. split; [apply NoDup_singleton|].
    intros pid ->%list_elem_of_singleton. lia. }
  by destruct fs.
Qed.

Lemma deallocate_frame_continues e i fr : continues e (deallocate_frame e i fr).1.
Proof.
  unfold deallocate_frame. destruct (frame_id fr) as [pid|]; [|apply continues_refl].
  cbn [fst]. set (fs := match _ with [] => _ | _ => _ end).
  destruct (free_fold_other pid fs e) as (_&_&_&_&_&_&Hpf&Hma&Hph&Hops&Hnid).
  eapply continues_logging; simpl; rewrite ?Hpf, ?Hma, ?Hph, ?Hops, ?Hnid; done.
Qed.

Lemma deallocate_memory_continues e address : continues e (deallocate_memory e address).1.
Proof.
  unfold deallocate_memory.
  repeat case_decide; try apply continues_refl.
  destruct (memory e !! _); [|apply continues_refl].
  case_decide; [|apply deallocate_frame_continues].
  destruct (allocated_frames _) as [|[? ?] ?];
    [apply continues_refl|apply deallocate_frame_continues].
Qed.

Lemma _handle_page_fault_fields e i :
  operations (_handle_page_fault e i) = operations e ∧
  next_id e ≤ next_id (_handle_page_fault e i).
Proof.
  unfold _handle_page_fault. destruct (memory e !! i) as [fr|]; [|done].
  destruct (status fr); [|done]. simpl. repeat case_decide; simpl; split; (done || lia).
Qed.

Lemma access_memory_continues e address : continues e (access_memory e address).1.
Proof.
  unfold access_memory, access_frame. case_decide; [apply continues_refl|].
  cbn zeta. destruct (py_index _ _) as [fr|].
  - case_decide; cbn [fst].
    + set (e1 := set_page_faults _ _).
      destruct (_handle_page_fault_counters e1 (Z.to_nat (access_frame_num e address)))
        as (Hpf&Hma&Hph).
      destruct (_handle_page_fault_fields e1 (Z.to_nat (access_frame_num e address)))
        as (Hops&Hnid).
      eapply continues_logging; simpl; rewrite ?Hpf, ?Hma, ?Hph, ?Hops; subst e1; simpl;
        try done; try lia.
    + destruct (decide (algorithm (set_page_hits (page_hits
                (set_memory_accesses (memory_accesses e + 1) e) + 1)
                (set_memory_accesses (memory_accesses e + 1) e)) = "LRU"));
        eapply continues_logging; simpl; try done; lia.
  - apply continues_silent; simpl; (done || lia).
Qed.

Lemma step_continues e o : continues e (step e o).
Proof.
  destruct o; simpl;
    auto using allocate_memory_continues, deallocate_memory_continues,
      access_memory_continues.
Qed.

Lemma run_continues ops : ∀ e, continues e (run e ops).
Proof.
  unfold run. induction ops as [|o ops IH]; intros e; simpl; [apply continues_refl|].
  eapply continues_trans; [apply step_continues|apply IH].
Qed.

(** X4. Over any sequence of operations, on any engine, no counter ever goes
    down: [page_faults], [memory_accesses], [page_hits] and [next_id] after
    the sequence are at least what they were before. *)
Theorem counters_never_decrease e ops :
  page_faults e ≤ page_faults (run e ops) ∧
  memory_accesses e ≤ memory_accesses (run e ops) ∧
  page_hits e ≤ page_hits (run e ops) ∧
  next_id e ≤ next_id (run e ops).
Proof. destruct (run_continues ops e) as (?&?&?&?&_). done. Qed.

(** X5. The operation log is append-only: over any sequence of operations,
    failed calls included, the log before is a prefix of the log after. *)
Theorem operations_append_only e ops :
  operations e `prefix_of` operations (run e ops).
Proof. destruct (run_continues ops e) as (_&_&_&_&new&Hops&_). by exists new. Qed.

(** X6. Owner ids are never reused: in the log of an engine built by [init]
    and driven by any sequence of operations, the allocate records carry
    pairwise distinct owner ids, each at least 1 and below [next_id], also
    after their allocations were evicted or deallocated. *)
Theorem allocate_owner_ids_never_reused technique msize psize alg e0 ops :
  init technique msize psize alg = Ok e0 →
  NoDup (allocate_ids (operations (run e0 ops))) ∧
  ∀ pid, pid ∈ allocate_ids (operations (run e0 ops)) → 1 ≤ pid < next_id (run e0 ops).
Proof.
  intros [_ ->]%init_Ok.
  destruct (run_continues ops (Engine technique msize psize alg (msize / psize)
              (replicate (Z.to_nat (msize / psize)) free_frame) ∅ [] [] 0 0 0 [] 1))
    as (_&_&_&_&new&Hops&Hnd&Hids).
  simpl in Hops, Hids. rewrite Hops. done.
Qed.

(** * Reachable engines stay reachable *)

Lemma reachable_step e o : reachable e → reachable (step e o).
Proof.
  intros (t&ms&ps&alg&e0&ops&Hcfg&Hinit&->).
  exists t, ms, ps, alg, e0, (ops ++ [o]). split; [done|]. split; [done|].
  unfold run. by rewrite foldl_app.
Qed.

(** * Outcomes of deallocation *)

(** X7. On a reachable engine [deallocate_memory] succeeds exactly when the
    frame index of the address is in bounds and some frame is allocated; out
    of bounds it raises the invalid-address error, and in bounds with nothing
    allocated the nothing-allocated error, in both cases leaving the engine
    as it was. No other error can occur. *)
Theorem deallocate_memory_outcome e address :
  reachable e →
  let frame_num := (address / page_size e)%Z in
  ((frame_num < 0 ∨ total_frames e ≤ frame_num)%Z →
   deallocate_memory e address = (e, Raise (ValueError InvalidAddress))) ∧
  ((0 ≤ frame_num < total_frames e)%Z → (∀ i, ¬ frame_allocated e i) →
   deallocate_memory e address = (e, Raise (ValueError NoAllocatedMemory))) ∧
  ((deallocate_memory e address).2 = Ok () ↔
   (0 ≤ frame_num < total_frames e)%Z ∧ ∃ i, frame_allocated e i).
Proof.
  intros Hr frame_num.
  destruct (reachable_well_formed e Hr) as (Hinv&Hps&Htot&Htf).
  assert (∀ i fr, memory e !! i = Some fr → status fr = allocated →
                  (deallocate_frame e i fr).2 = Ok ()) as Hok.
  { intros i fr Hi Hst.
    destruct (frames_table _ _ _ (inv_table _ Hinv) _ _ Hi Hst) as (pid&fs&->&_&_).
    destruct (deallocate_frame_spec e i pid Hinv Hi) as (?&?&_&_&->&_). done. }
  assert ((frame_num < 0 ∨ total_frames e ≤ frame_num)%Z →
          deallocate_memory e address = (e, Raise (ValueError InvalidAddress))) as Hout.
  { intros Hb. unfold deallocate_memory. rewrite decide_False by lia.
    fold frame_num. rewrite decide_True by lia. done. }
  assert ((0 ≤ frame_num < total_frames e)%Z → (∀ i, ¬ frame_allocated e i) →
          deallocate_memory e address = (e, Raise (ValueError NoAllocatedMemory))) as Hnone.
  { intros Hb Hno. unfold deallocate_memory. rewrite decide_False by lia.
    fold frame_num. rewrite decide_False by lia.
    destruct (lookup_lt_is_Some_2 (memory e) (Z.to_nat frame_num)) as [fr Hfr]; [lia|].
    rewrite Hfr. rewrite decide_True.
    2: { intros Hst. apply (Hno (Z.to_nat frame_num)). by exists fr. }
    destruct (allocated_frames (memory e)) as [|[i f] l] eqn:Hal; [done|].
    apply allocated_frames_head in Hal as (Hi&Hf&_). destruct (Hno i). by exists f. }
  split; [done|]. split; [done|]. split.
  - intros Hres.
    destruct (decide (0 ≤ frame_num < total_frames e)%Z) as [Hb|Hb].
    + split; [done|].
      destruct (allocated_frames (memory e)) as [|[i f] l] eqn:Hal.
      * rewrite Hnone in Hres; [done|done|].
        intros i (fr&Hi&Hst).
        assert ((i, fr) ∈ allocated_frames (memory e)) as Hin
          by (by apply elem_of_allocated_frames).
        rewrite Hal in Hin. by apply elem_of_nil in Hin.
      * apply allocated_frames_head in Hal as (Hi&Hf&_). exists i. by exists f.
    + rewrite Hout in Hres by lia. done.
  - intros (Hb&i0&fr0&Hi0&Hst0).
    unfold deallocate_memory. rewrite decide_False by lia.
    fold frame_num. rewrite decide_False by lia.
    destruct (lookup_lt_is_Some_2 (memory e) (Z.to_nat frame_num)) as [fr Hfr]; [lia|].
    rewrite Hfr. case_decide as Hst.
    + destruct (allocated_frames (memory e)) as [|[i f] l] eqn:Hal.
      * assert ((i0, fr0) ∈ allocated_frames (memory e)) as Hin
          by (by apply elem_of_allocated_frames).
        rewrite Hal in Hin. by apply elem_of_nil in Hin.
      * apply allocated_frames_head in Hal as (Hi&Hf&_). by apply Hok.
    + apply Hok; [done|]. destruct (status fr); [|done]. by destruct Hst.
Qed.

(** * A fault pages the frame in *)

Lemma _handle_page_fault_free e i fr :
  memory e !! i = Some fr →
  status fr = free →
  page_table e !! next_id e = None →
  memory (_handle_page_fault e i) = <[i := allocated_frame (next_id e)]> (memory e) ∧
  page_table (_handle_page_fault e i) = <[next_id e := [i]]> (page_table e) ∧
  next_id (_handle_page_fault e i) = next_id e + 1.
Proof.
  intros Hi Hst Hfresh. unfold _handle_page_fault. rewrite Hi, Hst.
  cbn zeta. cbn [page_table set_next_id set_memory]. rewrite Hfresh.
  repeat case_decide; done.
Qed.

Lemma access_memory_fault e address fr :
  engine_inv e →
  page_size e ≠ 0%Z →
  memory e ≠ [] →
  memory e !! Z.to_nat (access_frame_num e address) = Some fr →
  status fr = free →
  let i := Z.to_nat (access_frame_num e address) in
  let e' := (access_memory e address).1 in
  (access_memory e address).2 = Ok false ∧
  memory e' = <[i := allocated_frame (next_id e)]> (memory e) ∧
  page_table e' = <[next_id e := [i]]> (page_table e) ∧
  next_id e' = next_id e + 1 ∧
  operations e' = operations e ++ [OpAccess address fault].
Proof.
  intros Hinv Hps Hne Hfr Hst i e'. subst e'.
  destruct (py_index_access_frame_num e address Hne) as [Hpy _].
  unfold access_memory, access_frame. rewrite decide_False by done.
  cbn zeta. cbn [memory set_memory_accesses]. rewrite Hpy, Hfr.
  rewrite decide_True by (by rewrite Hst). cbn [fst snd]. split; [done|].
  assert (page_table e !! next_id e = None) as Hfresh.
  { destruct (page_table e !! next_id e) eqn:E; [|done].
    assert (next_id e < next_id e) by (eapply table_fresh; [apply Hinv|eauto]). lia. }
  set (e1 := set_page_faults _ _).
  destruct (_handle_page_fault_free e1 i fr Hfr Hst Hfresh) as (Hmem&Hpt&Hnid).
  destruct (_handle_page_fault_fields e1 i) as (Hops&_).
  simpl. fold i. rewrite Hmem, Hpt, Hnid, Hops. done.
Qed.

(** X8. On a reachable engine an access to a frame that is not allocated is
    a fault that pages exactly that frame in: it goes to the fresh owner
    [next_id], which enters the page table with that single frame, no other
    frame changes, and the same access repeated at once is a hit. *)
Theorem access_fault_then_hit e address :
  reachable e →
  ¬ frame_allocated e (Z.to_nat (access_frame_num e address)) →
  let i := Z.to_nat (access_frame_num e address) in
  let e' := (access_memory e address).1 in
  (access_memory e address).2 = Ok false ∧
  memory e' = <[i := allocated_frame (next_id e)]> (memory e) ∧
  page_table e' = <[next_id e := [i]]> (page_table e) ∧
  next_id e' = next_id e + 1 ∧
  (access_memory e' address).2 = Ok true.
Proof.
  intros Hr Hfree i e'.
  destruct (reachable_well_formed e Hr) as (Hinv&Hps&Htot&Htf).
  pose proof (reachable_memory_nonempty e Hr) as Hne.
  destruct (py_index_access_frame_num e address Hne) as [_ [fr Hfr]].
  assert (status fr = free) as Hst.
  { destruct (status fr) eqn:E; [done|]. destruct Hfree. by exists fr. }
  destruct (access_memory_fault e address fr Hinv) as (Hres&Hmem&Hpt&Hnid&_);
    [lia|done|done|done|].
  fold i in Hmem, Hpt. fold e' in Hmem, Hpt, Hnid.
  split; [done|]. split; [done|]. split; [done|]. split; [done|].
  assert (reachable e') as Hr' by apply (reachable_step e (Access address) Hr).
  destruct (access_memory_same_shape e address) as [_ _ Hps' _ _ Hlen'].
  fold e' in Hps', Hlen'.
  assert (access_frame_num e' address = access_frame_num e address) as Hfn.
  { unfold access_frame_num. by rewrite Hps', Hlen'. }
  destruct (access_memory_result e' address) as (fr'&Hfr'&Hres'&_).
  { rewrite Hps'. lia. }
  { by apply reachable_memory_nonempty. }
  rewrite Hfn in Hfr'. fold i in Hfr'. rewrite Hmem in Hfr'.
  rewrite list_lookup_insert_eq in Hfr' by (by eapply lookup_lt_Some).
  injection Hfr' as <-. rewrite Hres'. done.
Qed.

(** * Frames are only ever written whole *)

Lemma clean_frame_free : clean_frame free_frame.
Proof. by left. Qed.

Lemma clean_frame_allocated pid : clean_frame (allocated_frame pid).
Proof. right. by exists pid. Qed.

Lemma Forall_clean_insert mem i fr :
  Forall clean_frame mem → clean_frame fr → Forall clean_frame (<[i:=fr]> mem).
Proof.
  intros Hmem Hfr. destruct (decide (i < length mem)).
  - by apply Forall_insert.
  - rewrite list_insert_ge; [done|lia].
Qed.

Lemma Forall_clean_fill fr fs : ∀ mem,
  Forall clean_frame mem → clean_frame fr → Forall clean_frame (fill fr fs mem).
Proof.
  unfold fill. induction fs as [|j fs IH]; intros mem Hmem Hfr; simpl; [done|].
  apply IH; [|done]. by apply Forall_clean_insert.
Qed.

Lemma select_victim_memory e e' o i :
  select_victim e = Some (e', o, i) → memory e' = memory e.
Proof.
  unfold select_victim. intros H. repeat case_decide.
  - destruct (page_queue e) as [|[pid j] q].
    + destruct (first_allocated (memory e)) as [[j o']|]; [|done]. by injection H as <- _ _.
    + by injection H as <- _ _.
  - destruct (page_access_time e) as [|kv d].
    + destruct (first_allocated (memory e)) as [[j o']|]; [|done]. by injection H as <- _ _.
    + by injection H as <- _ _.
  - destruct (first_allocated (memory e)) as [[j o']|]; [|done]. by injection H as <- _ _.
Qed.

Lemma replace_one_clean e :
  Forall clean_frame (memory e) → Forall clean_frame (memory (replace_one e).1).
Proof.
  intros Hc. unfold replace_one.
  destruct (select_victim e) as [[[e' o] i]|] eqn:Hsel; [|done].
  apply select_victim_memory in Hsel. cbn [fst]. unfold evict.
  destruct o; [|by rewrite Hsel]. case_decide; [by rewrite Hsel|].
  simpl. rewrite Hsel. by apply Forall_clean_insert, clean_frame_free.
Qed.

Lemma replace_loop_clean n : ∀ e,
  Forall clean_frame (memory e) → Forall clean_frame (memory (replace_loop n e)).
Proof.
  induction n as [|n IH]; intros e Hc; simpl; [done|].
  pose proof (replace_one_clean e Hc) as H1.
  destruct (replace_one e) as [e' []]; simpl in H1; auto.
Qed.

Lemma allocate_memory_clean e size :
  Forall clean_frame (memory e) → Forall clean_frame (memory (allocate_memory e size).1).
Proof.
  intros Hc. unfold allocate_memory, allocate_pages.
  case_decide; [done|]. case_decide; [done|].
  set (e1 := if decide (_ < _)%Z then _ else e).
  assert (Forall clean_frame (memory e1)) as Hc1.
  { subst e1. case_decide; [|done]. unfold _replace_pages.
    case_decide; [done|]. by apply replace_loop_clean. }
  set (fs := py_slice_to _ _). set (e2 := foldl _ _ fs).
  assert (Forall clean_frame (memory e2)) as Hc2.
  { subst e2. rewrite allocate_fold_memory. simpl.
    by apply Forall_clean_fill, clean_frame_allocated. }
  by destruct fs.
Qed.

Lemma deallocate_memory_clean e address :
  Forall clean_frame (memory e) → Forall clean_frame (memory (deallocate_memory e address).1).
Proof.
  intros Hc.
  assert (∀ i fr, Forall clean_frame (memory (deallocate_frame e i fr).1)) as Hframe.
  { intros i fr. unfold deallocate_frame. destruct (frame_id fr); [|done].
    cbn [fst]. simpl. rewrite free_fold_memory.
    by apply Forall_clean_fill, clean_frame_free. }
  unfold deallocate_memory. case_decide; [done|]. case_decide; [done|].
  destruct (memory e !! _); [|done]. case_decide; [|apply Hframe].
  destruct (allocated_frames _) as [|[? ?] ?]; [done|apply Hframe].
Qed.

Lemma _handle_page_fault_clean e i :
  Forall clean_frame (memory e) → Forall clean_frame (memory (_handle_page_fault e i)).
Proof.
  intros Hc. unfold _handle_page_fault. destruct (memory e !! i) as [fr|]; [|done].
  destruct (status fr); [|done].
  assert (Forall clean_frame (<[i:=allocated_frame (next_id e)]> (memory e))) as Hc'
    by (by apply Forall_clean_insert, clean_frame_allocated).
  simpl. repeat case_decide; done.
Qed.

Lemma access_memory_clean e address :
  Forall clean_frame (memory e) → Forall clean_frame (memory (access_memory e address).1).
Proof.
  intros Hc. unfold access_memory, access_frame. case_decide; [done|].
  cbn zeta. destruct (py_index _ _) as [fr|]; [|done].
  case_decide; cbn [fst].
  - simpl. by apply _handle_page_fault_clean.
  - simpl. by case_decide.
Qed.

Lemma reachable_clean e : reachable e → Forall clean_frame (memory e).
Proof.
  intros (t&ms&ps&alg&e0&ops&_&Hinit&->).
  apply init_Ok in Hinit as [_ ->].
  set (e0 := Engine _ _ _ _ _ _ _ _ _ _ _ _ _ _).
  assert (Forall clean_frame (memory e0)) as Hc.
  { simpl. apply Forall_replicate, clean_frame_free. }
  clearbody e0. revert e0 Hc. unfold run.
  induction ops as [|o ops IH]; intros e Hc; simpl; [done|].
  apply IH. destruct o; simpl;
    auto using allocate_memory_clean, deallocate_memory_clean, access_memory_clean.
Qed.

Lemma fill_free_fill_allocated pid fs mem :
  (∀ j, j ∈ fs → mem !! j = Some free_frame) →
  fill free_frame fs (fill (allocated_frame pid) fs mem) = mem.
Proof.
  intros Hfs. apply list_eq. intros i.
  destruct (decide (i ∈ fs)) as [Hin|Hnin].
  - rewrite lookup_fill_eq, Hfs; [done|done|done|].
    rewrite length_fill. eapply lookup_lt_Some, Hfs, Hin.
  - by rewrite !lookup_fill_ne.
Qed.

(** X9. Round trip: on a reachable engine, an allocation served from the
    free frames alone and then deallocated at the address it returned leaves
    the frame array and the page table exactly as before the allocation; only
    [next_id] remembers it. *)
Theorem allocate_deallocate_round_trip e size :
  reachable e →
  (0 < size)%Z →
  (spec_ceil_div size (page_size e) ≤ Z.of_nat (length (free_frames (memory e))))%Z →
  ∃ e1 address e2,
    allocate_memory e size = (e1, Ok address) ∧
    deallocate_memory e1 address = (e2, Ok ()) ∧
    memory e2 = memory e ∧
    page_table e2 = page_table e ∧
    next_id e2 = next_id e + 1.
Proof.
  intros Hr Hpos Hfree.
  destruct (reachable_well_formed e Hr) as (Hinv&Hps&Htot&Htf).
  assert (0 < size ≤ total_frames e * page_size e)%Z as Hsize.
  { split; [done|]. apply spec_ceil_div_least; [done|].
    pose proof (free_plus_allocated_count (memory e)). lia. }
  destruct (allocate_memory_reachable_spec e size e Hr Hsize)
    as (Hn&_&_&e1&f&Hal&Hhead&_&Hmem&Hpt&Hnid&_).
  { by rewrite decide_False by lia. }
  set (frames := take _ (free_frames (memory e))) in *.
  assert (reachable e1) as Hr1.
  { pose proof (reachable_step e (Allocate size) Hr) as H. simpl in H. by rewrite Hal in H. }
  destruct (reachable_well_formed e1 Hr1) as (Hinv1&Hps1&_&_).
  assert (page_size e1 = page_size e) as Hpse.
  { pose proof (shape_page_size _ _ (allocate_memory_same_shape e size)) as H.
    by rewrite Hal in H. }
  assert (f ∈ frames) as Hf by (destruct frames; simplify_eq/=; left).
  assert (∀ j, j ∈ frames → memory e !! j = Some free_frame) as Hclean.
  { intros j Hj.
    assert (j ∈ free_frames (memory e)) as (fr&Hfr&Hst)%elem_of_free_frames
      by (eapply elem_of_sublist; [exact Hj|apply sublist_take]).
    pose proof (reachable_clean e Hr) as Hc. rewrite Forall_lookup in Hc.
    destruct (Hc _ _ Hfr) as [->|[pid ->]]; done. }
  assert (memory e1 !! f = Some (allocated_frame (next_id e))) as Hf1.
  { rewrite Hmem. apply lookup_fill_eq; [done|]. eapply lookup_lt_Some, Hclean, Hf. }
  destruct (deallocate_frame_spec e1 f (next_id e) Hinv1 Hf1)
    as (fs&e2&Hfs&_&Hde&Hmem2&Hpt2&_&_&_&_&_&_&Hnid2).
  assert (fs = frames) as ->.
  { rewrite Hpt, lookup_insert_eq in Hfs. by injection Hfs. }
  exists e1, (Z.of_nat f * page_size e)%Z, e2. split; [done|]. split.
  { rewrite <- Hpse.
    rewrite (deallocate_memory_at_allocated e1 f (allocated_frame (next_id e)));
      [done|lia|done|done]. }
  split; [by rewrite Hmem2, Hmem, fill_free_fill_allocated|]. split; [|lia].
  rewrite Hpt2, Hpt. apply delete_insert_id.
  destruct (page_table e !! next_id e) eqn:E; [|done].
  assert (next_id e < next_id e) by (eapply table_fresh; [apply Hinv|eauto]). lia.
Qed.

(** * The state snapshot *)

(** X10. The operations shown by [get_current_state] are the tail of the log:
    all of it while it holds at most ten records, its last ten afterwards, in
    log order and ending with the latest record. *)
Theorem recent_operations_last_ten e :
  recent_operations e `suffix_of` operations e ∧
  length (recent_operations e) = length (operations e) `min` 10 ∧
  (length (operations e) ≤ 10 → recent_operations e = operations e) ∧
  last (recent_operations e) = last (operations e).
Proof.
  assert (recent_operations e = drop (length (operations e) - 10) (operations e)) as ->.
  { unfold recent_operations, py_slice_from. by destruct (operations e). }
  split; [apply suffix_drop|]. split; [rewrite length_drop; lia|]. split.
  - intros Hle. replace (length (operations e) - 10) with 0 by lia. done.
  - destruct (decide (length (operations e) ≤ 10)) as [Hle|Hgt].
    + replace (length (operations e) - 10) with 0 by lia. done.
    + rewrite <- (take_drop (length (operations e) - 10) (operations e)) at 3.
      rewrite last_app.
      destruct (last (drop _ _)) eqn:E; [done|].
      apply last_None in E. apply (f_equal length) in E.
      rewrite length_drop in E. simpl in E. lia.
Qed.

(** * The replacement metadata misses no allocated frame *)

Lemma elem_of_dict_del_keys {K} `{EqDecision K} (k k' : K) (d : list (K * nat)) :
  k' ∈ d.*1 → k' ≠ k → k' ∈ (dict_del k d).*1.
Proof.
  intros ([k0 v]&->&Hin)%list_elem_of_fmap Hne.
  apply list_elem_of_fmap. exists (k0, v). split; [done|].
  by apply list_elem_of_filter.
Qed.

Lemma elem_of_dict_set_many_keys pid t fs : ∀ (d : list ((option nat * nat) * nat)) k,
  k ∈ (foldl (λ d j, dict_set (Some pid, j) t d) d fs).*1 ↔
  k ∈ d.*1 ∨ ∃ j, j ∈ fs ∧ k = (Some pid, j).
Proof.
  induction fs as [|j fs IH]; intros d k; simpl.
  - split; [by left|]. intros [?|(j&Hj&_)]; [done|]. by apply elem_of_nil in Hj.
  - rewrite IH, elem_of_dict_set_keys. split.
    + intros [[->|?]|(j'&Hj'&->)]; [right|by left|right].
      * exists j. split; [left|done].
      * exists j'. split; [by right|done].
    + intros [?|(j'&Hj'&->)]; [left; by right|].
      apply elem_of_cons in Hj' as [->|Hj']; [left; by left|right; by exists j'].
Qed.

(** The selection drops from the metadata nothing but entries of the
    victim's frame. *)
Lemma select_victim_keeps_others e e1 o i :
  select_victim e = Some (e1, o, i) →
  (∀ pid j, (pid, j) ∈ page_queue e → j ≠ i → (pid, j) ∈ page_queue e1) ∧
  (∀ k, k ∈ (page_access_time e).*1 → k.2 ≠ i → k ∈ (page_access_time e1).*1).
Proof.
  unfold select_victim. intros H. repeat case_decide.
  - destruct (page_queue e) as [|[pid j] q] eqn:Hq.
    + destruct (first_allocated (memory e)) as [[j o']|]; [|done].
      injection H as <- _ _. rewrite Hq. by split.
    + injection H as <- _ <-. simpl. split; [|done].
      intros pid' j' [[= -> ->]|?]%elem_of_cons Hne; done.
  - destruct (page_access_time e) as [|kv d] eqn:Hd.
    + destruct (first_allocated (memory e)) as [[j o']|]; [|done].
      injection H as <- _ _. rewrite Hd. by split.
    + injection H as <- _ <-. simpl. split; [done|].
      intros k Hk Hne. apply elem_of_dict_del_keys; [done|].
      intros ->. done.
  - destruct (first_allocated (memory e)) as [[j o']|]; [|done].
    injection H as <- _ _. by split.
Qed.

Lemma select_victim_algorithm e e1 o i :
  select_victim e = Some (e1, o, i) → algorithm e1 = algorithm e.
Proof. intros H. apply (shape_algorithm _ _ (select_victim_same_shape _ _ _ _ H)). Qed.

(** On an engine that satisfies the invariant the victim selected is a frame
    allocated to the owner named. *)
Lemma select_victim_sound e e1 o i :
  engine_inv e →
  select_victim e = Some (e1, o, i) →
  ∃ pid, o = Some pid ∧ memory e !! i = Some (allocated_frame pid).
Proof.
  intros [Ht Hq Hd _ _] H.
  assert (∀ j o', first_allocated (memory e) = Some (j, o') →
                  ∃ pid, o' = Some pid ∧ memory e !! j = Some (allocated_frame pid)) as Hfa.
  { intros j o' (fr&Hj&Hst&<-)%first_allocated_Some.
    destruct (frames_table _ _ _ Ht _ _ Hj Hst) as (pid&fs&->&_&_). by exists pid. }
  unfold select_victim in H. repeat case_decide.
  - destruct (page_queue e) as [|[pid j] q] eqn:Hqe.
    + destruct (first_allocated (memory e)) as [[j o']|] eqn:E; [|done].
      injection H as _ <- <-. by apply Hfa.
    + injection H as _ <- <-. exists pid. split; [done|].
      apply (queue_frames _ _ Hq). left.
  - destruct (page_access_time e) as [|kv d] eqn:Hde.
    + destruct (first_allocated (memory e)) as [[j o']|] eqn:E; [|done].
      injection H as _ <- <-. by apply Hfa.
    + injection H as _ <- <-.
      apply (times_frames _ _ Hd). apply list_elem_of_fmap.
      exists (min_by_value kv d). split; [done|]. apply min_by_value_elem_of.
  - destruct (first_allocated (memory e)) as [[j o']|] eqn:E; [|done].
    injection H as _ <- <-. by apply Hfa.
Qed.

Lemma replace_one_complete e :
  engine_inv e → metadata_complete e → metadata_complete (replace_one e).1.
Proof.
  intros Hinv [Hq Hd]. unfold replace_one.
  destruct (select_victim e) as [[[e1 o] i]|] eqn:Hsel; [|done].
  pose proof (select_victim_memory _ _ _ _ Hsel) as Hmem.
  pose proof (select_victim_algorithm _ _ _ _ Hsel) as Halg.
  destruct (select_victim_keeps_others _ _ _ _ Hsel) as [Hkq Hkd].
  destruct (select_victim_sound _ _ _ _ Hinv Hsel) as (pid&->&Hi).
  apply lookup_lt_Some in Hi as Hlt.
  cbn [fst]. unfold evict. rewrite decide_False by (rewrite Hmem; lia).
  constructor; simpl; rewrite Halg, Hmem; intros Ha p j Hj.
  - destruct (decide (j = i)) as [->|Hne].
    { rewrite list_lookup_insert_eq in Hj by lia. done. }
    rewrite list_lookup_insert_ne in Hj by done. apply Hkq; [by apply Hq|done].
  - destruct (decide (j = i)) as [->|Hne].
    { rewrite list_lookup_insert_eq in Hj by lia. done. }
    rewrite list_lookup_insert_ne in Hj by done. apply Hkd; [by apply Hd|done].
Qed.

Lemma replace_loop_complete n : ∀ e,
  engine_inv e → metadata_complete e → metadata_complete (replace_loop n e).
Proof.
  induction n as [|n IH]; intros e Hinv Hc; simpl; [done|].
  pose proof (replace_one_inv e Hinv) as H1.
  pose proof (replace_one_complete e Hinv Hc) as H2.
  destruct (replace_one e) as [e' []]; simpl in H1, H2; auto.
Qed.

Lemma _replace_pages_complete e n :
  engine_inv e → metadata_complete e → metadata_complete (_replace_pages e n).
Proof.
  intros Hinv Hc. unfold _replace_pages. case_decide; [done|].
  by apply replace_loop_complete.
Qed.

Lemma allocate_memory_complete e size :
  engine_inv e → metadata_complete e → metadata_complete (allocate_memory e size).1.
Proof.
  intros Hinv Hc. unfold allocate_memory, allocate_pages.
  case_decide; [done|]. case_decide; [done|].
  set (e1 := if decide (_ < _)%Z then _ else e).
  assert (metadata_complete e1) as [Hq1 Hd1].
  { subst e1. case_decide; [|done]. by apply _replace_pages_complete. }
  set (fs := py_slice_to _ _). set (e2 := foldl _ _ fs).
  assert (metadata_complete e2) as [Hq2 Hd2].
  { subst e2. constructor;
      rewrite allocate_fold_algorithm, allocate_fold_memory; simpl; intros Ha p j Hj.
    - rewrite allocate_fold_page_queue. simpl. rewrite decide_True by done.
      apply elem_of_app.
      apply lookup_fill in Hj as [[Hin [= ->]]|[_ Hj]]; [right|left; by apply Hq1].
      apply list_elem_of_fmap. by exists j.
    - rewrite allocate_fold_page_access_time. simpl.
      rewrite decide_False by (by rewrite Ha). rewrite decide_True by done.
      apply elem_of_dict_set_many_keys.
      apply lookup_fill in Hj as [[Hin [= ->]]|[_ Hj]]; [right|left; by apply Hd1].
      by exists j. }
  assert (metadata_complete (set_operations
            (operations e2 ++ [OpAllocate (next_id e1) size fs]) e2)) by (by constructor).
  by destruct fs.
Qed.

(** The loop of [deallocate_memory] removes metadata of the owner only. *)
Lemma free_fold_keeps_others pid fs : ∀ e,
  (∀ p j, (p, j) ∈ page_queue e → p ≠ pid →
          (p, j) ∈ page_queue (foldl (free_process_frame pid) e fs)) ∧
  (∀ p j, (Some p, j) ∈ (page_access_time e).*1 → p ≠ pid →
          (Some p, j) ∈ (page_access_time (foldl (free_process_frame pid) e fs)).*1).
Proof.
  induction fs as [|j0 fs IH]; intros e; [done|]. cbn [foldl].
  destruct (IH (free_process_frame pid e j0)) as [IHq IHd]. split.
  - intros p j Hin Hne. apply IHq; [|done].
    rewrite free_process_frame_page_queue. case_decide; [|done].
    by apply list_elem_of_filter.
  - intros p j Hin Hne. apply IHd; [|done].
    rewrite free_process_frame_page_access_time. case_decide; [|done].
    apply list_elem_of_fmap in Hin as ([k v]&Hk&Hin). simpl in Hk. subst k.
    apply list_elem_of_fmap. exists (Some p, j, v). split; [done|].
    apply list_elem_of_filter. split; [|done]. simpl. congruence.
Qed.

Lemma deallocate_frame_complete e i fr :
  engine_inv e →
  metadata_complete e →
  memory e !! i = Some fr →
  status fr = allocated →
  metadata_complete (deallocate_frame e i fr).1.
Proof.
  intros Hinv [Hq Hd] Hi Hst.
  destruct (frames_table _ _ _ (inv_table _ Hinv) _ _ Hi Hst) as (pid&fs&->&Hpt&Hin).
  unfold deallocate_frame. cbn [frame_id allocated_frame]. rewrite Hpt.
  cbn [default]. unfold id.
  assert (match fs with [] => [i] | y :: l => y :: l end = fs) as ->.
  { destruct fs; [by apply elem_of_nil in Hin|done]. }
  destruct (free_fold_other pid fs e) as (_&_&_&Halg&_).
  destruct (free_fold_keeps_others pid fs e) as [Hkq Hkd].
  assert (∀ p j, fill free_frame fs (memory e) !! j = Some (allocated_frame p) →
                 memory e !! j = Some (allocated_frame p) ∧ p ≠ pid) as Hother.
  { intros p j [[_ ?]|[Hnin Hj]]%lookup_fill; [done|]. split; [done|].
    intros ->. apply Hnin.
    destruct (frames_table _ _ _ (inv_table _ Hinv) _ _ Hj eq_refl) as (p'&fs'&Heq&Hpt'&?).
    apply allocated_frame_inj in Heq as <-. congruence. }
  constructor; cbn [fst]; simpl; rewrite Halg, free_fold_memory; intros Ha p j Hj.
  - apply Hother in Hj as [Hj Hne]. apply Hkq; [by apply Hq|done].
  - apply Hother in Hj as [Hj Hne]. apply Hkd; [by apply Hd|done].
Qed.

Lemma deallocate_memory_complete e address :
  engine_inv e → metadata_complete e → metadata_complete (deallocate_memory e address).1.
Proof.
  intros Hinv Hc. unfold deallocate_memory.
  case_decide; [done|]. case_decide; [done|].
  destruct (memory e !! _) as [fr|] eqn:Hfr; [|done].
  case_decide as Hst.
  - destruct (allocated_frames (memory e)) as [|[i f] l] eqn:Hal; [done|].
    apply allocated_frames_head in Hal as (Hi&Hf&_).
    by apply deallocate_frame_complete.
  - apply deallocate_frame_complete; [done|done|done|].
    destruct (status fr); [|done]. by destruct Hst.
Qed.

Lemma _handle_page_fault_complete e i :
  metadata_complete e → metadata_complete (_handle_page_fault e i).
Proof.
  intros [Hq Hd]. unfold _handle_page_fault.
  destruct (memory e !! i) as [fr|] eqn:Hi; [|done].
  destruct (status fr); [|done].
  assert (∀ p j, <[i:=allocated_frame (next_id e)]> (memory e) !! j
                 = Some (allocated_frame p) →
                 (j = i ∧ p = next_id e) ∨ memory e !! j = Some (allocated_frame p)) as Hcase.
  { intros p j Hj. destruct (decide (j = i)) as [->|Hne].
    - rewrite list_lookup_insert_eq in Hj by (by eapply lookup_lt_Some).
      left. by injection Hj as ->.
    - right. by rewrite list_lookup_insert_ne in Hj. }
  cbn zeta. cbn [algorithm set_page_table set_memory set_next_id].
  destruct (decide (algorithm e = "FIFO")) as [Hf|Hnf];
    [|destruct (decide (algorithm e = "LRU")) as [Hl|Hnl]];
    constructor; simpl; intros Ha p j Hj; try congruence;
    apply Hcase in Hj as [[-> ->]|Hj].
  - apply elem_of_app. right. left.
  - apply elem_of_app. left. by apply Hq.
  - apply elem_of_dict_set_keys. by left.
  - apply elem_of_dict_set_keys. right. by apply Hd.
Qed.

Lemma access_memory_complete e address :
  engine_inv e → metadata_complete e → metadata_complete (access_memory e address).1.
Proof.
  intros Hinv [Hq Hd]. unfold access_memory, access_frame. case_decide; [done|].
  cbn zeta. destruct (py_index _ _) as [fr|]; [|by constructor].
  case_decide; cbn [fst].
  - assert (metadata_complete (_handle_page_fault
              (set_page_faults
                 (page_faults (set_memory_accesses (memory_accesses e + 1) e) + 1)
                 (set_memory_accesses (memory_accesses e + 1) e))
              (Z.to_nat (access_frame_num e address)))) as [? ?].
    { apply _handle_page_fault_complete. by constructor. }
    by constructor.
  - simpl. case_decide; constructor; simpl; try done.
    intros Ha p j Hj. apply elem_of_dict_set_keys. right. by apply Hd.
Qed.

Lemma run_complete ops : ∀ e,
  engine_inv e → metadata_complete e → metadata_complete (run e ops).
Proof.
  unfold run. induction ops as [|o ops IH]; intros e Hinv Hc; simpl; [done|].
  apply IH; [by apply step_inv|].
  destruct o; simpl;
    auto using allocate_memory_complete, deallocate_memory_complete,
      access_memory_complete.
Qed.

(** X11. The replacement metadata is exact. In an engine built by [init] and
    driven by any sequence of operations, under FIFO the queue lists each
    allocated (owner, frame) pair once and nothing else, under LRU the keys
    of the clock are exactly these pairs, each once: every key names an
    owner and a frame allocated to it, none has [None] for owner, and every
    allocated frame has its key. The structure of the algorithm not in use
    stays empty. *)
Theorem replacement_metadata_exact technique msize psize alg e0 ops :
  init technique msize psize alg = Ok e0 →
  let e := run e0 ops in
  (algorithm e = "FIFO" →
   NoDup (page_queue e) ∧
   ∀ pid i, (pid, i) ∈ page_queue e ↔ memory e !! i = Some (allocated_frame pid)) ∧
  (algorithm e = "LRU" →
   NoDup (page_access_time e).*1 ∧
   ∀ owner i, (owner, i) ∈ (page_access_time e).*1 ↔
              ∃ pid, owner = Some pid ∧ memory e !! i = Some (allocated_frame pid)) ∧
  (algorithm e ≠ "FIFO" → page_queue e = []) ∧
  (algorithm e ≠ "LRU" → page_access_time e = []).
Proof.
  intros Hinit e.
  pose proof (init_inv _ _ _ _ _ Hinit) as Hinv0.
  assert (metadata_complete e0) as Hc0.
  { apply init_Ok in Hinit as [_ ->]. constructor; simpl; intros _ p j Hj.
    - apply lookup_replicate in Hj as [? _]. done.
    - apply lookup_replicate in Hj as [? _]. done. }
  pose proof (run_inv e0 ops Hinv0) as [Ht Hq Hd Hqa Hda].
  pose proof (run_complete ops e0 Hinv0 Hc0) as [Hcq Hcd].
  fold e in Ht, Hq, Hd, Hqa, Hda, Hcq, Hcd.
  split; [|split; [|done]].
  - intros Ha. split; [apply Hq|]. intros pid i. split; [apply Hq|by apply Hcq].
  - intros Ha. split; [apply Hd|]. intros owner i. split.
    + intros Hin. destruct (times_frames _ _ Hd _ Hin) as (pid&Hpid&Hmem).
      exists pid. split; [exact Hpid|exact Hmem].
    + intros (pid&->&Hmem). by apply Hcd.
Qed.

(** * Tutorial navigation *)

Lemma tutorial_table_ok : tutorials_ok tutorial_table.
Proof.
  intros tutorial_id steps Hl.
  apply (elem_of_list_to_map_2 (M:=gmap string)) in Hl.
  repeat (apply elem_of_cons in Hl as [[= -> ->]|Hl]; [split; [done|discriminate]|]).
  by apply elem_of_nil in Hl.
Qed.

Lemma active_tutorial_Some tm tutorial_id :
  active_tutorial tm = Some tutorial_id ↔
  current_tutorial tm = Some tutorial_id ∧ tutorial_id ≠ EmptyString.
Proof.
  unfold active_tutorial. destruct (current_tutorial tm) as [t|].
  - case_decide as Ht.
    + split; [done|]. intros [[= ->] ?]. done.
    + split; [intros [= ->]; by split|]. by intros [? _].
  - split; [done|]. by intros [? _].
Qed.

Lemma positioned_get_current_step tm :
  positioned tm → is_ok (get_current_step tm) = true.
Proof.
  intros Hpos. unfold get_current_step.
  destruct (active_tutorial tm) as [t|] eqn:Ha; [|done].
  apply active_tutorial_Some in Ha as [Hc _].
  destruct (Hpos t Hc) as (_&steps&->&Hlt).
  destruct (lookup_lt_is_Some_2 steps (current_step tm) Hlt) as [step ->]. done.
Qed.

Lemma positioned_verify_step_completed `{!Interpreter} tm operation_data x :
  positioned tm →
  verify_step_completed tm operation_data = Raise x →
  py_int (default (PyInt 0) (data_size operation_data)) = Raise x ∨
  py_int (default (PyInt (-1)) (data_address operation_data)) = Raise x.
Proof.
  intros Hpos. unfold verify_step_completed.
  destruct (current_tutorial tm) as [t|] eqn:Hc; [|done].
  case_decide; [done|].
  destruct (Hpos t Hc) as (_&steps&->&Hlt).
  destruct (lookup_lt_is_Some_2 steps (current_step tm) Hlt) as [step ->].
  apply verify_step_raises.
Qed.

Lemma run_command_positioned s c :
  tutorials_ok (tutorials (session_manager s)) →
  positioned (session_manager s) →
  tutorials (session_manager (run_command s c).1) = tutorials (session_manager s) ∧
  positioned (session_manager (run_command s c).1).
Proof.
  intros Hok Hpos. destruct s as [[cur cs tbl] done_]. simpl in *.
  destruct c as [tutorial_id| | |]; simpl.
  - unfold start_tutorial. simpl.
    destruct (tbl !! tutorial_id) as [steps|] eqn:Hl; [|done]. simpl.
    split; [done|]. intros t [= <-]. destruct (Hok _ _ Hl) as [Hne Hsteps].
    split; [done|]. exists steps. split; [done|].
    destruct steps; [done|simpl; lia].
  - unfold next_step. simpl.
    destruct (active_tutorial _) as [t|] eqn:Ha; [|done].
    apply active_tutorial_Some in Ha as [Hc Hne]. simpl in Hc.
    destruct (Hpos t Hc) as (_&steps&Hl&Hlt). simpl in Hl, Hlt. rewrite Hl.
    case_decide as Hlast; simpl; [done|].
    split; [done|]. intros t' Ht'. simpl in Ht'. assert (t' = t) as -> by congruence.
    split; [done|]. exists steps. split; [done|]. simpl. lia.
  - unfold previous_step. simpl.
    destruct (active_tutorial _) as [t|] eqn:Ha; [|done].
    apply active_tutorial_Some in Ha as [Hc Hne]. simpl in Hc.
    case_decide; simpl; [done|].
    split; [done|]. intros t' Ht'. simpl in Ht'. assert (t' = t) as -> by congruence.
    destruct (Hpos t Hc) as (_&steps&Hl&Hlt). simpl in Hl, Hlt.
    split; [done|]. exists steps. split; [done|]. simpl. lia.
  - unfold end_tutorial. simpl.
    destruct (active_tutorial _) as [t|] eqn:Ha; [|done]. simpl. by split.
Qed.

Lemma navigate_all_positioned cs : ∀ s,
  tutorials_ok (tutorials (session_manager s)) →
  positioned (session_manager s) →
  tutorials (session_manager (navigate_all s cs)) = tutorials (session_manager s) ∧
  positioned (session_manager (navigate_all s cs)).
Proof.
  unfold navigate_all. induction cs as [|c cs IH]; intros s Hok Hpos; simpl; [done|].
  destruct (run_command_positioned s c Hok Hpos) as [Htbl Hpos'].
  fold (navigate s c) in Htbl, Hpos'.
  destruct (IH (navigate s c)) as [Htbl' Hpos'']; [by rewrite Htbl|done|].
  split; [|done]. by rewrite Htbl', Htbl.
Qed.

(** X12. Navigation never leaves the tutorial. Whatever sequence of
    start, next, previous and end calls is made on a manager whose tutorials
    all have a name and at least one step, the current step stays a step of
    the active tutorial: [get_current_step] cannot raise, and
    [verify_step_completed] raises neither [KeyError] nor [IndexError], its
    only exceptions being those of [int] on the size or the address of the
    operation record. *)
Theorem navigation_stays_positioned {python : Interpreter} s cs operation_data :
  tutorials_ok (tutorials (session_manager s)) →
  positioned (session_manager s) →
  positioned (session_manager (navigate_all s cs)) ∧
  is_ok (get_current_step (session_manager (navigate_all s cs))) = true ∧
  ∀ x, verify_step_completed (session_manager (navigate_all s cs)) operation_data = Raise x →
       x ≠ KeyError ∧ x ≠ IndexError ∧
       (py_int (default (PyInt 0) (data_size operation_data)) = Raise x ∨
        py_int (default (PyInt (-1)) (data_address operation_data)) = Raise x).
Proof.
  intros Hok Hpos. destruct (navigate_all_positioned cs s Hok Hpos) as [_ Hpos'].
  split; [done|]. split; [by apply positioned_get_current_step|].
  intros x Hx.
  pose proof (positioned_verify_step_completed _ _ _ Hpos' Hx) as Hint.
  split_and!; [..|exact Hint]; destruct Hint as [Hint|Hint];
    by apply py_int_raises in Hint as [? ?].
Qed.

(** X13. A navigation call that answers with an error leaves the manager as
    it was: an unknown tutorial id, next or end without an active tutorial,
    previous at the first step. *)
Theorem navigation_error_changes_nothing s c message :
  tutorials_ok (tutorials (session_manager s)) →
  positioned (session_manager s) →
  (run_command s c).2 = Ok (ReplyError message) →
  (run_command s c).1 = s.
Proof.
  intros Hok Hpos.
  assert (∀ tm, positioned tm → is_Some (active_tutorial tm) →
                get_current_step tm ≠ Ok (ReplyError message)) as Hget.
  { intros tm Hp [t Ha] Hg. unfold get_current_step in Hg. rewrite Ha in Hg.
    apply active_tutorial_Some in Ha as [Hc _].
    destruct (Hp t Hc) as (_&steps&Hl&Hlt). rewrite Hl in Hg.
    destruct (lookup_lt_is_Some_2 steps (current_step tm) Hlt) as [step Hs].
    by rewrite Hs in Hg. }
  pose proof (run_command_positioned s c Hok Hpos) as [_ Hpos'].
  destruct s as [[cur cs tbl] done_]. simpl in *.
  destruct c as [tutorial_id| | |]; simpl in *.
  - unfold start_tutorial in *. simpl in *.
    destruct (tbl !! tutorial_id) as [steps|] eqn:Hl; [|done]. simpl in *.
    intros Hg. destruct (Hget _ Hpos'); [|done].
    exists tutorial_id. apply active_tutorial_Some. split; [done|]. by apply (Hok _ _ Hl).
  - unfold next_step in *. simpl in *.
    destruct (active_tutorial _) as [t|] eqn:Ha; [|done].
    destruct (tbl !! t) as [steps|] eqn:Hl; [|done].
    case_decide; simpl in *; [done|].
    intros Hg. destruct (Hget _ Hpos'); [|done].
    exists t. apply active_tutorial_Some in Ha as [Hc Hne]. by apply active_tutorial_Some.
  - unfold previous_step in *. simpl in *.
    destruct (active_tutorial _) as [t|] eqn:Ha; [|done].
    case_decide; simpl in *; [done|].
    intros Hg. destruct (Hget _ Hpos'); [|done].
    exists t. apply active_tutorial_Some in Ha as [Hc Hne]. by apply active_tutorial_Some.
  - unfold end_tutorial in *. simpl in *.
    destruct (active_tutorial _) as [t|] eqn:Ha; done.
Qed.

Lemma next_step_advances tutorial_id steps cs tbl done_ :
  tutorial_id ≠ EmptyString →
  tbl !! tutorial_id = Some steps →
  cs + 1 < length steps →
  next_step (TutorialSession (TutorialManager (Some tutorial_id) cs tbl) done_)
  = (TutorialSession (TutorialManager (Some tutorial_id) (cs + 1) tbl) done_,
     get_current_step (TutorialManager (Some tutorial_id) (cs + 1) tbl)).
Proof.
  intros Hne Hl Hlt. unfold next_step, active_tutorial. simpl.
  rewrite decide_False by done. rewrite Hl. rewrite decide_False by lia. done.
Qed.

(** X14. Round trip of the navigation: from a step that is not the last one,
    [next_step] moves to the following step and [previous_step] then brings
    the manager back exactly, answering with the step it started from. *)
Theorem next_previous_round_trip s tutorial_id steps :
  current_tutorial (session_manager s) = Some tutorial_id →
  tutorial_id ≠ EmptyString →
  tutorials (session_manager s) !! tutorial_id = Some steps →
  current_step (session_manager s) + 1 < length steps →
  current_step (session_manager (next_step s).1) = current_step (session_manager s) + 1 ∧
  previous_step (next_step s).1 = (s, get_current_step (session_manager s)).
Proof.
  destruct s as [[cur cs tbl] done_]. simpl. intros -> Hne Hl Hlt.
  rewrite (next_step_advances _ steps) by done. cbn [fst]. split; [done|].
  unfold previous_step, active_tutorial. simpl.
  rewrite decide_False by done. rewrite decide_False by lia.
  replace (cs + 1 - 1) with cs by lia. done.
Qed.

Lemma next_steps_advance tutorial_id steps tbl done_ m : ∀ cs,
  tutorial_id ≠ EmptyString →
  tbl !! tutorial_id = Some steps →
  cs + m < length steps →
  navigate_all (TutorialSession (TutorialManager (Some tutorial_id) cs tbl) done_)
    (replicate m NextStep)
  = TutorialSession (TutorialManager (Some tutorial_id) (cs + m) tbl) done_.
Proof.
  unfold navigate_all. induction m as [|m IH]; intros cs Hne Hl Hlt; simpl.
  - by rewrite Nat.add_0_r.
  - unfold navigate at 2. simpl. rewrite (next_step_advances _ steps) by (done || lia).
    cbn [fst]. rewrite IH by (done || lia). do 2 f_equal. lia.
Qed.

(** X15. Walking a tutorial through: after [start_tutorial] and one
    [next_step] per remaining step the manager stands on the last step with
    nothing recorded yet; the following [next_step] answers that the tutorial
    is completed, records its id in [completed_tutorials] and does not
    move. *)
Theorem tutorial_walk_completes s tutorial_id steps :
  tutorials_ok (tutorials (session_manager s)) →
  tutorials (session_manager s) !! tutorial_id = Some steps →
  let s1 := navigate_all (start_tutorial s tutorial_id).1
              (replicate (length steps - 1) NextStep) in
  current_tutorial (session_manager s1) = Some tutorial_id ∧
  current_step (session_manager s1) = length steps - 1 ∧
  completed_tutorials s1 = completed_tutorials s ∧
  (next_step s1).2 = Ok (ReplyCompleted tutorial_id) ∧
  session_manager (next_step s1).1 = session_manager s1 ∧
  completed_tutorials (next_step s1).1 = {[tutorial_id]} ∪ completed_tutorials s.
Proof.
  intros Hok Hl s1. destruct (Hok _ _ Hl) as [Hne Hsteps].
  assert (0 < length steps) by (destruct steps; [done|simpl; lia]).
  assert (s1 = TutorialSession
                 (TutorialManager (Some tutorial_id) (length steps - 1)
                    (tutorials (session_manager s)))
                 (completed_tutorials s)) as ->.
  { subst s1. unfold start_tutorial. rewrite Hl. cbn [fst].
    rewrite (next_steps_advance _ steps) by (done || simpl; lia). done. }
  simpl. split; [done|]. split; [done|]. split; [done|].
  unfold next_step, active_tutorial. simpl.
  rewrite decide_False by done. rewrite Hl. rewrite decide_True by lia. done.
Qed.

(** X16. Completions are never forgotten: over any sequence of navigation
    calls, starting or ending tutorials included, [completed_tutorials] only
    grows. *)
Theorem completed_tutorials_only_grow s cs :
  completed_tutorials s ⊆ completed_tutorials (navigate_all s cs).
Proof.
  unfold navigate_all. revert s. induction cs as [|c cs IH]; intros s; simpl; [done|].
  etrans; [|apply IH].
  unfold navigate. destruct c as [tutorial_id| | |]; simpl.
  - unfold start_tutorial. by destruct (_ !! _).
  - unfold next_step. destruct (active_tutorial _); [|done].
    destruct (_ !! _); [|done]. case_decide; simpl; [set_solver|done].
  - unfold previous_step. destruct (active_tutorial _); [|done]. by case_decide.
  - unfold end_tutorial. by destruct (active_tutorial _).
Qed.

(** * The parameter checks of [start_simulation] *)

(** X17. What [start_simulation] lets through, the constructor accepts: a
    request that passes the parameter checks always builds an engine, never
    takes the initialisation-error exit, and that engine is reachable, has
    between 1 and 4096 frames covering [memory_size] exactly, all of them
    free, and runs FIFO or LRU, never the fallback of [_replace_pages]. *)
Theorem start_simulation_builds_engine technique msize psize alg :
  check_parameters technique msize psize alg = None →
  ∃ e0,
    start_simulation technique msize psize alg = inr (Ok e0) ∧
    reachable e0 ∧
    (1 ≤ total_frames e0 ≤ 4096)%Z ∧
    (total_frames e0 * page_size e0 = msize)%Z ∧
    memory e0 = replicate (Z.to_nat (total_frames e0)) free_frame ∧
    (algorithm e0 = "FIFO" ∨ algorithm e0 = "LRU").
Proof.
  unfold start_simulation. intros Hc. rewrite Hc. unfold check_parameters in Hc.
  repeat case_decide; try discriminate.
  assert (0 < msize ≤ 4096)%Z by lia. assert (0 < psize ≤ 512)%Z by lia.
  assert (msize `mod` psize = 0)%Z as Hmod by lia.
  assert (valid_config msize psize) as Hv by (unfold valid_config; lia).
  unfold init. rewrite decide_False by lia. eexists. split; [done|].
  split.
  { exists technique, msize, psize, alg. eexists _, []. split; [done|].
    split; [|done]. unfold init. by rewrite decide_False by lia. }
  simpl.
  assert (msize = psize * (msize / psize))%Z as Hdiv by (apply Z.div_exact; lia).
  split; [nia|]. split; [lia|]. split; [done|].
  match goal with H : alg ∈ _ |- _ =>
    apply elem_of_cons in H as [->| H];
      [by left | apply list_elem_of_singleton in H as ->; by right] end.
Qed.

(** * The further properties at sample engines and sessions *)

Lemma allocate_memory_succeeds_witness :
  ∃ e' address, allocate_memory three_of_four 64 = (e', Ok address) ∧ next_id e' = 3.
Proof.
  destruct (allocate_memory_succeeds three_of_four 64)
    as (e'&frames&f&Hal&_&_&_&_&_&_&Hnext&_).
  - apply four_frames_run_reachable.
  - by vm_compute.
  - exists e', (Z.of_nat f * page_size three_of_four)%Z. split; [exact Hal|].
    rewrite Hnext. reflexivity.
Defined.

Lemma allocate_memory_evicts_shortfall_witness :
  page_faults (allocate_memory three_of_four 128).1 = 1 ∧
  length (free_frames (memory (allocate_memory three_of_four 128).1)) = 0.
Proof.
  pose proof (allocate_memory_evicts_shortfall three_of_four 128) as H.
  cbv zeta in H. destruct H as (Hpf&_&_&Hfree&_).
  - apply four_frames_run_reachable.
  - by vm_compute.
  - split; [rewrite Hpf|rewrite Hfree]; reflexivity.
Defined.

Lemma allocate_memory_without_eviction_witness :
  ∃ e', (allocate_memory hole_at_zero 100).1 = e' ∧
        memory e' = fill (allocated_frame 3) [0; 2] (memory hole_at_zero).
Proof.
  pose proof (allocate_memory_without_eviction hole_at_zero 100) as H.
  cbv zeta in H. destruct H as (e'&f&Hal&Hmem&_).
  - apply four_frames_run_reachable.
  - lia.
  - by vm_compute.
  - exists e'. split; [by rewrite Hal|]. rewrite Hmem. reflexivity.
Defined.

Lemma allocate_owner_ids_never_reused_witness :
  NoDup (allocate_ids (operations
           (run (four_frames "FIFO") [Allocate 128; Allocate 256; Access 10; Allocate 64]))).
Proof.
  apply (allocate_owner_ids_never_reused "paging" 256 64 "FIFO" (four_frames "FIFO")).
  reflexivity.
Defined.

Lemma deallocate_memory_outcome_witness :
  deallocate_memory (four_frames "FIFO") 300
  = (four_frames "FIFO", Raise (ValueError InvalidAddress)).
Proof.
  apply (deallocate_memory_outcome (four_frames "FIFO") 300).
  - apply (four_frames_run_reachable "FIFO" []).
  - right. by vm_compute.
Defined.

Lemma access_fault_then_hit_witness :
  (access_memory three_of_four 200).2 = Ok false ∧
  (access_memory (access_memory three_of_four 200).1 200).2 = Ok true.
Proof.
  pose proof (access_fault_then_hit three_of_four 200) as H.
  cbv zeta in H. destruct H as (Hfault&_&_&_&Hhit).
  - apply four_frames_run_reachable.
  - intros (fr&Hfr&Hst). vm_compute in Hfr. injection Hfr as <-. discriminate Hst.
  - by split.
Defined.

Lemma allocate_deallocate_round_trip_witness :
  ∃ e1 address e2,
    allocate_memory three_of_four 64 = (e1, Ok address) ∧
    deallocate_memory e1 address = (e2, Ok ()) ∧
    memory e2 = memory three_of_four.
Proof.
  destruct (allocate_deallocate_round_trip three_of_four 64)
    as (e1&address&e2&Hal&Hde&Hmem&_).
  - apply four_frames_run_reachable.
  - lia.
  - by vm_compute.
  - by exists e1, address, e2.
Defined.

Lemma replacement_metadata_exact_witness :
  NoDup (page_access_time
           (run (four_frames "LRU") [Allocate 128; Access 200; Deallocate 0])).*1 ∧
  ((None, 0) ∈ (page_access_time
                  (run (four_frames "LRU") [Allocate 128; Access 200; Deallocate 0])).*1 ↔
   ∃ pid, None = Some pid ∧
          memory (run (four_frames "LRU") [Allocate 128; Access 200; Deallocate 0]) !! 0
          = Some (allocated_frame pid)).
Proof.
  pose proof (replacement_metadata_exact "paging" 256 64 "LRU" (four_frames "LRU")
                [Allocate 128; Access 200; Deallocate 0]) as H.
  cbv zeta in H. destruct H as (_&Hlru&_).
  - reflexivity.
  - destruct Hlru as [Hnodup Hkeys]; [reflexivity|].
    split; [exact Hnodup|apply Hkeys].
Defined.

Lemma navigation_stays_positioned_witness :
  is_ok (get_current_step (session_manager
           (navigate_all tutorial_init
              [StartTutorial "intro"; NextStep; PreviousStep; PreviousStep; NextStep])))
  = true.
Proof.
  apply (navigation_stays_positioned (python := digits_only) tutorial_init _
           (OperationData (Some (PyStr "allocate")) (Some (PyStr "128")) None)).
  - apply tutorial_table_ok.
  - intros tutorial_id Hcur. discriminate Hcur.
Defined.

Lemma navigation_error_changes_nothing_witness :
  (run_command tutorial_init NextStep).1 = tutorial_init.
Proof.
  apply (navigation_error_changes_nothing tutorial_init NextStep NoActiveTutorial).
  - apply tutorial_table_ok.
  - intros tutorial_id Hcur. discriminate Hcur.
  - reflexivity.
Defined.

Lemma next_previous_round_trip_witness :
  previous_step (next_step (TutorialSession intro_at_allocation ∅)).1
  = (TutorialSession intro_at_allocation ∅, get_current_step intro_at_allocation).
Proof.
  apply (next_previous_round_trip (TutorialSession intro_at_allocation ∅) "intro" intro_steps).
  - reflexivity.
  - discriminate.
  - by vm_compute.
  - simpl. lia.
Defined.

Lemma tutorial_walk_completes_witness :
  (next_step (navigate_all (start_tutorial tutorial_init "intro").1
                (replicate (length intro_steps - 1) NextStep))).2
  = Ok (ReplyCompleted "intro").
Proof.
  apply (tutorial_walk_completes tutorial_init "intro" intro_steps).
  - apply tutorial_table_ok.
  - by vm_compute.
Defined.

Lemma start_simulation_builds_engine_witness :
  ∃ e0, start_simulation "paging" 1024 64 "LRU" = inr (Ok e0) ∧ reachable e0.
Proof.
  destruct (start_simulation_builds_engine "paging" 1024 64 "LRU") as (e0&Hs&Hr&_).
  - reflexivity.
  - by exists e0.
Defined.
